(** * inveniemus.js: the Metaheuristic engine and its ParticleSwarm specialization

    A shallow embedding of [Metaheuristic] (the base engine with its
    multi-objective ranking) and of [ParticleSwarm], followed by the theorems
    that settle the properties stated about them.

    Conventions of the embedding:
    - a JavaScript number is a [JS.num]: a rational, one of the two infinities
      or NaN; rounding of doubles is not modelled;
    - objects live in a store ([Heap]) and arrays hold references ([ref]), so
      that the in-place annotations of [paretoAnalysis] and
      [crowdingDistance] are seen through every alias;
    - a thrown exception or a rejected future is [None];
    - futures are sequenced: [Future.then] is the bind of the option monad. *)

From Stdlib Require Import String.
From Stdlib Require Import ZArith QArith Qround Qabs List Lia Bool Arith.
From Stdlib Require Import Permutation Sorted Lqa.
Import ListNotations.

Set Implicit Arguments.
Close Scope Q_scope.

(* ================================================================== *)
(** * JavaScript values and built-ins                                   *)
(* ================================================================== *)

Module JS.

Local Open Scope Q_scope.

(** Numbers. *)
Inductive num : Type :=
| Fin (q : Q)
| PInf
| NInf
| NaN.

Definition zero : num := Fin 0.

Definition add (a b : num) : num :=
  match a, b with
  | NaN, _ | _, NaN => NaN
  | Fin x, Fin y => Fin (x + y)
  | PInf, NInf | NInf, PInf => NaN
  | PInf, _ | _, PInf => PInf
  | NInf, _ | _, NInf => NInf
  end.

Definition opp (a : num) : num :=
  match a with
  | Fin x => Fin (- x)
  | PInf => NInf
  | NInf => PInf
  | NaN => NaN
  end.

Definition sub (a b : num) : num := add a (opp b).

Definition signed_inf (c : comparison) : num :=
  match c with
  | Gt => PInf
  | Lt => NInf
  | Eq => NaN
  end.

Definition mul (a b : num) : num :=
  match a, b with
  | NaN, _ | _, NaN => NaN
  | Fin x, Fin y => Fin (x * y)
  | Fin x, PInf | PInf, Fin x => signed_inf (x ?= 0)
  | Fin x, NInf | NInf, Fin x => signed_inf (0 ?= x)
  | PInf, PInf | NInf, NInf => PInf
  | PInf, NInf | NInf, PInf => NInf
  end.

(** [a < b]; false as soon as one side is NaN. *)
Definition ltb (a b : num) : bool :=
  match a, b with
  | NaN, _ | _, NaN => false
  | Fin x, Fin y => match x ?= y with Lt => true | _ => false end
  | NInf, NInf => false
  | NInf, _ => true
  | _, NInf => false
  | PInf, _ => false
  | Fin _, PInf => true
  end.

Definition gtb (a b : num) : bool := ltb b a.

(** [a <= b]; false as soon as one side is NaN. *)
Definition leb (a b : num) : bool :=
  match a, b with
  | NaN, _ | _, NaN => false
  | Fin x, Fin y => match x ?= y with Gt => false | _ => true end
  | NInf, _ => true
  | _, PInf => true
  | _, NInf => false
  | PInf, _ => false
  end.

(** [Math.abs]. *)
Definition abs (a : num) : num :=
  match a with
  | Fin x => Fin (Qabs x)
  | PInf | NInf => PInf
  | NaN => NaN
  end.

(** [Math.max] and [Math.min] of two numbers. *)
Definition max (a b : num) : num :=
  match a, b with
  | NaN, _ | _, NaN => NaN
  | _, _ => if ltb a b then b else a
  end.

Definition min (a b : num) : num :=
  match a, b with
  | NaN, _ | _, NaN => NaN
  | _, _ => if ltb b a then b else a
  end.

Definition of_Z (z : Z) : num := Fin (inject_Z z).
Definition of_nat (n : nat) : num := of_Z (Z.of_nat n).

(** [a || b] on numbers: [a] unless it is falsy (zero or NaN). *)
Definition or_else (a b : num) : num :=
  match a with
  | Fin x => if Qeq_bool x 0 then b else a
  | NaN => b
  | _ => a
  end.

(** [xs[i]] used in arithmetic: a missing item is [undefined], which
    arithmetic turns into NaN. *)
Definition item (xs : list num) (i : nat) : num := nth i xs NaN.

(** Equality of numbers as [===] sees it on non-NaN values, up to the
    representation of the rational. *)
Definition same (a b : num) : Prop :=
  match a, b with
  | Fin x, Fin y => x == y
  | PInf, PInf | NInf, NInf => True
  | _, _ => False
  end.

Definition is_real (a : num) : Prop :=
  match a with Fin _ => True | _ => False end.

Definition is_nan (a : num) : bool :=
  match a with NaN => true | _ => false end.

(** [Array.prototype.sort(comparefn)].  The sort is stable: an item moves
    behind another one only when [comparefn] of the two is positive (a NaN
    result counts as zero).  For a consistent comparator every stable
    sorting procedure returns this list. *)
Fixpoint insert {A : Type} (comparefn : A -> A -> num) (x : A) (l : list A)
  : list A :=
  match l with
  | [] => [x]
  | y :: l' =>
      if gtb (comparefn x y) zero then y :: insert comparefn x l' else x :: l
  end.

Definition sort {A : Type} (comparefn : A -> A -> num) (l : list A) : list A :=
  fold_right (insert comparefn) [] l.

(** [xs.slice(0, e)] for an integer [e]: a negative [e] counts from the
    end of the array. *)
Definition slice0 {A : Type} (xs : list A) (e : Z) : list A :=
  let len := Z.of_nat (length xs) in
  let k := if (e <? 0)%Z then Z.max (len + e) 0 else Z.min e len in
  firstn (Z.to_nat k) xs.

(** [iterable(xs).nub(equality).toArray()] of the base library: an item is
    kept unless [equality] relates an item kept before it to it. *)
Fixpoint nub_from {A : Type} (equality : A -> A -> bool) (buffer l : list A)
  : list A :=
  match l with
  | [] => []
  | x :: l' =>
      if existsb (fun b => equality b x) buffer
      then nub_from equality buffer l'
      else x :: nub_from equality (buffer ++ [x]) l'
  end.

Definition nub {A : Type} (equality : A -> A -> bool) (l : list A) : list A :=
  nub_from equality [] l.

(** Outcome of a future that is run with a bounded number of turns. *)
Inductive outcome (A : Type) : Type :=
| Resolved (a : A)
| Rejected
| Pending.
Arguments Rejected {A}.
Arguments Pending {A}.

(** [Future.doWhile(action, condition)] of the base library: the action is
    performed once, then again as long as the condition holds of the value
    it produced. *)
Fixpoint doWhile {A : Type} (turns : nat) (action : A -> option A)
  (condition : A -> bool) (a : A) : outcome A :=
  match turns with
  | O => Pending
  | S turns' =>
      match action a with
      | None => Rejected
      | Some a' =>
          if condition a' then doWhile turns' action condition a'
          else Resolved a'
      end
  end.

End JS.

(** Binding for computations that may throw. *)
Notation "'try' x <- c1 ; c2" :=
  (match c1 with Some x => c2 | None => None end)
    (at level 60, x pattern, c1 at next level, right associativity).

(* ================================================================== *)
(** * Elements, the object store and the problem                        *)
(* ================================================================== *)

(** The identity of an object. *)
Definition ref : Type := nat.

Module Element.

Record Pareto : Type := {
  dominated : list ref;
  dominators : list ref
}.

(** The properties of an element the engine reads or writes. *)
Record t : Type := {
  __values__ : list JS.num;
  evaluation : option (list JS.num);
  pareto : option Pareto;
  crowdingDistance : option JS.num;
  __velocity__ : option (list JS.num);
  __localBest__ : option ref
}.

(** Modelled from the spec: [element.values()] of the class Element, which
    is not among the source files at hand; it is the ordered vector of the
    decision values. *)
Definition values (e : t) : list JS.num := __values__ e.

(** Modelled from the spec: [new problem.Element(values)] of the same class;
    the new element has the given values and nothing else yet. *)
Definition make (vs : list JS.num) : t :=
  {| __values__ := vs; evaluation := None; pareto := None;
     crowdingDistance := None; __velocity__ := None; __localBest__ := None |}.

Definition set_evaluation (v : list JS.num) (e : t) : t :=
  {| __values__ := __values__ e; evaluation := Some v; pareto := pareto e;
     crowdingDistance := crowdingDistance e; __velocity__ := __velocity__ e;
     __localBest__ := __localBest__ e |}.

Definition set_pareto (p : Pareto) (e : t) : t :=
  {| __values__ := __values__ e; evaluation := evaluation e; pareto := Some p;
     crowdingDistance := crowdingDistance e; __velocity__ := __velocity__ e;
     __localBest__ := __localBest__ e |}.

Definition set_crowdingDistance (d : JS.num) (e : t) : t :=
  {| __values__ := __values__ e; evaluation := evaluation e; pareto := pareto e;
     crowdingDistance := Some d; __velocity__ := __velocity__ e;
     __localBest__ := __localBest__ e |}.

Definition set_velocity (v : list JS.num) (e : t) : t :=
  {| __values__ := __values__ e; evaluation := evaluation e; pareto := pareto e;
     crowdingDistance := crowdingDistance e; __velocity__ := Some v;
     __localBest__ := __localBest__ e |}.

Definition set_localBest (r : ref) (e : t) : t :=
  {| __values__ := __values__ e; evaluation := evaluation e; pareto := pareto e;
     crowdingDistance := crowdingDistance e; __velocity__ := __velocity__ e;
     __localBest__ := Some r |}.

End Element.

(** The object store. *)
Definition Heap : Type := ref -> Element.t.

Definition upd (h : Heap) (r : ref) (e : Element.t) : Heap :=
  fun r' => if Nat.eqb r' r then e else h r'.

(** [h[r] := f(h[r])]: an in-place change of the object [r]. *)
Definition modify (h : Heap) (r : ref) (f : Element.t -> Element.t) : Heap :=
  upd h r (f (h r)).

(** The problem, as the engine uses it.  The classes Problem and Element are
    not part of the engine; what the engine calls of them is taken as
    parameters. *)
Record Problem : Type := {
  (** [problem.objectives.length] *)
  objectives : nat;
  (** [element.model[i].n] for each dimension [i] *)
  model : list Z;
  (** the values [new problem.Element()] draws for the object created with
      identity [r] *)
  initial : ref -> list JS.num;
  (** the evaluation vector [problem.evaluate] and [element.evaluate()]
      store for given values *)
  evaluation_of : list JS.num -> list JS.num;
  (** [problem.compare(e1, e2)] as a number *)
  compare : Element.t -> Element.t -> JS.num;
  (** [problem.compare(e1, e2).domination] *)
  domination : Element.t -> Element.t -> JS.num;
  (** [e1.isBetterThan(e2)] *)
  isBetterThan : Element.t -> Element.t -> bool;
  (** [problem.sufficientElements(elements)] *)
  sufficientElements : list Element.t -> bool
}.

(* ================================================================== *)
(** * Metaheuristic                                                     *)
(* ================================================================== *)

Module Metaheuristic.

(** One value added to an accumulator of the statistics. *)
Record Stat : Type := {
  key : string;
  index : option nat;
  at_step : Z;
  value : JS.num
}.

(** The engine.  [heap] and [fresh] are the object store and the identity
    the next created object gets; [size], [steps] and [step] are integers;
    [random] is the generator, given by the draws it has still to make;
    [logger] and [events] hold what has been logged and emitted so far
    ([logger] is [None] when no logger is attached).  The listeners of the
    events are not modelled. *)
Record t : Type := {
  heap : Heap;
  fresh : ref;
  size : Z;
  state : list ref;
  steps : Z;
  step : Z;
  expansionRate : option Q;
  random : nat -> Q;
  statistics : option (list Stat);
  logger : option (list (string * string));
  events : list string
}.

Definition with_heap (h : Heap) (mh : t) : t :=
  {| heap := h; fresh := fresh mh; size := size mh; state := state mh;
     steps := steps mh; step := step mh; expansionRate := expansionRate mh;
     random := random mh; statistics := statistics mh; logger := logger mh;
     events := events mh |}.

Definition with_fresh (r : ref) (mh : t) : t :=
  {| heap := heap mh; fresh := r; size := size mh; state := state mh;
     steps := steps mh; step := step mh; expansionRate := expansionRate mh;
     random := random mh; statistics := statistics mh; logger := logger mh;
     events := events mh |}.

Definition with_state (s : list ref) (mh : t) : t :=
  {| heap := heap mh; fresh := fresh mh; size := size mh; state := s;
     steps := steps mh; step := step mh; expansionRate := expansionRate mh;
     random := random mh; statistics := statistics mh; logger := logger mh;
     events := events mh |}.

Definition with_step (n : Z) (mh : t) : t :=
  {| heap := heap mh; fresh := fresh mh; size := size mh; state := state mh;
     steps := steps mh; step := n; expansionRate := expansionRate mh;
     random := random mh; statistics := statistics mh; logger := logger mh;
     events := events mh |}.

Definition with_random (g : nat -> Q) (mh : t) : t :=
  {| heap := heap mh; fresh := fresh mh; size := size mh; state := state mh;
     steps := steps mh; step := step mh; expansionRate := expansionRate mh;
     random := g; statistics := statistics mh; logger := logger mh;
     events := events mh |}.

Definition with_statistics (s : option (list Stat)) (mh : t) : t :=
  {| heap := heap mh; fresh := fresh mh; size := size mh; state := state mh;
     steps := steps mh; step := step mh; expansionRate := expansionRate mh;
     random := random mh; statistics := s; logger := logger mh;
     events := events mh |}.

Definition with_logger (l : option (list (string * string))) (mh : t) : t :=
  {| heap := heap mh; fresh := fresh mh; size := size mh; state := state mh;
     steps := steps mh; step := step mh; expansionRate := expansionRate mh;
     random := random mh; statistics := statistics mh; logger := l;
     events := events mh |}.

Definition with_events (evs : list string) (mh : t) : t :=
  {| heap := heap mh; fresh := fresh mh; size := size mh; state := state mh;
     steps := steps mh; step := step mh; expansionRate := expansionRate mh;
     random := random mh; statistics := statistics mh; logger := logger mh;
     events := evs |}.

(** [__log__(level, ...)]: nothing is logged without a logger. *)
Definition __log__ (level message : string) (mh : t) : t :=
  match logger mh with
  | Some entries => with_logger (Some (entries ++ [(level, message)])) mh
  | None => mh
  end.

(** [this.events.emit(event, this)]. *)
Definition emit (event : string) (mh : t) : t :=
  with_events (events mh ++ [event]) mh.

Definition onInitiate (mh : t) : t :=
  __log__ "debug" "State has been initiated. Nos coepimus."
    (emit "initiated" mh).

Definition onUpdate (mh : t) : t :=
  __log__ "debug" "State has been updated. Mutatis mutandis."
    (emit "updated" mh).

Definition onExpand (mh : t) : t :=
  __log__ "debug" "State has been expanded. Nos exploramus."
    (emit "expanded" mh).

Definition onEvaluate (mh : t) : t :=
  __log__ "debug" "Evaluated and sorted elements. Appretiatus sunt."
    (emit "evaluated" mh).

Definition onSieve (mh : t) : t :=
  __log__ "debug" "State has been sieved. Haec est viam."
    (emit "sieved" mh).

Definition onAdvance (mh : t) : t :=
  __log__ "debug" "Step has been completed. Nos proficimus."
    (emit "advanced" mh).

Definition onAnalyze (mh : t) : t :=
  __log__ "debug" "Statistics have been gathered. Haec sunt numeri."
    (emit "analyzed" mh).

Definition onFinish (mh : t) : t :=
  __log__ "debug" "Finished. Nos invenerunt!"
    (emit "finished" mh).

(** [new Array(size)]: a RangeError for a negative size. *)
Definition new_Array (size : Z) : option nat :=
  if (size <? 0)%Z then None else Some (Z.to_nat size).

Section Engine.

Variable P : Problem.

(** [n] times [new this.problem.Element()], the objects getting the
    identities [r], [r+1], ... *)
Fixpoint create (n : nat) (h : Heap) (r : ref) : Heap * list ref :=
  match n with
  | O => (h, [])
  | S n' =>
      let (h', rs) := create n' (upd h r (Element.make (initial P r))) (S r) in
      (h', r :: rs)
  end.

(** [initiate(size = this.size)]. *)
Definition initiate (size : option Z) (mh : t) : option t :=
  let size := match size with None => Metaheuristic.size mh | Some s => s end in
  try n <- new_Array size;
  let (h, elems) := create n (heap mh) (fresh mh) in
  Some (onInitiate (with_state elems (with_fresh (fresh mh + n) (with_heap h mh)))).

(** [expansion(size)]. *)
Definition expansion (size : option Z) (mh : t) : option (t * list ref) :=
  let expansionRate :=
    match Metaheuristic.expansionRate mh with None => 1%Q | Some r => r end in
  let size :=
    match size with
    | None => Qfloor (expansionRate * inject_Z (Metaheuristic.size mh))%Q
    | Some s => s
    end in
  try n <- new_Array size;
  let (h, elems) := create n (heap mh) (fresh mh) in
  Some (with_fresh (fresh mh + n) (with_heap h mh), elems).

(** [expand(expansion)]; an array, even an empty one, is truthy. *)
Definition expand (supplied : option (list ref)) (mh : t) : option t :=
  try me <- match supplied with
            | Some l => Some (mh, l)
            | None => expansion None mh
            end;
  let (mh, expansion) := me in
  let mh :=
    if (length expansion <? 1)%nat
    then __log__ "warn" "Expansion is empty" mh
    else with_state (state mh ++ expansion) mh in
  Some (onExpand mh).

(** [sieve(size = this.size)]. *)
Definition sieve (size : option Z) (mh : t) : t :=
  let size := match size with None => Metaheuristic.size mh | Some s => s end in
  let mh :=
    if (Z.of_nat (length (state mh)) >? size)%Z
    then with_state (JS.slice0 (state mh) (Metaheuristic.size mh)) mh
    else mh in
  onSieve mh.

(** [finished()]. *)
Definition finished (mh : t) : bool :=
  (steps mh <=? step mh)%Z || sufficientElements P (map (heap mh) (state mh)).

(** [reset()]. *)
Definition reset (mh : t) : t :=
  let mh := with_step (-1)%Z mh in
  match statistics mh with
  | Some _ => with_statistics (Some []) mh
  | None => mh
  end.

(** The comparison function of [nub]. *)
Definition nub_equal (precision : JS.num) (e1 e2 : Element.t) : bool :=
  let values1 := Element.__values__ e1 in
  let values2 := Element.__values__ e2 in
  let len := length values1 in
  if negb (len =? length values2)%nat then false
  else forallb
         (fun i => negb (JS.gtb (JS.abs (JS.sub (JS.item values1 i)
                                                (JS.item values2 i)))
                                precision))
         (seq 0 len).

(** [nub(precision)]; [+precision || 0] is 0 for a missing, zero or NaN
    argument. *)
Definition nub (precision : option JS.num) (mh : t) : t * nat :=
  let precision :=
    match precision with
    | Some p => JS.or_else p JS.zero
    | None => JS.zero
    end in
  let state' :=
    JS.nub (fun r1 r2 => nub_equal precision (heap mh r1) (heap mh r2))
           (state mh) in
  (with_state state' mh, length state').

(** ** Multi-objective ranking *)

Definition no_pareto : Element.Pareto :=
  {| Element.dominated := []; Element.dominators := [] |}.

(** [winner.pareto.dominated.push(loser);
     loser.pareto.dominators.push(winner)]. *)
Definition record_domination (winner loser : ref) (h : Heap) : option Heap :=
  try p1 <- Element.pareto (h winner);
  let h1 := modify h winner (Element.set_pareto
              {| Element.dominated := Element.dominated p1 ++ [loser];
                 Element.dominators := Element.dominators p1 |}) in
  try p2 <- Element.pareto (h1 loser);
  Some (modify h1 loser (Element.set_pareto
          {| Element.dominated := Element.dominated p2;
             Element.dominators := Element.dominators p2 ++ [winner] |})).

(** The inner loop of [paretoAnalysis]: [elem1] against the elements after
    it. *)
Fixpoint paretoAnalysis_against (elem1 : ref) (rest : list ref) (h : Heap)
  : option Heap :=
  match rest with
  | [] => Some h
  | elem2 :: rest' =>
      let domination := domination P (h elem1) (h elem2) in
      try h' <- (if JS.gtb domination JS.zero
                 then record_domination elem1 elem2 h
                 else if JS.ltb domination JS.zero
                      then record_domination elem2 elem1 h
                      else Some h);
      paretoAnalysis_against elem1 rest' h'
  end.

(** The outer loop of [paretoAnalysis]. *)
Fixpoint paretoAnalysis_pairs (elements : list ref) (h : Heap) : option Heap :=
  match elements with
  | [] => Some h
  | elem1 :: rest =>
      try h' <- paretoAnalysis_against elem1 rest h;
      paretoAnalysis_pairs rest h'
  end.

(** [paretoAnalysis(elements)]; the array is returned as it was given. *)
Definition paretoAnalysis (elements : list ref) (h : Heap) : option Heap :=
  paretoAnalysis_pairs elements
    (fold_left (fun h r => modify h r (Element.set_pareto no_pareto))
               elements h).

(** [element.evaluation], read where the element is known to have one. *)
Definition evaluation_at (h : Heap) (r : ref) : list JS.num :=
  match Element.evaluation (h r) with Some v => v | None => [] end.

Definition has_evaluation (h : Heap) (r : ref) : bool :=
  match Element.evaluation (h r) with Some _ => true | None => false end.

(** [element.crowdingDistance] in arithmetic ([undefined] counts as NaN). *)
Definition distance_at (h : Heap) (r : ref) : JS.num :=
  match Element.crowdingDistance (h r) with Some d => d | None => JS.NaN end.

(** The comparison function of the [i]-th ranking of [crowdingDistance]. *)
Definition by_objective (h : Heap) (i : nat) (elem1 elem2 : ref) : JS.num :=
  JS.sub (JS.item (evaluation_at h elem1) i) (JS.item (evaluation_at h elem2) i).

(** [es[j].crowdingDistance += es[j+1].evaluation[i] - es[j-1].evaluation[i]]. *)
Definition crowd_interior (i : nat) (es : list ref) (h : Heap) (j : nat) : Heap :=
  modify h (nth j es O)
    (fun e => Element.set_crowdingDistance
                (JS.add (distance_at h (nth j es O))
                        (JS.sub (JS.item (evaluation_at h (nth (j + 1) es O)) i)
                                (JS.item (evaluation_at h (nth (j - 1) es O)) i)))
                e).

(** One turn of the loop over the objectives in [crowdingDistance].  The
    comparison function reads [evaluation[i]] of both its arguments, and a
    sort of two or more items compares each of them at least once: the turn
    throws when an element of such an array has no evaluation.  It also
    throws on an empty array, which has no item 0. *)
Definition crowdingDistance_turn (i : nat) (hes : Heap * list ref)
  : option (Heap * list ref) :=
  let (h, es) := hes in
  if (2 <=? length es)%nat && negb (forallb (has_evaluation h) es) then None
  else
    let es := JS.sort (by_objective h i) es in
    try first <- nth_error es 0;
    let h := modify h first (Element.set_crowdingDistance JS.PInf) in
    try last <- nth_error es (length es - 1);
    let h := modify h last (Element.set_crowdingDistance JS.PInf) in
    Some (fold_left (crowd_interior i es) (seq 1 (length es - 2)) h, es).

(** A [for] loop whose body may throw. *)
Fixpoint for_each {S : Type} (body : nat -> S -> option S) (indices : list nat)
  (s : S) : option S :=
  match indices with
  | [] => Some s
  | i :: indices' => try s' <- body i s; for_each body indices' s'
  end.

(** [crowdingDistance(elements)]; [es] is the private copy that is sorted
    again for each objective, [elements] keeps its order. *)
Definition crowdingDistance (elements : list ref) (h : Heap) : option Heap :=
  let es := elements in
  let count := objectives P in
  let h := fold_left (fun h r => modify h r (Element.set_crowdingDistance JS.zero))
                     es h in
  try hes <- for_each crowdingDistance_turn (seq 0 count) (h, es);
  Some (fst hes).

(** [element.pareto.dominators.length]. *)
Definition dominators_count (h : Heap) (r : ref) : nat :=
  match Element.pareto (h r) with
  | Some p => length (Element.dominators p)
  | None => O
  end.

(** The comparison function of [nonDominatedSort]; it runs after both
    annotations have been given to every element. *)
Definition nonDominated_compare (h : Heap) (elem1 elem2 : ref) : JS.num :=
  JS.or_else
    (JS.sub (JS.of_nat (dominators_count h elem1))
            (JS.of_nat (dominators_count h elem2)))
    (JS.sub (distance_at h elem2) (distance_at h elem1)).

(** [nonDominatedSort(elements)]. *)
Definition nonDominatedSort (elements : list ref) (h : Heap)
  : option (Heap * list ref) :=
  try h <- paretoAnalysis elements h;
  try h <- crowdingDistance elements h;
  Some (h, JS.sort (nonDominated_compare h) elements).

(** [multiObjectiveSort(elements)]. *)
Definition multiObjectiveSort (elements : list ref) (h : Heap)
  : option (Heap * list ref) :=
  nonDominatedSort elements h.

(** The sum, over the given dominators, of [dominator.pareto.dominated.length];
    reading the lists of a dominator without the annotation throws. *)
Fixpoint dominated_counts (h : Heap) (dominators : list ref) : option nat :=
  match dominators with
  | [] => Some O
  | dominator :: rest =>
      try p <- Element.pareto (h dominator);
      try n <- dominated_counts h rest;
      Some (length (Element.dominated p) + n)%nat
  end.

(** The value [strengthParetoSort] gives to [elem.pareto.strength]. *)
Definition strength (h : Heap) (elem : ref) : option nat :=
  try p <- Element.pareto (h elem);
  dominated_counts h (Element.dominators p).

(** [elem.pareto.strength] in arithmetic, once it has been computed. *)
Definition strength_at (h : Heap) (elem : ref) : nat :=
  match strength h elem with Some n => n | None => O end.

(** [strengthParetoSort(elements)].  The strengths are computed for every
    element, in turn, from lists that the loop does not change; the property
    [pareto.strength] itself is not kept in the store, it is [strength_at]
    of the store that is returned. *)
Definition strengthParetoSort (elements : list ref) (h : Heap)
  : option (Heap * list ref) :=
  try h <- paretoAnalysis elements h;
  try strengths <- for_each (fun elem acc =>
                               try n <- strength h elem; Some (acc ++ [n]))
                            elements [];
  Some (h, JS.sort (fun elem1 elem2 =>
                      JS.sub (JS.of_nat (strength_at h elem1))
                             (JS.of_nat (strength_at h elem2)))
                   elements).

(** ** The step pipeline *)

(** [sort(elements)]. *)
Definition sort (elements : list ref) (h : Heap) : option (Heap * list ref) :=
  if (1 <? objectives P)%nat
  then multiObjectiveSort elements h
  else Some (h, rev (JS.sort (fun e1 e2 => compare P (h e1) (h e2)) elements)).

(** Modelled from the spec: [problem.evaluate(elements)] of the class
    Problem, which is not among the source files at hand; every element of
    the array is given its evaluation. *)
Definition problem_evaluate (elements : list ref) (h : Heap) : Heap :=
  fold_left
    (fun h r =>
       modify h r
         (fun e => Element.set_evaluation
                     (evaluation_of P (Element.__values__ e)) e))
    elements h.

(** [evaluate(elements = this.state)].  Without an argument it is the array
    of the state that is sorted in place.  The timing statistics are left
    out. *)
Definition evaluate (elements : option (list ref)) (mh : t)
  : option (t * list ref) :=
  let given := match elements with Some l => l | None => state mh end in
  let h := problem_evaluate given (heap mh) in
  try hs <- sort given h;
  let (h, sorted) := hs in
  let mh := with_heap h mh in
  let mh := match elements with None => with_state sorted mh | Some _ => mh end in
  Some (onEvaluate mh, sorted).

(** [update()]. *)
Definition update (mh : t) : option t :=
  try mh <- expand None mh;
  try me <- evaluate None mh;
  Some (onUpdate (sieve None (fst me))).

(** What [analyze] adds for one element of a multi-objective state;
    [width] is the number of accumulators made from [state[0].evaluation]. *)
Definition analyze_element (width : nat) (step : Z) (h : Heap) (r : ref)
  : option (list Stat) :=
  try ev <- Element.evaluation (h r);
  if (width <? length ev)%nat then None
  else
    try p <- Element.pareto (h r);
    Some (map (fun iv => {| key := "evaluation"; index := Some (fst iv);
                            at_step := step; value := snd iv |})
              (combine (seq 0 (length ev)) ev)
          ++ [ {| key := "dominators"; index := None; at_step := step;
                  value := JS.of_nat (length (Element.dominators p)) |};
               {| key := "dominated"; index := None; at_step := step;
                  value := JS.of_nat (length (Element.dominated p)) |} ]).

Fixpoint collect {A : Type} (xs : list (option (list A))) : option (list A) :=
  match xs with
  | [] => Some []
  | x :: xs' => try a <- x; try b <- collect xs'; Some (a ++ b)
  end.

(** [analyze()] on the engine's own statistics. *)
Definition analyze (mh : t) : option t :=
  match statistics mh with
  | None => Some mh
  | Some stats =>
      let h := heap mh in
      try first <- nth_error (state mh) 0;
      try ev0 <- Element.evaluation (h first);
      try added <-
        (if (length ev0 =? 1)%nat
         then Some (flat_map
                      (fun r =>
                         match Element.evaluation (h r) with
                         | Some ev => [ {| key := "evaluation"; index := None;
                                           at_step := step mh;
                                           value := JS.item ev 0 |} ]
                         | None => []
                         end)
                      (state mh))
         else collect (map (analyze_element (length ev0) (step mh) h) (state mh)));
      Some (onAnalyze (with_statistics (Some (stats ++ added)) mh))
  end.

(** [advance()], for given [initiate] and [update] methods (both can be
    overridden). *)
Definition advance_with (initiate : option Z -> t -> option t)
  (update : t -> option t) (mh : t) : option t :=
  try mh <- (if (step mh <? 0)%Z
             then try mh <- initiate None (reset mh);
                  try me <- evaluate None mh;
                  Some (fst me)
             else update mh);
  let mh := with_step (if (step mh <? 0)%Z then 0 else step mh + 1)%Z mh in
  try mh <- analyze mh;
  Some (onAdvance mh).

Definition advance : t -> option t := advance_with initiate update.

(** [run()], the future being given [turns] turns; it resolves to the
    engine and [state[0]]. *)
Definition run_with (advance : t -> option t) (turns : nat) (mh : t)
  : JS.outcome (t * option ref) :=
  match JS.doWhile turns advance (fun mh => negb (finished mh)) mh with
  | JS.Resolved mh => let mh := onFinish mh in
                      JS.Resolved (mh, nth_error (state mh) 0)
  | JS.Rejected => JS.Rejected
  | JS.Pending => JS.Pending
  end.

Definition run : nat -> t -> JS.outcome (t * option ref) := run_with advance.

End Engine.

End Metaheuristic.

(* ================================================================== *)
(** * ParticleSwarm                                                     *)
(* ================================================================== *)

Module ParticleSwarm.

(** A particle swarm is a Metaheuristic with three more parameters and the
    best position of the whole run. *)
Record t : Type := {
  base : Metaheuristic.t;
  inertia : JS.num;
  localAcceleration : JS.num;
  globalAcceleration : JS.num;
  __globalBest__ : option ref
}.

Definition with_base (mh : Metaheuristic.t) (psw : t) : t :=
  {| base := mh; inertia := inertia psw;
     localAcceleration := localAcceleration psw;
     globalAcceleration := globalAcceleration psw;
     __globalBest__ := __globalBest__ psw |}.

Definition with_globalBest (g : option ref) (psw : t) : t :=
  {| base := base psw; inertia := inertia psw;
     localAcceleration := localAcceleration psw;
     globalAcceleration := globalAcceleration psw;
     __globalBest__ := g |}.

(** [this.random.random(x)] of the base library: the next draw of the
    generator, scaled by [x]. *)
Definition random_random (x : JS.num) (mh : Metaheuristic.t)
  : JS.num * Metaheuristic.t :=
  (JS.mul (JS.Fin (Metaheuristic.random mh 0)) x,
   Metaheuristic.with_random (fun k => Metaheuristic.random mh (S k)) mh).

(** [this.random.random(lo, hi)] of the base library: the next draw [n] of
    the generator, brought between [lo] and [hi] as [(1 - n) * lo + n * hi]. *)
Definition random_between (lo hi : JS.num) (mh : Metaheuristic.t)
  : JS.num * Metaheuristic.t :=
  let n := JS.Fin (Metaheuristic.random mh 0) in
  (JS.add (JS.mul (JS.sub (JS.Fin 1) n) lo) (JS.mul n hi),
   Metaheuristic.with_random (fun k => Metaheuristic.random mh (S k)) mh).

(** [this.random.randoms(n, lo, hi)] of the base library: [n] such draws,
    one after the other. *)
Fixpoint randoms (n : nat) (lo hi : JS.num) (mh : Metaheuristic.t)
  : list JS.num * Metaheuristic.t :=
  match n with
  | O => ([], mh)
  | S n' =>
      let (v, mh) := random_between lo hi mh in
      let (vs, mh) := randoms n' lo hi mh in
      (v :: vs, mh)
  end.

(** Modelled from the spec: the helper [clamp(value, min, max)] is not in
    the source files at hand; it brings [value] into the range from [min] to
    [max]. *)
Definition clamp (value lo hi : JS.num) : JS.num :=
  JS.min (JS.max value lo) hi.

(** [xs.map(function (v, i) {...})] pairs every item with its index. *)
Definition indexed {A : Type} (xs : list A) : list (nat * A) :=
  combine (seq 0 (length xs)) xs.

(** A [map] whose callback changes the swarm and may throw. *)
Fixpoint map_elements (f : ref -> t -> option (ref * t)) (l : list ref)
  (psw : t) : option (list ref * t) :=
  match l with
  | [] => Some ([], psw)
  | x :: l' =>
      try yp <- f x psw;
      try ysp <- map_elements f l' (snd yp);
      Some (fst yp :: fst ysp, snd ysp)
  end.

Fixpoint sequence {A : Type} (xs : list (option A)) : option (list A) :=
  match xs with
  | [] => Some []
  | x :: xs' => try a <- x; try b <- sequence xs'; Some (a :: b)
  end.

Section Swarm.

Variable P : Problem.

(** The velocity [nextVelocity] computes for dimension [i], where the
    position has value [v]. *)
Definition velocity_component (inertia localCoef globalCoef : JS.num)
  (velocity localBest globalBest : list JS.num) (i : nat) (v : JS.num) : JS.num :=
  JS.add (JS.add (JS.mul (JS.item velocity i) inertia)
                 (JS.mul localCoef (JS.sub (JS.item localBest i) v)))
         (JS.mul globalCoef (JS.sub (JS.item globalBest i) v)).

(** [nextVelocity(element, globalBest)].  The callback of [map] reads
    [velocity[i]] and [localBest.__values__[i]]: it throws when one of the
    two properties is missing, unless there is no dimension to map. *)
Definition nextVelocity (element globalBest : ref) (psw : t)
  : option (list JS.num * t) :=
  let mh := base psw in
  let h := Metaheuristic.heap mh in
  let velocity := Element.__velocity__ (h element) in
  let localBest := Element.__localBest__ (h element) in
  let (localCoef, mh) := random_random (localAcceleration psw) mh in
  let (globalCoef, mh) := random_random (globalAcceleration psw) mh in
  let values := Element.values (h element) in
  try result <-
    match values with
    | [] => Some []
    | _ =>
        try velocity <- velocity;
        try localBest <- localBest;
        Some (map (fun iv =>
                     velocity_component (inertia psw) localCoef globalCoef
                       velocity (Element.__values__ (h localBest))
                       (Element.__values__ (h globalBest)) (fst iv) (snd iv))
                  (indexed values))
    end;
  Some (result, with_base mh psw).

(** [nextElement(element, globalBest)]; [model[i].n] throws when the model
    has no dimension [i]. *)
Definition nextElement (element globalBest : ref) (psw : t) : option (ref * t) :=
  try vp <- nextVelocity element globalBest psw;
  let (nextVelocity, psw) := vp in
  let mh := base psw in
  let values := Element.values (Metaheuristic.heap mh element) in
  try nextValues <-
    sequence
      (map (fun iv =>
              try n <- nth_error (model P) (fst iv);
              Some (clamp (JS.add (snd iv) (JS.item nextVelocity (fst iv)))
                          JS.zero (JS.sub (JS.of_Z n) (JS.Fin 1))))
           (indexed values));
  let result := Metaheuristic.fresh mh in
  let h := upd (Metaheuristic.heap mh) result (Element.make nextValues) in
  let h := modify h result
             (Element.set_evaluation (evaluation_of P nextValues)) in
  let h := modify h result (Element.set_velocity nextVelocity) in
  try localBest <- Element.__localBest__ (h element);
  let h := modify h result
             (Element.set_localBest
                (if isBetterThan P (h result) (h localBest)
                 then result else localBest)) in
  Some (result,
        with_base (Metaheuristic.with_fresh (S result)
                     (Metaheuristic.with_heap h mh)) psw).

(** What [initiate] does to one element of the new state: the velocity is
    drawn, one number between -1 and 1 for each dimension of the model,
    scaled by the cardinality of the dimension, and the element is its own
    best position. *)
Definition initiate_element (mh : Metaheuristic.t) (element : ref)
  : Metaheuristic.t :=
  let (vs, mh) := randoms (length (model P)) (JS.Fin (-1)) (JS.Fin 1) mh in
  let velocity :=
    map (fun vi => JS.mul (snd vi) (JS.of_Z (nth (fst vi) (model P) 0%Z)))
        (indexed vs) in
  let h := modify (Metaheuristic.heap mh) element
                  (Element.set_velocity velocity) in
  let h := modify h element (Element.set_localBest element) in
  Metaheuristic.with_heap h mh.

(** [initiate(size)]: the [initiate] of Metaheuristic, then the loop over
    the new state, then [onInitiate()] once more. *)
Definition initiate (size : option Z) (psw : t) : option t :=
  try mh <- Metaheuristic.initiate P size (base psw);
  let mh := fold_left initiate_element (Metaheuristic.state mh) mh in
  Some (with_base (Metaheuristic.onInitiate mh) psw).

(** [update()].  [Future.all] joins the elements in the order of the state;
    the comparison of the global best with [elements[0]] needs both. *)
Definition update (psw : t) : option t :=
  let state := Metaheuristic.state (base psw) in
  let globalBest := __globalBest__ psw in
  let globalBest :=
    match globalBest with Some g => Some g | None => nth_error state 0 end in
  let psw := with_globalBest globalBest psw in
  try ep <- match globalBest with
            | Some g => map_elements (fun element => nextElement element g)
                                     state psw
            | None => Some ([], psw)
            end;
  let (elements, psw) := ep in
  try hs <- Metaheuristic.sort P elements (Metaheuristic.heap (base psw));
  let (h, elements) := hs in
  let psw := with_base (Metaheuristic.with_state elements
                          (Metaheuristic.with_heap h (base psw))) psw in
  try previous <- __globalBest__ psw;
  try best <- nth_error elements 0;
  let psw :=
    if JS.ltb (compare P (h previous) (h best)) JS.zero
    then with_globalBest (Some best) psw
    else psw in
  Some (with_base (Metaheuristic.onUpdate (base psw)) psw).

End Swarm.

End ParticleSwarm.

(* ================================================================== *)
(** * Concrete problems and engines                                     *)
(* ================================================================== *)

Module Examples.

Definition q (n : Z) : JS.num := JS.of_Z n.

(** The first evaluation of an element, as a number. *)
Definition score (e : Element.t) : JS.num :=
  match Element.evaluation e with
  | Some ev => JS.item ev 0
  | None => JS.NaN
  end.

Definition real_part (a : JS.num) : JS.num :=
  match a with
  | JS.Fin x => JS.Fin x
  | _ => JS.zero
  end.

(** A single-objective problem in two dimensions: the element created with
    identity [r] starts at [(r, 2r)], its evaluation is its first value, and
    smaller evaluations are better. *)
Definition minimize : Problem :=
  {| objectives := 1;
     model := [10; 20]%Z;
     initial := fun r => [JS.of_nat r; JS.of_nat (2 * r)];
     evaluation_of := fun vs => [real_part (JS.item vs 0)];
     compare := fun e1 e2 => JS.sub (score e2) (score e1);
     domination := fun e1 e2 => JS.sub (score e2) (score e1);
     isBetterThan := fun e1 e2 => JS.ltb (score e1) (score e2);
     sufficientElements := fun _ => false |}.

(** A store of unevaluated elements: the object [r] has the values
    [positions r]. *)
Definition store (positions : ref -> list JS.num) : Heap :=
  fun r => Element.make (positions r).

(** An unstarted engine with a logger and statistics. *)
Definition engine (h : Heap) (size steps : Z) (state : list ref)
  : Metaheuristic.t :=
  {| Metaheuristic.heap := h;
     Metaheuristic.fresh := 100;
     Metaheuristic.size := size;
     Metaheuristic.state := state;
     Metaheuristic.steps := steps;
     Metaheuristic.step := (-1)%Z;
     Metaheuristic.expansionRate := None;
     Metaheuristic.random := fun k => (Z.of_nat (k mod 4) # 4)%Q;
     Metaheuristic.statistics := Some [];
     Metaheuristic.logger := Some [];
     Metaheuristic.events := [] |}.

(** An unstarted engine of size 5 with a limit of 3 steps. *)
Definition unstarted : Metaheuristic.t :=
  engine (store (fun _ => [])) 5 3 [].

Definition five : Metaheuristic.t :=
  engine (store (initial minimize)) 100 3 [0; 1; 2; 3; 4].

(** Positions with an exact duplicate (objects 0 and 1) and a near one. *)
Definition crowded : Metaheuristic.t :=
  engine (store (fun r => match r with
                          | 0 => [q 1; q 2]
                          | 1 => [q 1; q 2]
                          | 2 => [q 1; JS.Fin (5 # 2)]
                          | _ => [q 3]
                          end))
         100 3 [0; 1; 2; 3].

(** Minimisation of two objectives. *)
Fixpoint all_leb (v1 v2 : list JS.num) : bool :=
  match v1, v2 with
  | a :: v1', b :: v2' => JS.leb a b && all_leb v1' v2'
  | _, _ => true
  end.

Fixpoint some_ltb (v1 v2 : list JS.num) : bool :=
  match v1, v2 with
  | a :: v1', b :: v2' => JS.ltb a b || some_ltb v1' v2'
  | _, _ => false
  end.

Definition scores (e : Element.t) : list JS.num :=
  match Element.evaluation e with Some ev => ev | None => [] end.

(** 1 when [e1] dominates [e2], -1 when [e2] dominates [e1], else 0. *)
Definition pareto_domination (e1 e2 : Element.t) : JS.num :=
  if all_leb (scores e1) (scores e2) && some_ltb (scores e1) (scores e2)
  then q 1
  else if all_leb (scores e2) (scores e1) && some_ltb (scores e2) (scores e1)
       then q (-1)
       else q 0.

(** A problem with two objectives, both to be minimised: the evaluation
    of an element is its position. *)
Definition biobjective : Problem :=
  {| objectives := 2;
     model := [10; 20]%Z;
     initial := fun r => [JS.of_nat r; JS.of_nat (7 - r)];
     evaluation_of := fun vs => vs;
     compare := pareto_domination;
     domination := pareto_domination;
     isBetterThan := fun e1 e2 => JS.gtb (pareto_domination e1 e2) JS.zero;
     sufficientElements := fun _ => false |}.

(** A store of evaluated elements: the object [r] has the evaluation
    [evaluations r]. *)
Definition scored (evaluations : ref -> list JS.num) : Heap :=
  fun r => Element.set_evaluation (evaluations r) (Element.make (evaluations r)).

(** Four points: 0 dominates 1 and 3, 2 is dominated by nothing. *)
Definition four_points : Heap :=
  scored (fun r => match r with
                   | 0 => [q 1; q 4]
                   | 1 => [q 2; q 5]
                   | 2 => [q 3; q 1]
                   | _ => [q 4; q 4]
                   end).

(** A problem without objectives. *)
Definition no_objective : Problem :=
  {| objectives := 0;
     model := [];
     initial := fun _ => [];
     evaluation_of := fun _ => [];
     compare := fun _ _ => JS.zero;
     domination := fun _ _ => JS.zero;
     isBetterThan := fun _ _ => false;
     sufficientElements := fun _ => false |}.

(** Five points on a front: none dominates another. *)
Definition five_points : Heap :=
  scored (fun r => match r with
                   | 0 => [q 1; q 9]
                   | 1 => [q 2; q 4]
                   | 2 => [q 4; q 3]
                   | 3 => [q 7; q 2]
                   | _ => [q 8; q 0]
                   end).

(** Elements that all have the evaluation (1, 1). *)
Definition one_point : Heap := scored (fun _ => [q 1; q 1]).

(** A swarm of two particles, the objects 0 and 1, in the two
    dimensions of [minimize]; the object 2 is the best position of the
    run so far. *)
Definition particles : Heap :=
  fun r =>
    match r with
    | 0 => Element.set_localBest 2
             (Element.set_velocity [q 1; q (-2)]
                (Element.set_evaluation [q 3] (Element.make [q 3; q 5])))
    | 1 => Element.set_localBest 1
             (Element.set_velocity [q (-30); q 40]
                (Element.set_evaluation [q 6] (Element.make [q 6; q 6])))
    | _ => Element.set_localBest 2
             (Element.set_velocity [q 0; q 0]
                (Element.set_evaluation [q 2] (Element.make [q 2; q 4])))
    end.

Definition swarm : ParticleSwarm.t :=
  {| ParticleSwarm.base :=
       Metaheuristic.with_random
         (fun k => (Z.of_nat (1 + k mod 3) # 4)%Q)
         (Metaheuristic.with_step 0%Z (engine particles 2 3 [0; 1]));
     ParticleSwarm.inertia := q 1;
     ParticleSwarm.localAcceleration := JS.Fin (1 # 2);
     ParticleSwarm.globalAcceleration := JS.Fin (3 # 10);
     ParticleSwarm.__globalBest__ := Some 2 |}.

End Examples.

(* ================================================================== *)
(** * Properties of vectors, elements and states                        *)
(* ================================================================== *)

Module Props.

(** [v1] and [v2] have the same dimension and differ by at most [p] in each
    of them. *)
Definition within (p : JS.num) (v1 v2 : list JS.num) : Prop :=
  length v1 = length v2
  /\ forall i, (i < length v1)%nat ->
       JS.leb (JS.abs (JS.sub (JS.item v1 i) (JS.item v2 i))) p = true.

(** [v1] and [v2] hold the same numbers. *)
Definition same_values (v1 v2 : list JS.num) : Prop := Forall2 JS.same v1 v2.

(** No item of [v] is NaN. *)
Definition no_NaN (v : list JS.num) : Prop :=
  Forall (fun a => JS.is_nan a = false) v.

End Props.

Module Pareto.

(** [element.pareto.dominators] and [element.pareto.dominated], empty for
    an element without the annotation. *)
Definition dominators_of (h : Heap) (r : ref) : list ref :=
  match Element.pareto (h r) with
  | Some p => Element.dominators p
  | None => []
  end.

Definition dominated_of (h : Heap) (r : ref) : list ref :=
  match Element.pareto (h r) with
  | Some p => Element.dominated p
  | None => []
  end.

Definition annotated (h : Heap) (r : ref) : Prop :=
  Element.pareto (h r) <> None.

(** The two elements agree on everything but the Pareto annotation. *)
Definition same_but_pareto (e e' : Element.t) : Prop :=
  Element.__values__ e' = Element.__values__ e
  /\ Element.evaluation e' = Element.evaluation e
  /\ Element.crowdingDistance e' = Element.crowdingDistance e
  /\ Element.__velocity__ e' = Element.__velocity__ e
  /\ Element.__localBest__ e' = Element.__localBest__ e.

(** [h'] is [h] with the dominations [added] recorded in both lists; a pair
    [(a, b)] stands for "[b] dominates [a]". *)
Definition records (h h' : Heap) (added : list (ref * ref)) : Prop :=
  (forall a b, In b (dominators_of h' a)
               <-> In b (dominators_of h a) \/ In (a, b) added)
  /\ (forall a b, In a (dominated_of h' b)
                  <-> In a (dominated_of h b) \/ In (a, b) added)
  /\ (forall r, annotated h r -> annotated h' r)
  /\ (forall r, same_but_pareto (h r) (h' r)).

(** [winner] dominates [loser] in the comparison of the problem. *)
Definition dominates (P : Problem) (h : Heap) (winner loser : ref) : Prop :=
  JS.gtb (domination P (h winner) (h loser)) JS.zero = true.

(** The comparison of the problem does not read the Pareto annotation of
    the elements, and it is positive one way exactly when it is negative the
    other way. *)
Definition consistent (P : Problem) : Prop :=
  (forall e1 e1' e2 e2',
      same_but_pareto e1 e1' -> same_but_pareto e2 e2' ->
      domination P e1' e2' = domination P e1 e2)
  /\ (forall e1 e2,
        JS.gtb (domination P e1 e2) JS.zero = true
        <-> JS.ltb (domination P e2 e1) JS.zero = true).

(** Every pair of [added] is between [elem1] and an element of [rest]. *)
Definition between (elem1 : ref) (rest : list ref) (added : list (ref * ref))
  : Prop :=
  forall a b, In (a, b) added ->
    (a = elem1 /\ In b rest) \/ (b = elem1 /\ In a rest).

(** Every pair of [added] is between two elements at different positions of
    [elements], and no pair comes with its converse. *)
Definition one_way (elements : list ref) (added : list (ref * ref)) : Prop :=
  forall a b, In (a, b) added ->
    In a elements /\ In b elements /\ a <> b /\ ~ In (b, a) added.

End Pareto.

Module Crowding.

(** The element has an evaluation of [count] real numbers. *)
Definition evaluated (count : nat) (h : Heap) (r : ref) : Prop :=
  exists ev, Element.evaluation (h r) = Some ev
             /\ length ev = count
             /\ Forall JS.is_real ev.

(** The two elements agree on everything but the crowding distance. *)
Definition same_but_distance (e e' : Element.t) : Prop :=
  Element.__values__ e' = Element.__values__ e
  /\ Element.evaluation e' = Element.evaluation e
  /\ Element.pareto e' = Element.pareto e
  /\ Element.__velocity__ e' = Element.__velocity__ e
  /\ Element.__localBest__ e' = Element.__localBest__ e.

(** A real number or +infinity. *)
Definition real_or_infinite (d : JS.num) : Prop :=
  match d with
  | JS.Fin _ | JS.PInf => True
  | _ => False
  end.

(** The ranking of objective [i]: the private copy of the array after it
    has been sorted for the objectives 0 to [i], in turn. *)
Definition ranking (h : Heap) (elements : list ref) (i : nat) : list ref :=
  fold_left (fun es k => JS.sort (Metaheuristic.by_objective h k) es)
            (seq 0 (S i)) elements.

(** [r] is the first or the last item of [es]. *)
Definition extreme (es : list ref) (r : ref) : Prop :=
  nth_error es 0 = Some r \/ nth_error es (length es - 1) = Some r.

(** [r] is an item of [es] with an item before it and an item after it. *)
Definition interior (es : list ref) (r : ref) : Prop :=
  exists j, (0 < j < length es - 1)%nat /\ nth_error es j = Some r.

(** The position of [r] in [es]. *)
Fixpoint index_of (r : ref) (es : list ref) : nat :=
  match es with
  | [] => O
  | x :: es' => if Nat.eqb r x then O else S (index_of r es')
  end.

Definition first_or_last (es : list ref) (r : ref) : bool :=
  Nat.eqb (index_of r es) 0 || Nat.eqb (index_of r es) (length es - 1).

(** [next.evaluation[i] - previous.evaluation[i]] for the neighbours of [r]
    in [es]. *)
Definition gap (h : Heap) (es : list ref) (i : nat) (r : ref) : JS.num :=
  let j := index_of r es in
  JS.sub (JS.item (Metaheuristic.evaluation_at h (nth (j + 1) es O)) i)
         (JS.item (Metaheuristic.evaluation_at h (nth (j - 1) es O)) i).

(** The distance of [r] as the description of the operation gives it, after
    the first [count] objectives: it starts at 0; for each objective the
    two extreme elements of the ranking get +infinity, and an interior
    element has the difference of its neighbours added. *)
Fixpoint described (h : Heap) (elements : list ref) (count : nat) (r : ref)
  : JS.num :=
  match count with
  | O => JS.zero
  | S i =>
      let es := ranking h elements i in
      if first_or_last es r then JS.PInf
      else JS.add (described h elements i r) (gap h es i r)
  end.

(** The sum, over the objectives, of the differences of the neighbours. *)
Definition neighbour_sum (h : Heap) (elements : list ref) (count : nat)
  (r : ref) : JS.num :=
  fold_left (fun acc i => JS.add acc (gap h (ranking h elements i) i r))
            (seq 0 count) JS.zero.

(** [evaluation[i]] of two elements, compared. *)
Definition below (h : Heap) (i : nat) (r1 r2 : ref) : Prop :=
  JS.leb (JS.item (Metaheuristic.evaluation_at h r1) i)
         (JS.item (Metaheuristic.evaluation_at h r2) i) = true.

End Crowding.

Module Ranking.

(** The order of [nonDominatedSort]: fewer dominators first, and among
    elements with as many dominators the larger crowding distance first. *)
Definition ranked_before (h : Heap) (a b : ref) : Prop :=
  (Metaheuristic.dominators_count h a < Metaheuristic.dominators_count h b)%nat
  \/ (Metaheuristic.dominators_count h a = Metaheuristic.dominators_count h b
      /\ JS.leb (Metaheuristic.distance_at h b) (Metaheuristic.distance_at h a)
         = true).

End Ranking.

Module Run.

(** The number of [advance()] cycles completed so far: each one ends by
    emitting the event "advanced". *)
Definition advances (mh : Metaheuristic.t) : nat :=
  count_occ string_dec (Metaheuristic.events mh) "advanced"%string.

(** The step an [advance()] started at [step] ends at. *)
Definition next_step (step : Z) : Z :=
  if (step <? 0)%Z then 0%Z else (step + 1)%Z.

(** [mh'] has the configuration, the step and the number of completed
    cycles of [mh]. *)
Definition kept (mh mh' : Metaheuristic.t) : Prop :=
  Metaheuristic.size mh' = Metaheuristic.size mh
  /\ Metaheuristic.steps mh' = Metaheuristic.steps mh
  /\ Metaheuristic.step mh' = Metaheuristic.step mh
  /\ Metaheuristic.expansionRate mh' = Metaheuristic.expansionRate mh
  /\ advances mh' = advances mh.

(** The problem evaluates every element to one real number per objective,
    and has an objective. *)
Definition well_formed (P : Problem) : Prop :=
  (1 <= objectives P)%nat
  /\ forall vs, length (evaluation_of P vs) = objectives P
                /\ Forall JS.is_real (evaluation_of P vs).

(** The number of elements [expansion()] generates. *)
Definition expansion_size (mh : Metaheuristic.t) : Z :=
  Qfloor (match Metaheuristic.expansionRate mh with
          | None => 1%Q
          | Some r => r
          end * inject_Z (Metaheuristic.size mh))%Q.

(** The engine can advance: it has room for an element, its expansions
    have a size, and once started its state is not empty. *)
Definition ready (mh : Metaheuristic.t) : Prop :=
  (1 <= Metaheuristic.size mh)%Z
  /\ (0 <= expansion_size mh)%Z
  /\ ((0 <= Metaheuristic.step mh)%Z -> Metaheuristic.state mh <> []).

(** Every element of the state has an evaluation with one number per
    objective and, unless there is exactly one objective, a Pareto
    annotation: what [analyze()] reads. *)
Definition analyzable (P : Problem) (mh : Metaheuristic.t) : Prop :=
  forall r, In r (Metaheuristic.state mh) ->
    (exists ev, Element.evaluation (Metaheuristic.heap mh r) = Some ev
                /\ length ev = objectives P)
    /\ (objectives P <> 1%nat -> Pareto.annotated (Metaheuristic.heap mh) r).

End Run.

Module Swarm.

(** The element [r] is a particle: it has a velocity and a personal best,
    and the model has a dimension for each of its values. *)
Definition particle (P : Problem) (h : Heap) (r : ref) : Prop :=
  (exists v, Element.__velocity__ (h r) = Some v)
  /\ (exists lb, Element.__localBest__ (h r) = Some lb)
  /\ (length (Element.__values__ (h r)) <= length (model P))%nat.

(** [x] is in the range from 0 to [n - 1]. *)
Definition in_range (n : Z) (x : JS.num) : Prop :=
  JS.leb JS.zero x = true /\ JS.leb x (JS.of_Z (n - 1)) = true.

(** [c] is a real number in the range from 0 (included) to [limit]
    (excluded). *)
Definition below_limit (limit c : JS.num) : Prop :=
  match limit, c with
  | JS.Fin a, JS.Fin x => (0 <= x < a)%Q
  | _, _ => False
  end.

End Swarm.

Module Order.


(** The record [analyze] adds for an element of a single-objective state. *)
Definition evaluation_record (step : Z) (h : Heap) (r : ref)
  : Metaheuristic.Stat :=
  {| Metaheuristic.key := "evaluation";
     Metaheuristic.index := None;
     Metaheuristic.at_step := step;
     Metaheuristic.value := JS.item (Metaheuristic.evaluation_at h r) 0 |}.

End Order.

Module Frame.

(** The two elements agree on everything but the annotations of the
    multi-objective ranking, [pareto] and [crowdingDistance]. *)
Definition same_but_ranking (e e' : Element.t) : Prop :=
  Element.__values__ e' = Element.__values__ e
  /\ Element.evaluation e' = Element.evaluation e
  /\ Element.__velocity__ e' = Element.__velocity__ e
  /\ Element.__localBest__ e' = Element.__localBest__ e.

(** The events emitted between the engine [mh] and the engine [mh']. *)
Definition emitted (mh mh' : Metaheuristic.t) (evs : list string) : Prop :=
  Metaheuristic.events mh' = (Metaheuristic.events mh ++ evs)%list.

End Frame.

Module Cycle.

(** The events of an [advance()] cycle that does not analyze, in the order
    they are emitted: those of the first cycle of an unstarted engine, and
    those of a cycle of a started one. *)
Definition first_cycle : list string :=
  ["initiated"; "evaluated"]%string.

Definition later_cycle : list string :=
  ["expanded"; "evaluated"; "sieved"; "updated"]%string.

(** "analyzed" is emitted by an engine that keeps statistics. *)
Definition analyzed (mh : Metaheuristic.t) : list string :=
  match Metaheuristic.statistics mh with
  | Some _ => ["analyzed"%string]
  | None => []
  end.

(** The records of the statistics, none for an engine that keeps no
    statistics. *)
Definition records (mh : Metaheuristic.t) : list Metaheuristic.Stat :=
  match Metaheuristic.statistics mh with
  | Some stats => stats
  | None => []
  end.

End Cycle.

Module Cases.

(** The single-objective problem of the examples, for which every state
    is good enough. *)
Definition satisfied : Problem :=
  {| objectives := objectives Examples.minimize;
     model := model Examples.minimize;
     initial := initial Examples.minimize;
     evaluation_of := evaluation_of Examples.minimize;
     compare := compare Examples.minimize;
     domination := domination Examples.minimize;
     isBetterThan := isBetterThan Examples.minimize;
     sufficientElements := fun _ => true |}.

(** An engine of size 2 that has completed its first cycle: the elements
    0 and 1 are evaluated, and the step is 0 of 3. *)
Definition started : Metaheuristic.t :=
  Metaheuristic.with_step 0%Z
    (Examples.engine (Examples.scored (fun r => [JS.of_nat r])) 2 3 [0; 1]).

(** An unstarted engine without room for an element. *)
Definition roomless : Metaheuristic.t :=
  Examples.engine (Examples.store (fun _ => [])) 0 3 [].

End Cases.

Module NubCases.

(** A state whose first element has two decision values that are NaN; the
    objects 1 and 2 have two values as well, the object 3 has one. *)
Definition undefined_first : Metaheuristic.t :=
  Examples.engine
    (Examples.store (fun r => match r with
                              | 0 => [JS.NaN; JS.NaN]
                              | 1 => [Examples.q 1; Examples.q 2]
                              | 2 => [Examples.q 5; Examples.q 7]
                              | _ => [Examples.q 3]
                              end))
    100 3 [0; 1; 2; 3].

End NubCases.

Module Density.

(** A real number that is not negative, or +infinity. *)
Definition non_negative (d : JS.num) : Prop :=
  match d with
  | JS.Fin q => (0 <= q)%Q
  | JS.PInf => True
  | _ => False
  end.

End Density.

Module Launch.

(** A draw [u] of the generator brought between [lo] and [hi]. *)
Definition drawn (lo hi : JS.num) (u : Q) : JS.num :=
  JS.add (JS.mul (JS.sub (JS.Fin 1) (JS.Fin u)) lo) (JS.mul (JS.Fin u) hi).

(** The velocity [initiate] gives to an element when the generator is about
    to draw [g 0], [g 1], ... *)
Definition velocity (P : Problem) (g : nat -> Q) : list JS.num :=
  map (fun vi => JS.mul (snd vi) (JS.of_Z (nth (fst vi) (model P) 0%Z)))
      (ParticleSwarm.indexed
         (map (fun k => drawn (JS.Fin (-1)) (JS.Fin 1) (g k))
              (seq 0 (length (model P))))).

(** The candidate [nextElement] compares with the personal best: the new
    element before it is given a personal best of its own. *)
Definition candidate (P : Problem) (position velocity : list JS.num)
  : Element.t :=
  Element.set_velocity velocity
    (Element.set_evaluation (evaluation_of P position)
       (Element.make position)).

End Launch.

Module Elite.



End Elite.

(* ================================================================== *)
(** * What the accessors see after the event handlers                   *)
(* ================================================================== *)

Section Accessors.

Import Metaheuristic.

Variables (level message event : string) (mh : Metaheuristic.t).

Lemma log_heap : heap (__log__ level message mh) = heap mh.
Proof. unfold __log__; destruct (logger mh); reflexivity. Qed.

Lemma log_fresh : fresh (__log__ level message mh) = fresh mh.
Proof. unfold __log__; destruct (logger mh); reflexivity. Qed.

Lemma log_size : size (__log__ level message mh) = size mh.
Proof. unfold __log__; destruct (logger mh); reflexivity. Qed.

Lemma log_state : state (__log__ level message mh) = state mh.
Proof. unfold __log__; destruct (logger mh); reflexivity. Qed.

Lemma log_steps : steps (__log__ level message mh) = steps mh.
Proof. unfold __log__; destruct (logger mh); reflexivity. Qed.

Lemma log_step : step (__log__ level message mh) = step mh.
Proof. unfold __log__; destruct (logger mh); reflexivity. Qed.

Lemma log_expansionRate :
  expansionRate (__log__ level message mh) = expansionRate mh.
Proof. unfold __log__; destruct (logger mh); reflexivity. Qed.

Lemma log_random : random (__log__ level message mh) = random mh.
Proof. unfold __log__; destruct (logger mh); reflexivity. Qed.

Lemma log_statistics : statistics (__log__ level message mh) = statistics mh.
Proof. unfold __log__; destruct (logger mh); reflexivity. Qed.

Lemma log_events : events (__log__ level message mh) = events mh.
Proof. unfold __log__; destruct (logger mh); reflexivity. Qed.

Lemma log_logger :
  logger (__log__ level message mh)
  = option_map (fun entries => entries ++ [(level, message)]) (logger mh).
Proof.
  unfold __log__; destruct (logger mh) eqn:E; cbn; [reflexivity | exact E].
Qed.

End Accessors.

Create Rewrite HintDb engine.
#[global] Hint Rewrite log_heap log_fresh log_size log_state log_steps log_step
  log_expansionRate log_random log_statistics log_events log_logger : engine.

(** Unfolds the event handlers and simplifies the accessors. *)
Ltac handlers :=
  unfold Metaheuristic.onInitiate, Metaheuristic.onUpdate,
    Metaheuristic.onExpand, Metaheuristic.onEvaluate, Metaheuristic.onSieve,
    Metaheuristic.onAdvance, Metaheuristic.onAnalyze, Metaheuristic.onFinish in *;
  repeat progress (autorewrite with engine in *; cbn [Metaheuristic.emit Metaheuristic.heap
    Metaheuristic.fresh Metaheuristic.size Metaheuristic.state
    Metaheuristic.steps Metaheuristic.step Metaheuristic.expansionRate
    Metaheuristic.random Metaheuristic.statistics Metaheuristic.events
    Metaheuristic.logger
    Metaheuristic.with_events Metaheuristic.with_state Metaheuristic.with_heap
    Metaheuristic.with_fresh Metaheuristic.with_step
    Metaheuristic.with_statistics Metaheuristic.with_random
    Metaheuristic.with_logger] in * ).

(* ================================================================== *)
(** * sieve                                                             *)
(* ================================================================== *)

Section Sieve.

Import Metaheuristic.

(** What [sieve] leaves in the state: the test is on the requested size,
    the cut on the configured one. *)
Lemma sieve_state (requested : option Z) (mh : t) :
  state (sieve requested mh)
  = if (Z.of_nat (length (state mh))
          >? match requested with None => size mh | Some s => s end)%Z
    then JS.slice0 (state mh) (size mh)
    else state mh.
Proof.
  unfold sieve. handlers.
  destruct (Z.of_nat (length (state mh)) >? _)%Z; reflexivity.
Qed.

Lemma slice0_prefix (A : Type) (xs : list A) (e : Z) :
  exists dropped, xs = JS.slice0 xs e ++ dropped.
Proof.
  unfold JS.slice0. eexists. symmetry. apply firstn_skipn.
Qed.

(** The state after [sieve] is a prefix of the state before it. *)
Lemma sieve_prefix (requested : option Z) (mh : t) :
  exists dropped, state mh = state (sieve requested mh) ++ dropped.
Proof.
  rewrite sieve_state.
  destruct (_ >? _)%Z.
  - apply slice0_prefix.
  - exists []. now rewrite app_nil_r.
Qed.

Lemma sieve_no_longer (requested : option Z) (mh : t) :
  (length (state (sieve requested mh)) <= length (state mh))%nat.
Proof.
  destruct (sieve_prefix requested mh) as [dropped E].
  apply (f_equal (@length ref)) in E. rewrite length_app in E. lia.
Qed.

(** Without an argument, [sieve] cuts the state to the first [size]
    elements. *)
Lemma sieve_default (mh : t) :
  (0 <= size mh)%Z ->
  state (sieve None mh) = firstn (Z.to_nat (size mh)) (state mh).
Proof.
  intros Hsize. rewrite sieve_state. unfold JS.slice0.
  destruct (Z.gtb_spec (Z.of_nat (length (state mh))) (size mh)) as [Hgt | Hle].
  - destruct (Z.ltb_spec (size mh) 0); [lia |].
    now rewrite Z.min_l by lia.
  - symmetry. apply firstn_all2. lia.
Qed.

(** C2, at inputs where the code departs from it.  [sieve(3)] on a state of
    five elements of an engine of size 100 keeps all five, where the first
    three are called for; [sieve(4)] on the same state of an engine of size 2
    keeps two, where the first four are called for. *)
Theorem sieve_cuts_to_configured_size :
  state (sieve (Some 3%Z) Examples.five) = [0; 1; 2; 3; 4]
  /\ state (sieve (Some 4%Z)
              (Examples.engine (Examples.store (initial Examples.minimize))
                               2 3 [0; 1; 2; 3; 4]))
     = [0; 1].
Proof. split; reflexivity. Qed.

End Sieve.

(* ================================================================== *)
(** * expand                                                            *)
(* ================================================================== *)

Section Expand.

Import Metaheuristic.

Variable P : Problem.

Lemma expansion_keeps (size : option Z) (mh mh1 : t) (l : list ref) :
  expansion P size mh = Some (mh1, l) ->
  state mh1 = state mh /\ logger mh1 = logger mh /\ events mh1 = events mh.
Proof.
  unfold expansion. destruct (new_Array _); [| discriminate].
  destruct (create _ _ _ _). intros [= <- _]. now cbn.
Qed.

(** [expand] once the expansion is known to be empty; [mh1] is the engine
    after the expansion was obtained. *)
Lemma expand_empty (supplied : option (list ref)) (mh mh1 : t) :
  match supplied with
  | Some l => Some (mh, l)
  | None => expansion P None mh
  end = Some (mh1, []) ->
  exists mh',
    expand P supplied mh = Some mh'
    /\ state mh' = state mh1
    /\ events mh' = events mh1 ++ ["expanded"%string]
    /\ logger mh'
       = option_map
           (fun entries =>
              entries ++ [("warn", "Expansion is empty");
                          ("debug", "State has been expanded. Nos exploramus.")]%string)
           (logger mh1).
Proof.
  intros E. unfold expand. rewrite E. cbn [length Nat.ltb Nat.leb].
  eexists. split; [reflexivity |]. handlers.
  repeat split. destruct (logger mh1); cbn; [| reflexivity].
  now rewrite <- app_assoc.
Qed.

Lemma expand_nonempty (supplied : option (list ref)) (mh mh1 : t)
  (l : list ref) :
  match supplied with
  | Some l => Some (mh, l)
  | None => expansion P None mh
  end = Some (mh1, l) ->
  l <> [] ->
  exists mh',
    expand P supplied mh = Some mh'
    /\ state mh' = state mh1 ++ l
    /\ logger mh'
       = option_map
           (fun entries =>
              entries ++ [("debug", "State has been expanded. Nos exploramus.")]%string)
           (logger mh1).
Proof.
  intros E Hne. unfold expand. rewrite E.
  destruct l as [| x l]; [congruence |]. cbn [length Nat.ltb Nat.leb].
  eexists. split; [reflexivity |]. handlers. now split.
Qed.

(** C9.  An empty expansion, supplied by the caller or generated by
    [expansion()], leaves the state as it was and adds the warning
    "Expansion is empty" to the log of the attached logger, followed by the
    entry of the "expanded" event; a non-empty expansion, supplied or
    generated, is appended after the elements of the state, and no warning
    is logged. *)
Theorem expand_empty_warns_nonempty_appends (mh : t) :
  (exists mh',
      expand P (Some []) mh = Some mh'
      /\ state mh' = state mh
      /\ length (state mh') = length (state mh)
      /\ forall entries, logger mh = Some entries ->
           logger mh'
           = Some (entries ++ [("warn", "Expansion is empty");
                               ("debug", "State has been expanded. Nos exploramus.")]%string))
  /\ (forall mh1, expansion P None mh = Some (mh1, []) ->
      exists mh',
        expand P None mh = Some mh'
        /\ state mh' = state mh
        /\ length (state mh') = length (state mh)
        /\ forall entries, logger mh = Some entries ->
             logger mh'
             = Some (entries ++ [("warn", "Expansion is empty");
                                 ("debug", "State has been expanded. Nos exploramus.")]%string))
  /\ (forall l, l <> [] ->
      exists mh',
        expand P (Some l) mh = Some mh'
        /\ state mh' = state mh ++ l
        /\ forall entries, logger mh = Some entries ->
             logger mh'
             = Some (entries ++ [("debug", "State has been expanded. Nos exploramus.")]%string))
  /\ (forall mh1 l, expansion P None mh = Some (mh1, l) -> l <> [] ->
      exists mh',
        expand P None mh = Some mh'
        /\ state mh' = state mh ++ l
        /\ forall entries, logger mh = Some entries ->
             logger mh'
             = Some (entries ++ [("debug", "State has been expanded. Nos exploramus.")]%string)).
Proof.
  repeat split.
  - destruct (@expand_empty (Some []) mh mh eq_refl) as (mh' & E & Hs & _ & Hl).
    exists mh'. repeat split; [exact E | exact Hs | now rewrite Hs |].
    intros entries El. now rewrite Hl, El.
  - intros mh1 Hgen.
    destruct (@expand_empty None mh mh1 Hgen) as (mh' & E & Hs & _ & Hl).
    destruct (expansion_keeps _ _ Hgen) as (Es & El & _).
    exists mh'. repeat split; [exact E | congruence | congruence |].
    intros entries E'. now rewrite Hl, El, E'.
  - intros l Hne.
    destruct (@expand_nonempty (Some l) mh mh l eq_refl Hne) as (mh' & E & Hs & Hl).
    exists mh'. repeat split; [exact E | exact Hs |].
    intros entries El. now rewrite Hl, El.
  - intros mh1 l Hgen Hne.
    destruct (@expand_nonempty None mh mh1 l Hgen Hne) as (mh' & E & Hs & Hl).
    destruct (expansion_keeps _ _ Hgen) as (Es & El & _).
    exists mh'. repeat split; [exact E | congruence |].
    intros entries E'. now rewrite Hl, El, E'.
Qed.

End Expand.

Section ExpandWitness.

Import Metaheuristic.

(** The theorem at engines with a logger: an empty array and a non-empty
    one supplied to the engine [five], and the expansions generated by
    engines of size 0 and of size 2. *)
Lemma expand_empty_warns_nonempty_appends_witness :
  let store := Examples.store (initial Examples.minimize) in
  (exists mh',
      expand Examples.minimize (Some []) Examples.five = Some mh'
      /\ state mh' = [0; 1; 2; 3; 4]
      /\ logger mh'
         = Some [("warn", "Expansion is empty");
                 ("debug", "State has been expanded. Nos exploramus.")]%string)
  /\ (exists mh',
        expand Examples.minimize None (Examples.engine store 0 3 [0; 1]) = Some mh'
        /\ state mh' = [0; 1]
        /\ logger mh'
           = Some [("warn", "Expansion is empty");
                   ("debug", "State has been expanded. Nos exploramus.")]%string)
  /\ (exists mh',
        expand Examples.minimize (Some [7; 8]) Examples.five = Some mh'
        /\ state mh' = [0; 1; 2; 3; 4; 7; 8])
  /\ (exists mh',
        expand Examples.minimize None (Examples.engine store 2 3 [0; 1]) = Some mh'
        /\ state mh' = [0; 1; 100; 101]).
Proof.
  intros store. repeat split.
  - destruct (expand_empty_warns_nonempty_appends Examples.minimize Examples.five)
      as ((mh' & E & Hs & _ & Hl) & _).
    exists mh'. repeat split; [exact E | exact Hs | exact (Hl [] eq_refl)].
  - destruct (expand_empty_warns_nonempty_appends Examples.minimize
                (Examples.engine store 0 3 [0; 1])) as (_ & H & _).
    destruct (H _ eq_refl) as (mh' & E & Hs & _ & Hl).
    exists mh'. repeat split; [exact E | exact Hs | exact (Hl [] eq_refl)].
  - destruct (expand_empty_warns_nonempty_appends Examples.minimize Examples.five)
      as (_ & _ & H & _).
    destruct (H [7; 8]) as (mh' & E & Hs & _); [discriminate |].
    exists mh'. split; [exact E | exact Hs].
  - destruct (expand_empty_warns_nonempty_appends Examples.minimize
                (Examples.engine store 2 3 [0; 1])) as (_ & _ & _ & H).
    destruct (H _ [100; 101] eq_refl) as (mh' & E & Hs & _); [discriminate |].
    exists mh'. split; [exact E | exact Hs].
Defined.

End ExpandWitness.

(* ================================================================== *)
(** * nub                                                               *)
(* ================================================================== *)

Section Nub.

Import Metaheuristic.

(** ** The filter of the base library *)

Section Filter.

Variables (A : Type) (equality : A -> A -> bool).

Lemma nub_from_length (l buffer : list A) :
  (length (JS.nub_from equality buffer l) <= length l)%nat.
Proof.
  revert buffer. induction l as [| x l IH]; intros buffer; cbn; [lia |].
  destruct (existsb _ buffer); cbn.
  - specialize (IH buffer). lia.
  - specialize (IH (buffer ++ [x])). lia.
Qed.

Lemma nub_from_incl (l buffer : list A) :
  incl (JS.nub_from equality buffer l) l.
Proof.
  revert buffer. induction l as [| x l IH]; intros buffer; cbn.
  - apply incl_refl.
  - destruct (existsb _ buffer).
    + apply incl_tl, IH.
    + apply incl_cons; [now left | apply incl_tl, IH].
Qed.

(** No kept item is related to an item of the buffer it was checked
    against, nor to an item kept before it. *)
Lemma nub_from_unrelated (l buffer : list A) :
  Forall (fun x => Forall (fun b => equality b x = false) buffer)
         (JS.nub_from equality buffer l)
  /\ ForallOrdPairs (fun a b => equality a b = false)
                    (JS.nub_from equality buffer l).
Proof.
  revert buffer. induction l as [| x l IH]; intros buffer; cbn.
  - split; constructor.
  - destruct (existsb _ buffer) eqn:Ex; [apply IH |].
    destruct (IH (buffer ++ [x])) as [Hbuf Hpairs].
    split.
    + constructor.
      * apply Forall_forall. intros b Hb.
        destruct (equality b x) eqn:Eb; [| reflexivity].
        assert (existsb (fun b => equality b x) buffer = true)
          by (apply existsb_exists; eauto).
        congruence.
      * eapply Forall_impl; [| exact Hbuf].
        intros y Hy. apply Forall_app in Hy. tauto.
    + constructor; [| exact Hpairs].
      eapply Forall_impl; [| exact Hbuf].
      intros y Hy. apply Forall_app in Hy. destruct Hy as [_ Hx].
      now inversion Hx.
Qed.

(** An item that is not kept is related to one that is (or was in the
    buffer). *)
Lemma nub_from_covers (l buffer : list A) (x : A) :
  In x l ->
  In x (JS.nub_from equality buffer l)
  \/ exists b, In b (buffer ++ JS.nub_from equality buffer l)
               /\ equality b x = true.
Proof.
  revert buffer. induction l as [| y l IH]; intros buffer Hin; [contradiction |].
  cbn. destruct (existsb _ buffer) eqn:Ex.
  - destruct Hin as [-> | Hin].
    + right. apply existsb_exists in Ex. destruct Ex as (b & Hb & Eb).
      exists b. split; [apply in_or_app; now left | exact Eb].
    + apply IH, Hin.
  - destruct Hin as [-> | Hin]; [left; now left |].
    destruct (IH (buffer ++ [y]) Hin) as [Hk | (b & Hb & Eb)].
    + left. now right.
    + right. exists b. split; [| exact Eb].
      rewrite <- app_assoc in Hb. exact Hb.
Qed.

Lemma ordered_pairs_nth (R : A -> A -> Prop) (l : list A) :
  ForallOrdPairs R l ->
  forall i j a b, (i < j)%nat ->
    nth_error l i = Some a -> nth_error l j = Some b -> R a b.
Proof.
  induction 1 as [| x l Hx Hl IH]; intros i j a b Hij Ha Hb.
  - now destruct i.
  - destruct j as [| j]; [lia |]. cbn in Hb.
    destruct i as [| i]; cbn in Ha.
    + injection Ha as <-. rewrite Forall_forall in Hx.
      eapply Hx, nth_error_In, Hb.
    + apply (IH i j); [lia | assumption | assumption].
Qed.

End Filter.

(** ** Comparisons of numbers *)

Section Numbers.

Lemma leb_not_gtb (a b : JS.num) : JS.leb a b = true -> JS.gtb a b = false.
Proof.
  unfold JS.gtb. destruct a as [x | | |], b as [y | | |]; cbn; try congruence.
  rewrite <- (Qcompare_antisym x y). destruct (x ?= y)%Q; cbn; congruence.
Qed.

(** A difference within the requested precision is not above the precision
    [nub] works with. *)
Lemma leb_not_above_effective (a p : JS.num) :
  JS.leb a p = true -> JS.gtb a (JS.or_else p JS.zero) = false.
Proof.
  intros H. destruct p as [y | | |]; cbn [JS.or_else];
    try (now apply leb_not_gtb); try (destruct a; discriminate).
  destruct (Qeq_bool y 0) eqn:E; [| now apply leb_not_gtb].
  apply Qeq_bool_eq in E.
  destruct a as [x | | |]; unfold JS.gtb, JS.zero; cbn [JS.leb JS.ltb] in *;
    try congruence.
  rewrite <- (Qcompare_antisym x 0). rewrite <- E.
  destruct (x ?= y)%Q; cbn; congruence.
Qed.

Lemma abs_sub_sym (a b p : JS.num) :
  JS.leb (JS.abs (JS.sub a b)) p = JS.leb (JS.abs (JS.sub b a)) p.
Proof.
  destruct a as [x | | |], b as [y | | |]; try reflexivity.
  unfold JS.sub, JS.opp, JS.add, JS.abs.
  change (x + - y)%Q with (x - y)%Q. change (y + - x)%Q with (y - x)%Q.
  now rewrite Qabs_Qminus.
Qed.

(** Two numbers that are not NaN and whose difference is not above zero are
    the same number. *)
Lemma not_above_zero_same (a b : JS.num) :
  JS.is_nan a = false -> JS.is_nan b = false ->
  JS.gtb (JS.abs (JS.sub a b)) JS.zero = false -> JS.same a b.
Proof.
  destruct a as [x | | |], b as [y | | |];
    unfold JS.gtb, JS.sub, JS.zero;
    cbn [JS.opp JS.add JS.abs JS.ltb JS.is_nan JS.same];
    try congruence; try tauto.
  intros _ _ H.
  assert (Hle : (Qabs (x - y) <= 0)%Q).
  { unfold Qminus.
    destruct (Qcompare_spec 0 (Qabs (x + - y))) as [E | E | E];
      try discriminate.
    - rewrite <- E. apply Qle_refl.
    - now apply Qlt_le_weak. }
  apply Qabs_Qle_condition in Hle. destruct Hle as [H1 H2].
  lra.
Qed.

End Numbers.

(** ** The comparison of decision vectors *)

Section Vectors.

Import Props.

Lemma within_sym (p : JS.num) (v1 v2 : list JS.num) :
  within p v1 v2 -> within p v2 v1.
Proof.
  intros [Hlen H]. split; [congruence |].
  intros i Hi. rewrite abs_sub_sym. apply H. congruence.
Qed.

Lemma nub_equal_of_within (p : JS.num) (e1 e2 : Element.t) :
  within p (Element.__values__ e1) (Element.__values__ e2) ->
  Metaheuristic.nub_equal (JS.or_else p JS.zero) e1 e2 = true.
Proof.
  intros [Hlen H]. unfold Metaheuristic.nub_equal.
  rewrite Hlen, Nat.eqb_refl. cbn [negb].
  apply forallb_forall. intros i Hi. apply in_seq in Hi.
  rewrite leb_not_above_effective; [reflexivity |].
  apply H. lia.
Qed.

Lemma same_values_of_items (v1 v2 : list JS.num) :
  length v1 = length v2 ->
  (forall i, (i < length v1)%nat -> JS.same (JS.item v1 i) (JS.item v2 i)) ->
  same_values v1 v2.
Proof.
  revert v2. induction v1 as [| a v1 IH]; intros [| b v2] Hlen H;
    try discriminate; [constructor |].
  constructor.
  - apply (H 0%nat). cbn. lia.
  - apply IH; [now injection Hlen |].
    intros i Hi. apply (H (S i)). cbn. lia.
Qed.

Lemma no_NaN_item (v : list JS.num) (i : nat) :
  no_NaN v -> (i < length v)%nat -> JS.is_nan (JS.item v i) = false.
Proof.
  intros Hv Hi. unfold no_NaN in Hv. rewrite Forall_forall in Hv.
  apply Hv. unfold JS.item. now apply nth_In.
Qed.

Lemma nub_equal_zero_same (e1 e2 : Element.t) :
  no_NaN (Element.__values__ e1) -> no_NaN (Element.__values__ e2) ->
  Metaheuristic.nub_equal JS.zero e1 e2 = true ->
  same_values (Element.__values__ e1) (Element.__values__ e2).
Proof.
  intros H1 H2. unfold Metaheuristic.nub_equal.
  destruct (Nat.eqb_spec (length (Element.__values__ e1))
                         (length (Element.__values__ e2))) as [Hlen | Hlen];
    cbn [negb]; [| discriminate].
  intros Hall. rewrite forallb_forall in Hall.
  apply same_values_of_items; [exact Hlen |].
  intros i Hi. apply not_above_zero_same.
  - now apply no_NaN_item.
  - apply no_NaN_item; [assumption | lia].
  - specialize (Hall i). rewrite in_seq in Hall.
    apply negb_true_iff, Hall. lia.
Qed.

Lemma effective_zero (p : JS.num) :
  JS.same p JS.zero -> JS.or_else p JS.zero = JS.zero.
Proof.
  destruct p as [x | | |]; cbn; try tauto.
  intros E. apply Qeq_bool_iff in E. now rewrite E.
Qed.

End Vectors.

(** ** The method *)

Section Method.

Import Props.

Lemma nub_state (p : JS.num) (mh : t) :
  state (fst (nub (Some p) mh))
  = JS.nub (fun r1 r2 => nub_equal (JS.or_else p JS.zero) (heap mh r1) (heap mh r2))
           (state mh).
Proof. reflexivity. Qed.

(** C8.  After [nub(p)] no two elements of the state have decision vectors
    of the same dimension that differ by at most [p] in every dimension;
    with [p = 0] and decision values that are not NaN, an element is gone
    only if an element with the same decision vector is kept; the elements
    kept are elements of the state before, and not more of them; the value
    returned is the length of the state. *)
Theorem nub_leaves_no_near_duplicates (p : JS.num) (mh : t) :
  let mh' := fst (nub (Some p) mh) in
  (forall i j r1 r2, i <> j ->
      nth_error (state mh') i = Some r1 ->
      nth_error (state mh') j = Some r2 ->
      ~ within p (Element.__values__ (heap mh' r1))
                 (Element.__values__ (heap mh' r2)))
  /\ (JS.same p JS.zero ->
      (forall r, In r (state mh) -> no_NaN (Element.__values__ (heap mh r))) ->
      forall r, In r (state mh) ->
        In r (state mh')
        \/ exists r', In r' (state mh')
                      /\ same_values (Element.__values__ (heap mh r'))
                                     (Element.__values__ (heap mh r)))
  /\ incl (state mh') (state mh)
  /\ (length (state mh') <= length (state mh))%nat
  /\ snd (nub (Some p) mh) = length (state mh')
  /\ heap mh' = heap mh.
Proof.
  intros mh'. subst mh'. rewrite nub_state.
  set (eq := fun r1 r2 => nub_equal _ (heap mh r1) (heap mh r2)).
  change (heap (fst (nub (Some p) mh))) with (heap mh).
  repeat split.
  - assert (Hlt : forall i j r1 r2, (i < j)%nat ->
              nth_error (JS.nub eq (state mh)) i = Some r1 ->
              nth_error (JS.nub eq (state mh)) j = Some r2 ->
              eq r1 r2 = false).
    { apply ordered_pairs_nth, (nub_from_unrelated eq (state mh) []). }
    intros i j r1 r2 Hij H1 H2 Hw.
    destruct (Nat.lt_total i j) as [Hlt' | [-> | Hgt]]; [| congruence |].
    + specialize (Hlt i j r1 r2 Hlt' H1 H2). unfold eq in Hlt.
      now rewrite (@nub_equal_of_within _ _ _ Hw) in Hlt.
    + specialize (Hlt j i r2 r1 Hgt H2 H1). unfold eq in Hlt.
      now rewrite (@nub_equal_of_within _ _ _ (@within_sym _ _ _ Hw)) in Hlt.
  - intros Hp Hreal r Hr.
    destruct (nub_from_covers eq (state mh) [] r Hr) as [Hk | (b & Hb & Eb)];
      [now left |].
    right. exists b. cbn [app] in Hb. split; [exact Hb |].
    unfold eq in Eb. rewrite (@effective_zero p Hp) in Eb.
    apply nub_equal_zero_same; [| now apply Hreal | exact Eb].
    apply Hreal. eapply nub_from_incl, Hb.
  - apply nub_from_incl.
  - apply nub_from_length.
Qed.

(** The theorem at a state with an exact duplicate and precision 0: the
    duplicate, object 1, is gone and object 0, which has its values, is
    kept. *)
Lemma nub_leaves_no_near_duplicates_witness :
  JS.same JS.zero JS.zero
  /\ (forall r, In r (state Examples.crowded) ->
        no_NaN (Element.__values__ (heap Examples.crowded r)))
  /\ In 1 (state Examples.crowded)
  /\ (In 1 (state (fst (nub (Some JS.zero) Examples.crowded)))
      \/ exists r', In r' (state (fst (nub (Some JS.zero) Examples.crowded)))
                    /\ same_values
                         (Element.__values__ (heap Examples.crowded r'))
                         (Element.__values__ (heap Examples.crowded 1))).
Proof.
  assert (H0 : JS.same JS.zero JS.zero) by reflexivity.
  assert (Hreal : forall r, In r (state Examples.crowded) ->
            no_NaN (Element.__values__ (heap Examples.crowded r))).
  { intros r Hr. cbn in Hr.
    destruct Hr as [<- | [<- | [<- | [<- | []]]]]; repeat constructor. }
  assert (H1 : In 1 (state Examples.crowded)) by (cbn; tauto).
  repeat split; try assumption.
  exact (proj1 (proj2 (nub_leaves_no_near_duplicates JS.zero Examples.crowded))
           H0 Hreal 1 H1).
Defined.

End Method.

End Nub.

(* ================================================================== *)
(** * The object store                                                  *)
(* ================================================================== *)

Section Store.

Variables (h : Heap) (r : ref).

Lemma upd_eq (e : Element.t) : upd h r e r = e.
Proof. unfold upd. now rewrite Nat.eqb_refl. Qed.

Lemma upd_neq (e : Element.t) (r' : ref) : r' <> r -> upd h r e r' = h r'.
Proof. unfold upd. intros H. now apply Nat.eqb_neq in H as ->. Qed.

Lemma modify_eq (f : Element.t -> Element.t) : modify h r f r = f (h r).
Proof. apply upd_eq. Qed.

Lemma modify_neq (f : Element.t -> Element.t) (r' : ref) :
  r' <> r -> modify h r f r' = h r'.
Proof. apply upd_neq. Qed.

End Store.

(** A loop that changes one object at a time with [f]: the objects of the
    array are changed, the others are not. *)
Lemma fold_modify_out (f : Element.t -> Element.t) (l : list ref) (h : Heap)
  (r : ref) :
  ~ In r l -> fold_left (fun h r => modify h r f) l h r = h r.
Proof.
  revert h. induction l as [| x l IH]; intros h Hr; cbn; [reflexivity |].
  rewrite IH by (cbn in Hr; tauto).
  apply modify_neq. cbn in Hr. intros ->. tauto.
Qed.

(** When applying [f] twice is applying it once, each object of the array
    ends as [f] of what it was. *)
Lemma fold_modify_in (f : Element.t -> Element.t) (l : list ref) (h : Heap)
  (r : ref) :
  (forall e, f (f e) = f e) ->
  In r l -> fold_left (fun h r => modify h r f) l h r = f (h r).
Proof.
  intros Hf. revert h. induction l as [| x l IH]; intros h Hr; [contradiction |].
  cbn. destruct (in_dec Nat.eq_dec r l) as [Hin | Hout].
  - rewrite IH by assumption.
    destruct (Nat.eq_dec r x) as [-> | Hne].
    + now rewrite modify_eq, Hf.
    + now rewrite modify_neq.
  - rewrite fold_modify_out by assumption.
    destruct Hr as [-> | Hr]; [apply modify_eq | contradiction].
Qed.

(* ================================================================== *)
(** * paretoAnalysis                                                    *)
(* ================================================================== *)

Section ParetoAnalysis.

Import Metaheuristic Pareto.

Variable P : Problem.

Lemma same_but_pareto_refl (e : Element.t) : same_but_pareto e e.
Proof. now repeat split. Qed.

Lemma same_but_pareto_trans (e1 e2 e3 : Element.t) :
  same_but_pareto e1 e2 -> same_but_pareto e2 e3 -> same_but_pareto e1 e3.
Proof.
  unfold same_but_pareto. intros (A1 & A2 & A3 & A4 & A5) (B1 & B2 & B3 & B4 & B5).
  repeat split; congruence.
Qed.

Lemma records_refl (h : Heap) : records h h [].
Proof.
  repeat split; try tauto; cbn; tauto.
Qed.

Lemma records_trans (h1 h2 h3 : Heap) (added1 added2 : list (ref * ref)) :
  records h1 h2 added1 -> records h2 h3 added2 ->
  records h1 h3 (added1 ++ added2).
Proof.
  intros (D1 & T1 & A1 & S1) (D2 & T2 & A2 & S2). repeat split.
  - rewrite D2, D1, in_app_iff. tauto.
  - rewrite in_app_iff, <- or_assoc, <- D1, <- D2. tauto.
  - rewrite T2, T1, in_app_iff. tauto.
  - rewrite in_app_iff, <- or_assoc, <- T1, <- T2. tauto.
  - auto.
  - apply (same_but_pareto_trans (S1 r) (S2 r)).
  - apply (same_but_pareto_trans (S1 r) (S2 r)).
  - apply (same_but_pareto_trans (S1 r) (S2 r)).
  - apply (same_but_pareto_trans (S1 r) (S2 r)).
  - apply (same_but_pareto_trans (S1 r) (S2 r)).
Qed.

(** A consistent comparison gives the same answer before and after
    dominations have been recorded. *)
Lemma dominates_same (h h' : Heap) (added : list (ref * ref))
  (winner loser : ref) :
  consistent P -> records h h' added ->
  dominates P h' winner loser -> dominates P h winner loser.
Proof.
  intros (Hsame & _) (_ & _ & _ & S). unfold dominates.
  now rewrite (Hsame _ _ _ _ (S winner) (S loser)).
Qed.

(** No number is both above and below zero. *)
Lemma above_not_below (n : JS.num) :
  JS.gtb n JS.zero = true -> JS.ltb n JS.zero = true -> False.
Proof.
  unfold JS.gtb, JS.zero, JS.ltb. destruct n as [x | | |]; try discriminate.
  rewrite <- (Qcompare_antisym x 0).
  destruct (x ?= 0)%Q; cbn [CompOpp]; discriminate.
Qed.

(** One domination is recorded in the two lists it belongs to, also when
    winner and loser are the same object. *)
Lemma record_domination_records (winner loser : ref) (h : Heap) :
  annotated h winner -> annotated h loser ->
  exists h', record_domination winner loser h = Some h'
             /\ records h h' [(loser, winner)].
Proof.
  unfold annotated, record_domination. intros Hw Hl.
  destruct (Element.pareto (h winner)) as [p1 |] eqn:E1; [| congruence].
  destruct (Nat.eq_dec loser winner) as [-> | Hne].
  - rewrite modify_eq. cbn [Element.pareto Element.set_pareto].
    eexists. split; [reflexivity |].
    unfold records, dominators_of, dominated_of, annotated, same_but_pareto.
    repeat split; intros;
      repeat match goal with
      | |- context [modify _ ?x _ ?y] =>
          destruct (Nat.eq_dec y x) as [-> | ?];
          [rewrite !modify_eq | rewrite !modify_neq by assumption]
      | H : context [modify _ ?x _ ?y] |- _ =>
          destruct (Nat.eq_dec y x) as [-> | ?];
          [rewrite !modify_eq in H | rewrite !modify_neq in H by assumption]
      end;
      cbn in *; rewrite ?E1 in *; cbn in *; rewrite ?in_app_iff in *; cbn in *;
      try solve [intuition congruence].
  - rewrite modify_neq by assumption.
    destruct (Element.pareto (h loser)) as [p2 |] eqn:E2; [| congruence].
    eexists. split; [reflexivity |].
    unfold records, dominators_of, dominated_of, annotated, same_but_pareto.
    repeat split; intros;
      repeat match goal with
      | |- context [modify _ ?x _ ?y] =>
          destruct (Nat.eq_dec y x) as [-> | ?];
          [rewrite !modify_eq | rewrite !modify_neq by assumption]
      | H : context [modify _ ?x _ ?y] |- _ =>
          destruct (Nat.eq_dec y x) as [-> | ?];
          [rewrite !modify_eq in H | rewrite !modify_neq in H by assumption]
      end;
      cbn in *; rewrite ?E1, ?E2 in *; cbn in *; rewrite ?in_app_iff in *;
      cbn in *; try solve [intuition congruence].
Qed.

(** The inner loop: every element of [rest] is compared with [elem1] once,
    and what is recorded is between [elem1] and that element. *)
Lemma paretoAnalysis_against_records (elem1 : ref) (rest : list ref) (h : Heap) :
  (forall r, In r (elem1 :: rest) -> annotated h r) ->
  exists h' added,
    paretoAnalysis_against P elem1 rest h = Some h'
    /\ records h h' added
    /\ between elem1 rest added
    /\ (~ In elem1 rest -> NoDup rest ->
        forall a b, In (a, b) added -> ~ In (b, a) added)
    /\ (consistent P -> forall a b, In (a, b) added -> dominates P h b a).
Proof.
  revert h. induction rest as [| elem2 rest IH]; intros h Hann.
  - exists h, [].
    refine (conj eq_refl (conj (records_refl h) (conj _ (conj _ _)))).
    + intros ? ? [].
    + intros _ _ ? ? [].
    + intros _ ? ? [].
  - cbn [paretoAnalysis_against].
    assert (H1 : exists h1 added1,
               (if JS.gtb (domination P (h elem1) (h elem2)) JS.zero
                then record_domination elem1 elem2 h
                else if JS.ltb (domination P (h elem1) (h elem2)) JS.zero
                     then record_domination elem2 elem1 h
                     else Some h) = Some h1
               /\ records h h1 added1
               /\ between elem1 [elem2] added1
               /\ (elem1 <> elem2 ->
                   forall a b, In (a, b) added1 -> ~ In (b, a) added1)
               /\ (consistent P ->
                   forall a b, In (a, b) added1 -> dominates P h b a)).
    { assert (A1 : annotated h elem1) by (apply Hann; now left).
      assert (A2 : annotated h elem2) by (apply Hann; right; now left).
      destruct (JS.gtb (domination P (h elem1) (h elem2)) JS.zero) eqn:Egt;
        [| destruct (JS.ltb (domination P (h elem1) (h elem2)) JS.zero)
             eqn:Elt].
      - destruct (record_domination_records A1 A2) as (h1 & E & R).
        exists h1, [(elem2, elem1)].
        refine (conj E (conj R (conj _ (conj _ _)))).
        + intros a b [[= <- <-] | []]. right. split; [reflexivity | now left].
        + intros Hne a b [[= <- <-] | []] [[= -> ] | []]. congruence.
        + intros _ a b [[= <- <-] | []]. exact Egt.
      - destruct (record_domination_records A2 A1) as (h1 & E & R).
        exists h1, [(elem1, elem2)].
        refine (conj E (conj R (conj _ (conj _ _)))).
        + intros a b [[= <- <-] | []]. left. split; [reflexivity | now left].
        + intros Hne a b [[= <- <-] | []] [[= -> ] | []]. congruence.
        + intros (_ & Hanti) a b [[= <- <-] | []]. apply Hanti. exact Elt.
      - exists h, [].
        refine (conj eq_refl (conj (records_refl h) (conj _ (conj _ _)))).
        + intros ? ? [].
        + intros _ ? ? [].
        + intros _ ? ? []. }
    destruct H1 as (h1 & added1 & E1 & R1 & B1 & O1 & C1). rewrite E1.
    destruct (IH h1) as (h' & added2 & E2 & R2 & B2 & O2 & C2).
    { intros r Hr. destruct R1 as (_ & _ & A & _). apply A, Hann.
      destruct Hr as [-> | Hr]; [now left | right; now right]. }
    exists h', (added1 ++ added2).
    refine (conj E2 (conj (records_trans R1 R2) (conj _ (conj _ _))));
      [| | intros Hc a b Hab; apply in_app_or in Hab;
           destruct Hab as [Hab | Hab];
           [exact (C1 Hc a b Hab)
           | apply (dominates_same Hc R1), (C2 Hc a b Hab)]].
    + intros a b Hab. apply in_app_or in Hab. destruct Hab as [Hab | Hab].
      * destruct (B1 a b Hab) as [[-> [-> | []]] | [-> [-> | []]]];
          [left | right]; (split; [reflexivity | now left]).
      * destruct (B2 a b Hab) as [[-> Hb] | [-> Ha]];
          [left | right]; (split; [reflexivity | now right]).
    + intros Hout Hnodup a b Hab Hba.
      assert (Hne : elem1 <> elem2) by (intros ->; apply Hout; now left).
      assert (Hout2 : ~ In elem1 rest) by (intros ?; apply Hout; now right).
      inversion Hnodup as [| ? ? Hnot Hnodup']; subst.
      apply in_app_or in Hab. apply in_app_or in Hba.
      destruct Hab as [Hab | Hab], Hba as [Hba | Hba].
      * exact (O1 Hne a b Hab Hba).
      * destruct (B1 a b Hab) as [[-> [-> | []]] | [-> [-> | []]]];
          destruct (B2 _ _ Hba) as [[? ?] | [? ?]]; subst; tauto.
      * destruct (B1 b a Hba) as [[-> [-> | []]] | [-> [-> | []]]];
          destruct (B2 _ _ Hab) as [[? ?] | [? ?]]; subst; tauto.
      * exact (O2 Hout2 Hnodup' a b Hab Hba).
Qed.

(** The two loops: every pair of positions is compared once. *)
Lemma paretoAnalysis_pairs_records (elements : list ref) (h : Heap) :
  (forall r, In r elements -> annotated h r) ->
  exists h' added,
    paretoAnalysis_pairs P elements h = Some h'
    /\ records h h' added
    /\ (forall a b, In (a, b) added -> In a elements /\ In b elements)
    /\ (NoDup elements -> one_way elements added)
    /\ (consistent P -> forall a b, In (a, b) added -> dominates P h b a).
Proof.
  revert h. induction elements as [| elem1 rest IH]; intros h Hann.
  - exists h, [].
    refine (conj eq_refl (conj (records_refl h) (conj _ (conj _ _)))).
    + intros ? ? [].
    + intros _ ? ? [].
    + intros _ ? ? [].
  - cbn [paretoAnalysis_pairs].
    destruct (paretoAnalysis_against_records Hann)
      as (h1 & added1 & E1 & R1 & B1 & O1 & C1).
    rewrite E1.
    destruct (IH h1) as (h' & added2 & E2 & R2 & M2 & O2 & C2).
    { intros r Hr. destruct R1 as (_ & _ & A & _). apply A, Hann. now right. }
    assert (M : forall a b, In (a, b) (added1 ++ added2) ->
                In a (elem1 :: rest) /\ In b (elem1 :: rest)).
    { intros a b Hab. apply in_app_or in Hab. destruct Hab as [Hab | Hab].
      - destruct (B1 a b Hab) as [[-> Hb] | [-> Ha]];
          split; (now left) || (now right).
      - destruct (M2 a b Hab). split; now right. }
    exists h', (added1 ++ added2).
    refine (conj E2 (conj (records_trans R1 R2) (conj M (conj _ _))));
      [| intros Hc a b Hab; apply in_app_or in Hab;
         destruct Hab as [Hab | Hab];
         [exact (C1 Hc a b Hab)
         | apply (dominates_same Hc R1), (C2 Hc a b Hab)]].
    intros H a b H0.
    inversion H as [| ? ? Hout Hnodup]; subst.
    refine (conj (proj1 (M a b H0)) (conj (proj2 (M a b H0)) (conj _ _))).
    + apply in_app_or in H0. destruct H0 as [Hab | Hab].
      * destruct (B1 a b Hab) as [[-> Hb] | [-> Ha]]; congruence.
      * destruct (O2 Hnodup a b Hab) as (_ & _ & Hne & _). exact Hne.
    + intros Hba.
      apply in_app_or in H0. apply in_app_or in Hba.
      destruct H0 as [Hab | Hab], Hba as [Hba | Hba].
      * exact (O1 Hout Hnodup a b Hab Hba).
      * destruct (M2 _ _ Hba).
        destruct (B1 a b Hab) as [[-> Hb] | [-> Ha]]; tauto.
      * destruct (M2 _ _ Hab).
        destruct (B1 b a Hba) as [[-> Hb] | [-> Ha]]; tauto.
      * destruct (O2 Hnodup a b Hab) as (_ & _ & _ & Hnot). tauto.
Qed.

(** The first loop gives every element of the array two empty lists. *)
Lemma paretoAnalysis_reset (elements : list ref) (h : Heap) (r : ref) :
  let h0 := fold_left (fun h r => modify h r (Element.set_pareto no_pareto))
                      elements h in
  (In r elements -> Element.pareto (h0 r) = Some no_pareto)
  /\ same_but_pareto (h r) (h0 r).
Proof.
  cbn zeta. destruct (in_dec Nat.eq_dec r elements) as [Hin | Hout].
  - rewrite fold_modify_in by (assumption || reflexivity).
    split; [reflexivity | now repeat split].
  - rewrite fold_modify_out by assumption.
    split; [contradiction | apply same_but_pareto_refl].
Qed.

(** [paretoAnalysis] never throws; what it leaves in the lists of the
    elements of the array is what it recorded, and nothing but the
    annotation is changed. *)
Lemma paretoAnalysis_records (elements : list ref) (h : Heap) :
  exists h' added,
    paretoAnalysis P elements h = Some h'
    /\ (forall a b, In a elements ->
          (In b (dominators_of h' a) <-> In (a, b) added))
    /\ (forall a b, In b elements ->
          (In a (dominated_of h' b) <-> In (a, b) added))
    /\ (forall r, In r elements -> annotated h' r)
    /\ (forall r, same_but_pareto (h r) (h' r))
    /\ (forall a b, In (a, b) added -> In a elements /\ In b elements)
    /\ (NoDup elements -> one_way elements added)
    /\ (consistent P -> forall a b, In (a, b) added -> dominates P h b a).
Proof.
  unfold paretoAnalysis.
  set (h0 := fold_left _ elements h).
  assert (Hreset : forall r, (In r elements -> Element.pareto (h0 r) = Some no_pareto)
                             /\ same_but_pareto (h r) (h0 r))
    by (intros r; apply paretoAnalysis_reset).
  destruct (@paretoAnalysis_pairs_records elements h0)
    as (h' & added & E & (D & T & A & S) & M & O & C).
  { intros r Hr. unfold annotated. now rewrite (proj1 (Hreset r) Hr). }
  exists h', added.
  refine (conj E (conj _ (conj _ (conj _ (conj _ (conj M (conj O _))))))).
  - intros a b H. split.
    + intros Hb. apply D in Hb. destruct Hb as [Hb | Hb]; [| exact Hb].
      unfold dominators_of in Hb. now rewrite (proj1 (Hreset a) H) in Hb.
    + intros Hab. apply D. now right.
  - intros a b H. split.
    + intros Ha. apply T in Ha. destruct Ha as [Ha | Ha]; [| exact Ha].
      unfold dominated_of in Ha. now rewrite (proj1 (Hreset b) H) in Ha.
    + intros Hab. apply T. now right.
  - intros r Hr. apply A. unfold annotated. now rewrite (proj1 (Hreset r) Hr).
  - intros r. apply (same_but_pareto_trans (proj2 (Hreset r)) (S r)).
  - intros Hc a b Hab. generalize (C Hc a b Hab). unfold dominates.
    destruct Hc as (Hsame & _).
    now rewrite (Hsame _ _ _ _ (proj2 (Hreset b)) (proj2 (Hreset a))).
Qed.

(** C4.  [paretoAnalysis] completes on every array of elements.  After it,
    for all elements [a] and [b] of the array, [b] is in the dominators of
    [a] exactly when [a] is in the dominated of [b]; and when the array holds
    every element once, or the comparison of the problem is consistent, no
    element is in one of its own lists, and an element recorded as dominating
    another one is not recorded as dominated by it. *)
Theorem paretoAnalysis_symmetric_antisymmetric (elements : list ref) (h : Heap) :
  exists h',
    paretoAnalysis P elements h = Some h'
    /\ (forall a b, In a elements -> In b elements ->
          (In b (dominators_of h' a) <-> In a (dominated_of h' b)))
    /\ (NoDup elements \/ consistent P ->
        (forall a, In a elements ->
           ~ In a (dominators_of h' a) /\ ~ In a (dominated_of h' a))
        /\ (forall a b, In a elements -> In b elements ->
              In a (dominators_of h' b) -> ~ In b (dominators_of h' a))).
Proof.
  destruct (paretoAnalysis_records elements h)
    as (h' & added & E & D & T & _ & _ & _ & O & C).
  exists h'. split; [exact E |]. split; [| intros Hcase; split].
  - intros a b Ha Hb. now rewrite (D a b Ha), (T a b Hb).
  - intros a Ha. rewrite (D a a Ha), (T a a Ha).
    assert (~ In (a, a) added); [| tauto].
    intros Haa. destruct Hcase as [Hnodup | Hc].
    + destruct (O Hnodup a a Haa) as (_ & _ & Hne & _). congruence.
    + generalize (C Hc a a Haa). unfold dominates. intros Habove.
      exact (@above_not_below _ Habove (proj1 (proj2 Hc _ _) Habove)).
  - intros a b Ha Hb. rewrite (D b a Hb), (D a b Ha).
    intros Hba Hab. destruct Hcase as [Hnodup | Hc].
    + destruct (O Hnodup b a Hba) as (_ & _ & _ & Hnot). tauto.
    + generalize (C Hc b a Hba) (C Hc a b Hab). unfold dominates.
      intros Hab' Hba'.
      exact (@above_not_below _ Hba' (proj1 (proj2 Hc _ _) Hab')).
Qed.

End ParetoAnalysis.

Section ParetoAnalysisExamples.

Import Metaheuristic Pareto.

(** The analysis of the four points: 0 dominates 1 and 3, and 2 dominates 3. *)
Example paretoAnalysis_four_points :
  option_map (fun h' => map (fun r => (dominators_of h' r, dominated_of h' r))
                            [0; 1; 2; 3])
             (paretoAnalysis Examples.biobjective [0; 1; 2; 3] Examples.four_points)
  = Some [([], [1; 3]); ([0], []); ([], [3]); ([0; 2], [])].
Proof. vm_compute. reflexivity. Qed.

Lemma ltb_not_leb (a b : JS.num) :
  JS.ltb a b = true -> JS.leb b a = true -> False.
Proof.
  destruct a as [x | | |], b as [y | | |]; cbn; try discriminate.
  rewrite <- (Qcompare_antisym x y).
  destruct (x ?= y)%Q; cbn [CompOpp]; discriminate.
Qed.

Lemma some_ltb_not_all_leb (v1 v2 : list JS.num) :
  Examples.some_ltb v1 v2 = true -> Examples.all_leb v2 v1 = true -> False.
Proof.
  revert v2. induction v1 as [| a v1 IH]; intros [| b v2]; cbn;
    try discriminate.
  intros H1 H2. apply andb_prop in H2. destruct H2 as (H2 & H3).
  apply orb_prop in H1. destruct H1 as [H1 | H1].
  - exact (@ltb_not_leb a b H1 H2).
  - exact (IH v2 H1 H3).
Qed.

(** The comparison of the example problem is consistent. *)
Lemma biobjective_consistent : consistent Examples.biobjective.
Proof.
  split.
  - intros e1 e1' e2 e2' (_ & E1 & _) (_ & E2 & _). cbn.
    unfold Examples.pareto_domination, Examples.scores. now rewrite E1, E2.
  - intros e1 e2. cbn. unfold Examples.pareto_domination.
    destruct (Examples.all_leb (Examples.scores e1) (Examples.scores e2))
      eqn:A12;
      destruct (Examples.some_ltb (Examples.scores e1) (Examples.scores e2))
        eqn:S12;
      destruct (Examples.all_leb (Examples.scores e2) (Examples.scores e1))
        eqn:A21;
      destruct (Examples.some_ltb (Examples.scores e2) (Examples.scores e1))
        eqn:S21;
      cbn; try (split; (reflexivity || discriminate));
      try (exfalso; exact (@some_ltb_not_all_leb _ _ S12 A21));
      try (exfalso; exact (@some_ltb_not_all_leb _ _ S21 A12)).
Qed.

(** The theorem at the four points. *)
Lemma paretoAnalysis_symmetric_antisymmetric_witness :
  NoDup [0; 1; 2; 3]
  /\ exists h',
      paretoAnalysis Examples.biobjective [0; 1; 2; 3] Examples.four_points
      = Some h'
      /\ (In 0 (dominators_of h' 1) <-> In 1 (dominated_of h' 0))
      /\ ~ In 0 (dominators_of h' 0)
      /\ (In 0 (dominators_of h' 1) -> ~ In 1 (dominators_of h' 0)).
Proof.
  assert (Hnodup : NoDup [0; 1; 2; 3]).
  { repeat constructor; cbn; intuition discriminate. }
  split; [exact Hnodup |].
  destruct (paretoAnalysis_symmetric_antisymmetric Examples.biobjective
              [0; 1; 2; 3] Examples.four_points) as (h' & E & S & A).
  destruct (A (or_introl Hnodup)) as (I & X).
  exists h'. repeat split.
  - exact E.
  - apply S; cbn; tauto.
  - apply S; cbn; tauto.
  - apply I. cbn; tauto.
  - apply X; cbn; tauto.
Defined.

End ParetoAnalysisExamples.

(* ================================================================== *)
(** * Array.prototype.sort                                              *)
(* ================================================================== *)

Section Sort.

Variables (A : Type) (comparefn : A -> A -> JS.num).

Lemma sort_cons (x : A) (l : list A) :
  JS.sort comparefn (x :: l) = JS.insert comparefn x (JS.sort comparefn l).
Proof. reflexivity. Qed.

Lemma insert_cons (x y : A) (l : list A) :
  JS.insert comparefn x (y :: l)
  = if JS.gtb (comparefn x y) JS.zero
    then y :: JS.insert comparefn x l
    else x :: y :: l.
Proof. reflexivity. Qed.

Lemma insert_permutation (x : A) (l : list A) :
  Permutation (JS.insert comparefn x l) (x :: l).
Proof.
  induction l as [| y l IH]; [reflexivity |]. rewrite insert_cons.
  destruct (JS.gtb (comparefn x y) JS.zero); [| reflexivity].
  rewrite IH. apply perm_swap.
Qed.

(** Sorting rearranges the array. *)
Lemma sort_permutation (l : list A) : Permutation (JS.sort comparefn l) l.
Proof.
  induction l as [| x l IH]; [reflexivity |]. rewrite sort_cons.
  rewrite insert_permutation. now apply perm_skip.
Qed.

Lemma sort_length (l : list A) : length (JS.sort comparefn l) = length l.
Proof. apply Permutation_length, sort_permutation. Qed.

Lemma sort_In (l : list A) (x : A) : In x (JS.sort comparefn l) <-> In x l.
Proof.
  split; apply Permutation_in;
    [apply sort_permutation | apply Permutation_sym, sort_permutation].
Qed.

Lemma sort_NoDup (l : list A) : NoDup l -> NoDup (JS.sort comparefn l).
Proof.
  apply Permutation_NoDup, Permutation_sym, sort_permutation.
Qed.

Lemma sort_nonempty (l : list A) : l <> [] -> JS.sort comparefn l <> [].
Proof.
  intros Hl E. apply Hl, length_zero_iff_nil.
  now rewrite <- sort_length, E.
Qed.

(** Only the values of the comparison function matter. *)
Lemma sort_ext (comparefn' : A -> A -> JS.num) (l : list A) :
  (forall x y, comparefn x y = comparefn' x y) ->
  JS.sort comparefn l = JS.sort comparefn' l.
Proof.
  intros Hext. induction l as [| x l IH]; [reflexivity |].
  unfold JS.sort in *. cbn [fold_right]. rewrite IH.
  generalize (fold_right (JS.insert comparefn') [] l) as s.
  induction s as [| y s IHs]; cbn [JS.insert]; [reflexivity |].
  now rewrite Hext, IHs.
Qed.

(** An array on which the comparison function is never positive is left
    as it is. *)
Lemma sort_unchanged (l : list A) :
  (forall x y, In x l -> In y l -> JS.gtb (comparefn x y) JS.zero = false) ->
  JS.sort comparefn l = l.
Proof.
  induction l as [| x l IH]; intros H; [reflexivity |].
  rewrite sort_cons, IH by (intros; apply H; now right).
  destruct l as [| y l]; [reflexivity |].
  rewrite insert_cons. now rewrite H by (cbn; tauto).
Qed.

(** For a comparison function that follows an order [le] on the items of
    the array (they satisfy [D]), the result is sorted by [le]. *)
Section Sorted.

Variables (D : A -> Prop) (le : A -> A -> Prop).

Hypothesis not_positive :
  forall x y, D x -> D y -> JS.gtb (comparefn x y) JS.zero = false -> le x y.
Hypothesis positive :
  forall x y, D x -> D y -> JS.gtb (comparefn x y) JS.zero = true -> le y x.
Hypothesis le_trans :
  forall x y z, D x -> D y -> D z -> le x y -> le y z -> le x z.

Lemma insert_sorted (x : A) (l : list A) :
  D x -> Forall D l -> StronglySorted le l ->
  StronglySorted le (JS.insert comparefn x l).
Proof.
  intros Dx Dl Hs. induction Hs as [| y l Hs IH Hy].
  - repeat constructor.
  - inversion Dl as [| ? ? Dy Dl']; subst. rewrite insert_cons.
    destruct (JS.gtb (comparefn x y) JS.zero) eqn:E.
    + constructor; [now apply IH |].
      apply Forall_forall. intros z Hz.
      apply (Permutation_in _ (insert_permutation x l)) in Hz.
      destruct Hz as [<- | Hz]; [now apply positive |].
      rewrite Forall_forall in Hy. now apply Hy.
    + constructor; [now constructor |].
      constructor; [now apply not_positive |].
      rewrite Forall_forall in *. intros z Hz.
      apply (@le_trans x y z); auto.
Qed.

Lemma sort_sorted (l : list A) :
  Forall D l -> StronglySorted le (JS.sort comparefn l).
Proof.
  induction 1 as [| x l Dx Dl IH]; [constructor |]. rewrite sort_cons.
  apply insert_sorted; [assumption | | assumption].
  rewrite Forall_forall in *. intros z Hz. now apply Dl, sort_In.
Qed.

End Sorted.

End Sort.

(** In a sorted array the first item is below and the last item above every
    item. *)
Lemma sorted_first (A : Type) (le : A -> A -> Prop) (l : list A) (x y : A) :
  le x x ->
  StronglySorted le l -> nth_error l 0 = Some x -> In y l -> le x y.
Proof.
  intros Hrefl Hs Hx Hy. destruct Hs as [| z l Hs Hz]; [discriminate |].
  injection Hx as ->. destruct Hy as [<- | Hy]; [apply Hrefl |].
  rewrite Forall_forall in Hz. now apply Hz.
Qed.

Lemma sorted_last (A : Type) (le : A -> A -> Prop) (l : list A) (x y : A) :
  le x x ->
  StronglySorted le l -> nth_error l (length l - 1) = Some x -> In y l ->
  le y x.
Proof.
  intros Hrefl Hs. induction Hs as [| z l Hs IH Hz]; intros Hx Hy;
    [contradiction |].
  destruct l as [| z' l'].
  - cbn in Hx. injection Hx as <-. destruct Hy as [<- | []]. apply Hrefl.
  - assert (Hx' : nth_error (z' :: l') (length (z' :: l') - 1) = Some x).
    { cbn in Hx |- *. now rewrite Nat.sub_0_r in *. }
    destruct Hy as [<- | Hy]; [| now apply IH].
    rewrite Forall_forall in Hz. apply Hz. eapply nth_error_In, Hx'.
Qed.

(** In a sorted array an item is below the items that come after it. *)
Lemma sorted_nth (A : Type) (le : A -> A -> Prop) (l : list A) :
  StronglySorted le l ->
  forall i j x y, (i < j)%nat ->
    nth_error l i = Some x -> nth_error l j = Some y -> le x y.
Proof.
  induction 1 as [| z l Hs IH Hz]; intros i j x y Hij Hx Hy.
  - now destruct i.
  - destruct j as [| j]; [lia |]. cbn in Hy.
    destruct i as [| i]; cbn in Hx.
    + injection Hx as <-. rewrite Forall_forall in Hz.
      eapply Hz, nth_error_In, Hy.
    + apply (IH i j); [lia | assumption | assumption].
Qed.

(* ================================================================== *)
(** * crowdingDistance                                                  *)
(* ================================================================== *)

Section CrowdingDistance.

Import Metaheuristic Crowding.

(** ** What the operation leaves alone *)

Lemma same_but_distance_refl (e : Element.t) : same_but_distance e e.
Proof. now repeat split. Qed.

Lemma same_but_distance_trans (e1 e2 e3 : Element.t) :
  same_but_distance e1 e2 -> same_but_distance e2 e3 -> same_but_distance e1 e3.
Proof.
  unfold same_but_distance.
  intros (A1 & A2 & A3 & A4 & A5) (B1 & B2 & B3 & B4 & B5).
  repeat split; congruence.
Qed.

Lemma modify_distance_same (h : Heap) (r r' : ref) (d : JS.num) :
  same_but_distance (h r')
    (modify h r (Element.set_crowdingDistance d) r').
Proof.
  destruct (Nat.eq_dec r' r) as [-> | Hne].
  - rewrite modify_eq. now repeat split.
  - rewrite modify_neq by assumption. apply same_but_distance_refl.
Qed.

Lemma modify_distance_eq (h : Heap) (r : ref) (d : JS.num) :
  distance_at (modify h r (Element.set_crowdingDistance d)) r = d.
Proof. unfold distance_at. now rewrite modify_eq. Qed.

Lemma modify_distance_neq (h : Heap) (r r' : ref) (f : Element.t -> Element.t) :
  r' <> r -> distance_at (modify h r f) r' = distance_at h r'.
Proof. intros Hne. unfold distance_at. now rewrite modify_neq. Qed.

Section SameEvaluations.

Variables h h' : Heap.

Hypothesis same : forall r, same_but_distance (h r) (h' r).

Lemma evaluation_at_same (r : ref) : evaluation_at h' r = evaluation_at h r.
Proof.
  unfold evaluation_at. destruct (same r) as (_ & E & _). now rewrite E.
Qed.

Lemma has_evaluation_same (r : ref) : has_evaluation h' r = has_evaluation h r.
Proof.
  unfold has_evaluation. destruct (same r) as (_ & E & _). now rewrite E.
Qed.

Lemma evaluated_same (count : nat) (r : ref) :
  evaluated count h r -> evaluated count h' r.
Proof.
  intros (ev & E & Hev). exists ev. destruct (same r) as (_ & E' & _).
  split; [congruence | exact Hev].
Qed.

Lemma by_objective_same (i : nat) (r1 r2 : ref) :
  by_objective h' i r1 r2 = by_objective h i r1 r2.
Proof. unfold by_objective. now rewrite !evaluation_at_same. Qed.

Lemma sort_by_objective_same (i : nat) (es : list ref) :
  JS.sort (by_objective h' i) es = JS.sort (by_objective h i) es.
Proof. apply sort_ext. apply by_objective_same. Qed.

End SameEvaluations.

(** ** Real evaluations *)

Lemma evaluated_item (count : nat) (h : Heap) (r : ref) (i : nat) :
  evaluated count h r -> (i < count)%nat ->
  exists x, JS.item (evaluation_at h r) i = JS.Fin x.
Proof.
  intros (ev & E & Hlen & Hreal) Hi. unfold evaluation_at. rewrite E.
  rewrite Forall_forall in Hreal.
  assert (Hin : In (JS.item ev i) ev) by (apply nth_In; lia).
  specialize (Hreal _ Hin). destruct (JS.item ev i); try contradiction.
  now eexists.
Qed.

Lemma evaluated_has_evaluation (count : nat) (h : Heap) (es : list ref) :
  (forall r, In r es -> evaluated count h r) ->
  forallb (has_evaluation h) es = true.
Proof.
  intros H. apply forallb_forall. intros r Hr.
  destruct (H r Hr) as (ev & E & _). unfold has_evaluation. now rewrite E.
Qed.

(** The difference of two real evaluations keeps a distance real or
    infinite, and an infinite one infinite. *)
Lemma add_gap (d : JS.num) (x y : Q) :
  let d' := JS.add d (JS.sub (JS.Fin x) (JS.Fin y)) in
  (real_or_infinite d -> real_or_infinite d')
  /\ (d = JS.PInf -> d' = JS.PInf).
Proof.
  destruct d; cbn; split; try tauto; try congruence.
Qed.

(** ** The loops, for arrays that may hold an element more than once *)

Section Invariant.

Variables (count i : nat).

Hypothesis objective : (i < count)%nat.

Lemma crowd_interior_invariant (es : list ref) (h : Heap) (j : nat) :
  (forall r, In r es -> evaluated count h r) ->
  (0 < j)%nat -> (j + 1 < length es)%nat ->
  let h' := crowd_interior i es h j in
  (forall r, same_but_distance (h r) (h' r))
  /\ (forall r, real_or_infinite (distance_at h r) ->
                real_or_infinite (distance_at h' r))
  /\ (forall r, distance_at h r = JS.PInf -> distance_at h' r = JS.PInf).
Proof.
  intros Hev Hj0 Hj1 h'. subst h'. unfold crowd_interior.
  destruct (@evaluated_item count h (nth (j + 1) es O) i) as (x & Ex);
    [apply Hev, nth_In; lia | exact objective |].
  destruct (@evaluated_item count h (nth (j - 1) es O) i) as (y & Ey);
    [apply Hev, nth_In; lia | exact objective |].
  rewrite Ex, Ey.
  destruct (add_gap (distance_at h (nth j es O)) x y) as (Hreal & Hinf).
  refine (conj _ (conj _ _)).
  - intros r. apply modify_distance_same.
  - intros r Hr. destruct (Nat.eq_dec r (nth j es O)) as [-> | Hne].
    + rewrite modify_distance_eq. now apply Hreal.
    + now rewrite modify_distance_neq.
  - intros r Hr. destruct (Nat.eq_dec r (nth j es O)) as [-> | Hne].
    + rewrite modify_distance_eq. now apply Hinf.
    + now rewrite modify_distance_neq.
Qed.

Lemma interior_loop_invariant (es : list ref) (js : list nat) (h : Heap) :
  (forall r, In r es -> evaluated count h r) ->
  (forall j, In j js -> (0 < j)%nat /\ (j + 1 < length es)%nat) ->
  let h' := fold_left (crowd_interior i es) js h in
  (forall r, same_but_distance (h r) (h' r))
  /\ (forall r, real_or_infinite (distance_at h r) ->
                real_or_infinite (distance_at h' r))
  /\ (forall r, distance_at h r = JS.PInf -> distance_at h' r = JS.PInf).
Proof.
  revert h. induction js as [| j js IH]; intros h Hev Hjs; cbn [fold_left].
  - refine (conj _ (conj _ _)); auto. intros r. apply same_but_distance_refl.
  - destruct (Hjs j (or_introl eq_refl)) as [Hj0 Hj1].
    destruct (@crowd_interior_invariant es h j Hev Hj0 Hj1) as (S1 & R1 & I1).
    destruct (IH (crowd_interior i es h j)) as (S2 & R2 & I2).
    + intros r Hr. apply (@evaluated_same h _ S1), Hev, Hr.
    + intros j' Hj'. apply Hjs. now right.
    + refine (conj _ (conj _ _)); auto.
      intros r. apply (same_but_distance_trans (S1 r) (S2 r)).
Qed.

(** One turn of the loop over the objectives, on a non-empty array of
    evaluated elements. *)
Lemma crowdingDistance_turn_invariant (h : Heap) (es : list ref) :
  es <> [] ->
  (forall r, In r es -> evaluated count h r) ->
  exists h',
    crowdingDistance_turn i (h, es)
    = Some (h', JS.sort (by_objective h i) es)
    /\ (forall r, same_but_distance (h r) (h' r))
    /\ (forall r, real_or_infinite (distance_at h r) ->
                  real_or_infinite (distance_at h' r))
    /\ (forall r, distance_at h r = JS.PInf -> distance_at h' r = JS.PInf)
    /\ (forall r, extreme (JS.sort (by_objective h i) es) r ->
                  distance_at h' r = JS.PInf).
Proof.
  intros Hne Hev. unfold crowdingDistance_turn.
  rewrite (@evaluated_has_evaluation count h es Hev), andb_false_r.
  set (es' := JS.sort (by_objective h i) es).
  assert (Hne' : es' <> []) by now apply sort_nonempty.
  assert (Hlen : (0 < length es')%nat).
  { destruct es'; [congruence | cbn; lia]. }
  destruct (nth_error es' 0) as [first |] eqn:Efirst;
    [| apply nth_error_None in Efirst; lia].
  destruct (nth_error es' (length es' - 1)) as [last |] eqn:Elast;
    [| apply nth_error_None in Elast; lia].
  set (h1 := modify h first (Element.set_crowdingDistance JS.PInf)).
  set (h2 := modify h1 last (Element.set_crowdingDistance JS.PInf)).
  assert (S12 : forall r, same_but_distance (h r) (h2 r)).
  { intros r. eapply same_but_distance_trans; apply modify_distance_same. }
  destruct (@interior_loop_invariant es' (seq 1 (length es' - 2)) h2)
    as (S3 & R3 & I3).
  { intros r Hr. apply (@evaluated_same h _ S12), Hev, (sort_In (by_objective h i) es), Hr. }
  { intros j Hj. apply in_seq in Hj. lia. }
  eexists. split; [reflexivity |].
  assert (R12 : forall r, real_or_infinite (distance_at h r) ->
                          real_or_infinite (distance_at h2 r)).
  { intros r Hr. subst h2 h1.
    destruct (Nat.eq_dec r last) as [-> | N2];
      [now rewrite modify_distance_eq | rewrite modify_distance_neq by assumption].
    destruct (Nat.eq_dec r first) as [-> | N1];
      [now rewrite modify_distance_eq | now rewrite modify_distance_neq]. }
  assert (I12 : forall r, distance_at h r = JS.PInf ->
                          distance_at h2 r = JS.PInf).
  { intros r Hr. subst h2 h1.
    destruct (Nat.eq_dec r last) as [-> | N2];
      [now rewrite modify_distance_eq | rewrite modify_distance_neq by assumption].
    destruct (Nat.eq_dec r first) as [-> | N1];
      [now rewrite modify_distance_eq | now rewrite modify_distance_neq]. }
  refine (conj _ (conj _ (conj _ _))).
  - intros r. apply (same_but_distance_trans (S12 r) (S3 r)).
  - auto.
  - auto.
  - intros r [Hr | Hr]; apply I3; subst h2 h1.
    + assert (r = first) by congruence. subst r.
      destruct (Nat.eq_dec first last) as [-> | N];
        [now rewrite modify_distance_eq | ].
      rewrite modify_distance_neq by assumption. apply modify_distance_eq.
    + assert (r = last) by congruence. subst r. apply modify_distance_eq.
Qed.

End Invariant.

(** The loop over the objectives. *)
Lemma crowdingDistance_turns_invariant (count : nat) (indices : list nat)
  (h : Heap) (es : list ref) :
  (forall i, In i indices -> (i < count)%nat) ->
  es <> [] ->
  (forall r, In r es -> evaluated count h r) ->
  exists h' es',
    for_each crowdingDistance_turn indices (h, es) = Some (h', es')
    /\ Permutation es' es
    /\ (forall r, same_but_distance (h r) (h' r))
    /\ (forall r, real_or_infinite (distance_at h r) ->
                  real_or_infinite (distance_at h' r))
    /\ (forall r, distance_at h r = JS.PInf -> distance_at h' r = JS.PInf).
Proof.
  revert h es. induction indices as [| i indices IH]; intros h es Hi Hne Hev.
  - exists h, es. refine (conj eq_refl (conj _ (conj _ (conj _ _)))); auto.
    intros r. apply same_but_distance_refl.
  - cbn [for_each].
    destruct (@crowdingDistance_turn_invariant count i (Hi i (or_introl eq_refl))
                h es Hne Hev) as (h1 & E1 & S1 & R1 & I1 & _).
    rewrite E1.
    destruct (IH h1 (JS.sort (by_objective h i) es))
      as (h' & es' & E2 & P2 & S2 & R2 & I2).
    + intros k Hk. apply Hi. now right.
    + now apply sort_nonempty.
    + intros r Hr. apply (@evaluated_same h _ S1), Hev.
      now apply (sort_In (by_objective h i) es).
    + exists h', es'. refine (conj E2 (conj _ (conj _ (conj _ _)))); auto.
      * rewrite P2. apply sort_permutation.
      * intros r. apply (same_but_distance_trans (S1 r) (S2 r)).
Qed.

(** The first loop gives every element of the array the distance 0. *)
Lemma crowdingDistance_reset (elements : list ref) (h : Heap) (r : ref) :
  let h0 := fold_left
              (fun h r => modify h r (Element.set_crowdingDistance JS.zero))
              elements h in
  (In r elements -> distance_at h0 r = JS.zero)
  /\ same_but_distance (h r) (h0 r).
Proof.
  cbn zeta. destruct (in_dec Nat.eq_dec r elements) as [Hin | Hout].
  - unfold distance_at.
    rewrite fold_modify_in by (assumption || reflexivity).
    split; [reflexivity | now repeat split].
  - rewrite fold_modify_out by assumption.
    split; [contradiction | apply same_but_distance_refl].
Qed.

(** On a non-empty array of evaluated elements [crowdingDistance]
    completes; it changes nothing but the distances, and the distance of
    every element of the array is then a real number or +infinity. *)
Lemma crowdingDistance_completes (P : Problem) (elements : list ref) (h : Heap) :
  elements <> [] ->
  (forall r, In r elements -> evaluated (objectives P) h r) ->
  exists h',
    crowdingDistance P elements h = Some h'
    /\ (forall r, same_but_distance (h r) (h' r))
    /\ (forall r, In r elements -> real_or_infinite (distance_at h' r)).
Proof.
  intros Hne Hev. unfold crowdingDistance.
  set (h0 := fold_left _ elements h).
  assert (Hreset : forall r, (In r elements -> distance_at h0 r = JS.zero)
                             /\ same_but_distance (h r) (h0 r))
    by (intros r; apply crowdingDistance_reset).
  destruct (@crowdingDistance_turns_invariant (objectives P)
              (seq 0 (objectives P)) h0 elements)
    as (h' & es' & E & _ & S & R & _).
  - intros i Hi. apply in_seq in Hi. lia.
  - exact Hne.
  - intros r Hr. apply (@evaluated_same h _ (fun r => proj2 (Hreset r))), Hev, Hr.
  - rewrite E. exists h'. refine (conj eq_refl (conj _ _)).
    + intros r. apply (same_but_distance_trans (proj2 (Hreset r)) (S r)).
    + intros r Hr. apply R. now rewrite (proj1 (Hreset r) Hr).
Qed.

(** C10, as the code has it.  On every non-empty array of evaluated
    elements [crowdingDistance] completes and every element of the array
    gets a crowding distance that is a real number or +infinity.  On the
    empty array it throws when the problem has at least one objective (the
    first turn of the loop over the objectives reads item 0 of the empty
    copy), and returns normally when the problem has none. *)
Theorem crowdingDistance_requires_nonempty (P : Problem) (h : Heap) :
  (forall elements,
      elements <> [] ->
      (forall r, In r elements -> evaluated (objectives P) h r) ->
      exists h',
        crowdingDistance P elements h = Some h'
        /\ forall r, In r elements ->
             exists d, Element.crowdingDistance (h' r) = Some d
                       /\ real_or_infinite d)
  /\ ((1 <= objectives P)%nat -> crowdingDistance P [] h = None)
  /\ (objectives P = 0%nat -> crowdingDistance P [] h = Some h).
Proof.
  refine (conj _ (conj _ _)).
  - intros elements Hne Hev.
    destruct (@crowdingDistance_completes P elements h Hne Hev) as (h' & E & _ & R).
    exists h'. split; [exact E |]. intros r Hr. specialize (R r Hr).
    unfold distance_at in R.
    destruct (Element.crowdingDistance (h' r)) as [d |]; [| contradiction].
    now exists d.
  - intros Hcount. unfold crowdingDistance.
    destruct (objectives P) as [| n]; [lia | reflexivity].
  - intros Hcount. unfold crowdingDistance. now rewrite Hcount.
Qed.

End CrowdingDistance.

Section CrowdingDistanceExamples.

Import Metaheuristic Crowding.

(** The distances of the five points: the ends of the front are at
    +infinity, and the three points between them (which are interior for
    both objectives) get 3 + 6, 5 + 2 and 4 + 3. *)
Example crowdingDistance_five_points :
  option_map (fun h' => map (distance_at h') [0; 1; 2; 3; 4])
             (crowdingDistance Examples.biobjective [0; 1; 2; 3; 4]
                               Examples.five_points)
  = Some [JS.PInf; Examples.q 9; Examples.q 7; Examples.q 7; JS.PInf].
Proof. vm_compute. reflexivity. Qed.

Lemma five_points_evaluated (r : ref) :
  evaluated 2 Examples.five_points r.
Proof.
  unfold evaluated, Examples.five_points, Examples.scored.
  cbn [Element.evaluation Element.set_evaluation]. eexists. split; [reflexivity |].
  destruct r as [| [| [| [| r]]]]; split; try reflexivity; repeat constructor.
Qed.

(** The theorem at the five points. *)
Lemma crowdingDistance_requires_nonempty_witness :
  [0; 1; 2; 3; 4] <> []
  /\ (forall r, In r [0; 1; 2; 3; 4] -> evaluated 2 Examples.five_points r)
  /\ (exists h',
        crowdingDistance Examples.biobjective [0; 1; 2; 3; 4] Examples.five_points
        = Some h'
        /\ exists d, Element.crowdingDistance (h' 2) = Some d
                     /\ real_or_infinite d)
  /\ crowdingDistance Examples.biobjective [] Examples.five_points = None
  /\ crowdingDistance Examples.no_objective [] Examples.five_points
     = Some Examples.five_points.
Proof.
  assert (Hne : [0; 1; 2; 3; 4] <> []) by discriminate.
  assert (Hev : forall r, In r [0; 1; 2; 3; 4] ->
                  evaluated (objectives Examples.biobjective) Examples.five_points r)
    by (intros r _; apply five_points_evaluated).
  destruct (crowdingDistance_requires_nonempty Examples.biobjective
              Examples.five_points) as (H1 & H2 & _).
  destruct (crowdingDistance_requires_nonempty Examples.no_objective
              Examples.five_points) as (_ & _ & H3).
  destruct (H1 _ Hne Hev) as (h' & E & R).
  refine (conj Hne (conj Hev (conj _ (conj _ _)))).
  - exists h'. split; [exact E |]. apply R. cbn. tauto.
  - apply H2. cbn. lia.
  - apply H3. reflexivity.
Defined.

(** C10 as stated, refuted: for a problem without objectives the loop over
    the objectives has no turn, and [crowdingDistance] of the empty array
    returns normally. *)
Lemma crowdingDistance_empty_without_objectives :
  crowdingDistance Examples.no_objective [] Examples.five_points <> None.
Proof. discriminate. Qed.

End CrowdingDistanceExamples.

(* ================================================================== *)
(** * crowdingDistance on arrays of distinct elements                   *)
(* ================================================================== *)

Section CrowdingDistanceExact.

Import Metaheuristic Crowding.

(** ** Positions *)

Lemma index_of_nth_error (r : ref) (es : list ref) :
  In r es -> nth_error es (index_of r es) = Some r.
Proof.
  induction es as [| x es IH]; intros Hin; [contradiction |].
  cbn [index_of]. destruct (Nat.eqb_spec r x) as [-> | Hne]; [reflexivity |].
  cbn. apply IH. destruct Hin as [-> | Hin]; [congruence | exact Hin].
Qed.

Lemma index_of_lt (r : ref) (es : list ref) :
  In r es -> (index_of r es < length es)%nat.
Proof.
  intros Hin. apply nth_error_Some. now rewrite index_of_nth_error.
Qed.

Lemma index_of_nth (r : ref) (es : list ref) :
  In r es -> nth (index_of r es) es O = r.
Proof.
  intros Hin. apply nth_error_nth. now apply index_of_nth_error.
Qed.

Lemma index_of_unique (r : ref) (es : list ref) (j : nat) :
  NoDup es -> nth_error es j = Some r -> index_of r es = j.
Proof.
  intros Hnodup Hj.
  assert (Hin : In r es) by (eapply nth_error_In, Hj).
  pose proof (index_of_nth_error r es Hin) as Hi.
  rewrite NoDup_nth_error in Hnodup.
  apply Hnodup; [now apply index_of_lt | congruence].
Qed.

Lemma nth_distinct (es : list ref) (j j' : nat) :
  NoDup es -> (j < length es)%nat -> (j' < length es)%nat -> j <> j' ->
  nth j es O <> nth j' es O.
Proof.
  intros Hnodup Hj Hj' Hne E. apply Hne.
  rewrite (NoDup_nth es O) in Hnodup. now apply Hnodup.
Qed.

(** ** The loop over the interior positions *)

Lemma crowd_interior_same (i : nat) (es : list ref) (h : Heap) (j : nat)
  (r : ref) :
  same_but_distance (h r) (crowd_interior i es h j r).
Proof. unfold crowd_interior. apply modify_distance_same. Qed.

Lemma interior_loop_exact (i : nat) (es : list ref) (js : list nat) (h : Heap) :
  NoDup es -> NoDup js ->
  (forall j, In j js -> (j < length es)%nat) ->
  let h' := fold_left (crowd_interior i es) js h in
  (forall r, same_but_distance (h r) (h' r))
  /\ (forall r, (forall j, In j js -> nth j es O <> r) -> h' r = h r)
  /\ (forall j, In j js ->
        distance_at h' (nth j es O)
        = JS.add (distance_at h (nth j es O))
                 (JS.sub (JS.item (evaluation_at h (nth (j + 1) es O)) i)
                         (JS.item (evaluation_at h (nth (j - 1) es O)) i))).
Proof.
  intros Hes. revert h.
  induction js as [| j js IH]; intros h Hjs Hlt; cbn zeta in *; cbn [fold_left].
  - refine (conj _ (conj _ _)); [| reflexivity | intros ? []].
    intros r. apply same_but_distance_refl.
  - inversion Hjs as [| ? ? Hout Hjs']; subst.
    set (h1 := crowd_interior i es h j).
    assert (S1 : forall r, same_but_distance (h r) (h1 r))
      by (intros r; apply crowd_interior_same).
    destruct (IH h1 Hjs' (fun k Hk => Hlt k (or_intror Hk))) as (S2 & U2 & D2).
    refine (conj _ (conj _ _)).
    + intros r. apply (same_but_distance_trans (S1 r) (S2 r)).
    + intros r Hr. rewrite U2 by (intros k Hk; apply Hr; now right).
      unfold h1, crowd_interior. apply modify_neq.
      intros ->. now apply (Hr j (or_introl eq_refl)).
    + intros k [<- | Hk].
      * unfold distance_at at 1. rewrite U2.
        -- unfold h1, crowd_interior. now rewrite modify_eq.
        -- intros k Hk. apply nth_distinct; [assumption | | | ].
           ++ apply Hlt. now right.
           ++ apply Hlt. now left.
           ++ intros ->. contradiction.
      * rewrite (D2 k Hk). rewrite !(@evaluation_at_same h h1 S1).
        f_equal. unfold h1, crowd_interior. apply modify_distance_neq.
        apply nth_distinct; [assumption | | | ].
        -- apply Hlt. now right.
        -- apply Hlt. now left.
        -- intros ->. contradiction.
Qed.

(** ** One turn of the loop over the objectives *)

Lemma crowdingDistance_turn_exact (count i : nat) (h : Heap) (es : list ref) :
  es <> [] -> NoDup es ->
  (forall r, In r es -> evaluated count h r) ->
  let es' := JS.sort (by_objective h i) es in
  exists h',
    crowdingDistance_turn i (h, es) = Some (h', es')
    /\ forall r, In r es ->
         distance_at h' r
         = if first_or_last es' r then JS.PInf
           else JS.add (distance_at h r) (gap h es' i r).
Proof.
  intros Hne Hnodup Hev es'. unfold crowdingDistance_turn.
  rewrite (@evaluated_has_evaluation count h es Hev), andb_false_r.
  fold es'.
  assert (Hnodup' : NoDup es') by now apply sort_NoDup.
  assert (Hlen : (0 < length es')%nat).
  { assert (es' <> []) by now apply sort_nonempty.
    destruct es'; [congruence | cbn; lia]. }
  destruct (nth_error es' 0) as [first |] eqn:Efirst;
    [| apply nth_error_None in Efirst; lia].
  destruct (nth_error es' (length es' - 1)) as [last |] eqn:Elast;
    [| apply nth_error_None in Elast; lia].
  set (h1 := modify h first (Element.set_crowdingDistance JS.PInf)).
  set (h2 := modify h1 last (Element.set_crowdingDistance JS.PInf)).
  assert (S12 : forall r, same_but_distance (h r) (h2 r)).
  { intros r. eapply same_but_distance_trans; apply modify_distance_same. }
  destruct (@interior_loop_exact i es' (seq 1 (length es' - 2)) h2 Hnodup')
    as (S3 & U3 & D3).
  { apply seq_NoDup. }
  { intros j Hj. apply in_seq in Hj. lia. }
  eexists. split; [reflexivity |].
  intros r Hr. apply (sort_In (by_objective h i) es) in Hr. fold es' in Hr.
  pose proof (index_of_lt r es' Hr) as Hj.
  pose proof (index_of_nth r es' Hr) as Hnth.
  assert (Hfirst : index_of first es' = 0%nat)
    by now apply index_of_unique.
  assert (Hlast : index_of last es' = (length es' - 1)%nat)
    by now apply index_of_unique.
  unfold first_or_last.
  destruct (Nat.eqb_spec (index_of r es') 0) as [E0 | N0];
    [| destruct (Nat.eqb_spec (index_of r es') (length es' - 1)) as [E1 | N1]];
    cbn [orb].
  - (* the first item *)
    assert (r = first).
    { rewrite E0 in Hnth. rewrite <- Hnth. now apply nth_error_nth. }
    subst r. unfold distance_at at 1. rewrite U3.
    + fold (distance_at h2 first).
      unfold h2, h1. destruct (Nat.eq_dec first last) as [-> | N];
        [apply modify_distance_eq |].
      rewrite modify_distance_neq by assumption. apply modify_distance_eq.
    + intros j Hj'. apply in_seq in Hj'. rewrite <- Hnth, E0.
      apply nth_distinct; [assumption | lia | lia | lia].
  - (* the last item *)
    assert (r = last).
    { rewrite E1 in Hnth. rewrite <- Hnth. now apply nth_error_nth. }
    subst r. unfold distance_at at 1. rewrite U3.
    + fold (distance_at h2 last). unfold h2. apply modify_distance_eq.
    + intros j Hj'. apply in_seq in Hj'. rewrite <- Hnth, E1.
      apply nth_distinct; [assumption | lia | lia | lia].
  - (* an interior item *)
    assert (Hin : In (index_of r es') (seq 1 (length es' - 2)))
      by (apply in_seq; lia).
    specialize (D3 _ Hin). rewrite Hnth in D3. rewrite D3.
    rewrite !(@evaluation_at_same h h2 S12). unfold gap. f_equal.
    unfold h2, h1.
    assert (r <> first) by (intros ->; congruence).
    assert (r <> last) by (intros ->; congruence).
    now rewrite !modify_distance_neq.
Qed.

(** ** The loop over the objectives *)

Lemma for_each_app (S : Type) (body : nat -> S -> option S) (l1 l2 : list nat)
  (s : S) :
  for_each body (l1 ++ l2) s
  = match for_each body l1 s with
    | Some s' => for_each body l2 s'
    | None => None
    end.
Proof.
  revert s. induction l1 as [| i l1 IH]; intros s; cbn [app for_each];
    [reflexivity |].
  destruct (body i s); [apply IH | reflexivity].
Qed.

Lemma rankings_permutation (h : Heap) (indices : list nat) (es : list ref) :
  Permutation
    (fold_left (fun es k => JS.sort (by_objective h k) es) indices es) es.
Proof.
  revert es. induction indices as [| k indices IH]; intros es; cbn [fold_left];
    [reflexivity |].
  rewrite IH. apply sort_permutation.
Qed.

Lemma ranking_permutation (h : Heap) (elements : list ref) (i : nat) :
  Permutation (ranking h elements i) elements.
Proof. apply rankings_permutation. Qed.

Lemma rankings_step (h : Heap) (elements : list ref) (c : nat) :
  fold_left (fun es k => JS.sort (by_objective h k) es) (seq 0 (S c)) elements
  = JS.sort (by_objective h c)
      (fold_left (fun es k => JS.sort (by_objective h k) es) (seq 0 c) elements).
Proof. now rewrite seq_S, fold_left_app. Qed.

Section SameRankings.

Variables h h' : Heap.

Hypothesis same : forall r, same_but_distance (h r) (h' r).

Lemma rankings_same (indices : list nat) (es : list ref) :
  fold_left (fun es k => JS.sort (by_objective h' k) es) indices es
  = fold_left (fun es k => JS.sort (by_objective h k) es) indices es.
Proof.
  revert es. induction indices as [| k indices IH]; intros es; cbn [fold_left];
    [reflexivity |].
  now rewrite IH, (@sort_by_objective_same h h' same).
Qed.

Lemma ranking_same (elements : list ref) (i : nat) :
  ranking h' elements i = ranking h elements i.
Proof. apply rankings_same. Qed.

Lemma gap_same (es : list ref) (i : nat) (r : ref) :
  gap h' es i r = gap h es i r.
Proof. unfold gap. now rewrite !(@evaluation_at_same h h' same). Qed.

Lemma described_same (elements : list ref) (count : nat) (r : ref) :
  described h' elements count r = described h elements count r.
Proof.
  induction count as [| c IH]; cbn [described]; [reflexivity |].
  now rewrite IH, ranking_same, gap_same.
Qed.

End SameRankings.

(** The state after the turns for the first [c] objectives. *)
Lemma crowdingDistance_turns (count : nat) (h : Heap) (elements : list ref)
  (c : nat) :
  (c <= count)%nat ->
  elements <> [] ->
  (forall r, In r elements -> evaluated count h r) ->
  exists h',
    for_each crowdingDistance_turn (seq 0 c) (h, elements)
    = Some (h', fold_left (fun es k => JS.sort (by_objective h k) es)
                          (seq 0 c) elements)
    /\ (forall r, same_but_distance (h r) (h' r))
    /\ (forall i r, (i < c)%nat -> extreme (ranking h elements i) r ->
          distance_at h' r = JS.PInf)
    /\ (NoDup elements ->
        (forall r, In r elements -> distance_at h r = JS.zero) ->
        forall r, In r elements ->
          distance_at h' r = described h elements c r).
Proof.
  intros Hc Hne Hev. induction c as [| c IH].
  - exists h. refine (conj eq_refl (conj _ (conj _ _))).
    + intros r. apply same_but_distance_refl.
    + intros i r Hi. lia.
    + intros _ H0 r Hr. now apply H0.
  - destruct IH as (hc & Ec & Sc & Xc & Dc); [lia |].
    set (rank := fold_left (fun es k => JS.sort (by_objective h k) es)
                           (seq 0 c) elements) in *.
    assert (Hperm : Permutation rank elements) by apply rankings_permutation.
    assert (Hne' : rank <> []).
    { intros E. rewrite E in Hperm. apply Permutation_nil in Hperm. congruence. }
    assert (Hev' : forall r, In r rank -> evaluated count hc r).
    { intros r Hr. apply (@evaluated_same h hc Sc), Hev.
      now apply (Permutation_in _ Hperm). }
    assert (Hlt : (c < count)%nat) by lia.
    destruct (@crowdingDistance_turn_invariant count c Hlt hc rank Hne' Hev')
      as (h' & E & S & _ & I & X).
    rewrite (@sort_by_objective_same h hc Sc) in E, X.
    exists h'. rewrite rankings_step. fold rank.
    refine (conj _ (conj _ (conj _ _))).
    + rewrite seq_S, for_each_app, Ec. cbn [Nat.add for_each]. now rewrite E.
    + intros r. apply (same_but_distance_trans (Sc r) (S r)).
    + intros i r Hi Hx. destruct (Nat.eq_dec i c) as [-> | Hic].
      * apply X. unfold ranking in Hx. rewrite rankings_step in Hx. exact Hx.
      * apply I, (Xc i r); [lia | exact Hx].
    + intros Hnodup H0 r Hr.
      assert (Hnodup' : NoDup rank)
        by (apply (Permutation_NoDup (Permutation_sym Hperm)), Hnodup).
      destruct (@crowdingDistance_turn_exact count c hc rank Hne' Hnodup' Hev')
        as (h'' & E' & D).
      rewrite (@sort_by_objective_same h hc Sc) in E', D.
      assert (h'' = h') by congruence. subst h''.
      rewrite D by (apply (Permutation_in _ (Permutation_sym Hperm)), Hr).
      cbn [described]. unfold ranking. rewrite rankings_step. fold rank.
      rewrite (@gap_same h hc Sc). now rewrite (Dc Hnodup H0 r Hr).
Qed.

(** What [crowdingDistance] leaves in a non-empty array of evaluated
    elements. *)
Lemma crowdingDistance_described (P : Problem) (elements : list ref) (h : Heap) :
  elements <> [] ->
  (forall r, In r elements -> evaluated (objectives P) h r) ->
  exists h',
    crowdingDistance P elements h = Some h'
    /\ (forall r, same_but_distance (h r) (h' r))
    /\ (forall i r, (i < objectives P)%nat ->
          extreme (ranking h elements i) r -> distance_at h' r = JS.PInf)
    /\ (NoDup elements ->
        forall r, In r elements ->
          distance_at h' r = described h elements (objectives P) r).
Proof.
  intros Hne Hev. unfold crowdingDistance.
  set (h0 := fold_left _ elements h).
  assert (Hreset : forall r, (In r elements -> distance_at h0 r = JS.zero)
                             /\ same_but_distance (h r) (h0 r))
    by (intros r; apply crowdingDistance_reset).
  assert (S0 : forall r, same_but_distance (h r) (h0 r))
    by (intros r; apply Hreset).
  destruct (@crowdingDistance_turns (objectives P) h0 elements (objectives P))
    as (h' & E & S & X & D).
  - lia.
  - exact Hne.
  - intros r Hr. apply (@evaluated_same h h0 S0), Hev, Hr.
  - rewrite E. exists h'. refine (conj eq_refl (conj _ (conj _ _))).
    + intros r. apply (same_but_distance_trans (S0 r) (S r)).
    + intros i r Hi Hx. apply (X i r Hi).
      now rewrite (@ranking_same h h0 S0).
    + intros Hnodup r Hr.
      rewrite (D Hnodup (fun r Hr => proj1 (Hreset r) Hr) r Hr).
      apply (@described_same h h0 S0).
Qed.

(** ** The rankings are ascending *)

Lemma gtb_sub_real (a b : Q) :
  JS.gtb (JS.sub (JS.Fin a) (JS.Fin b)) JS.zero = true <-> (b < a)%Q.
Proof.
  unfold JS.gtb, JS.sub, JS.zero. cbn [JS.opp JS.add JS.ltb].
  destruct (Qcompare_spec 0 (a + - b)) as [E | E | E];
    split; intros H; try discriminate; try reflexivity; lra.
Qed.

Lemma leb_real (a b : Q) :
  JS.leb (JS.Fin a) (JS.Fin b) = true <-> (a <= b)%Q.
Proof.
  cbn [JS.leb].
  destruct (Qcompare_spec a b) as [E | E | E];
    split; intros H; try discriminate; try reflexivity; lra.
Qed.

Lemma ranking_sorted (count : nat) (h : Heap) (elements : list ref) (i : nat) :
  (i < count)%nat ->
  (forall r, In r elements -> evaluated count h r) ->
  StronglySorted (below h i) (ranking h elements i).
Proof.
  intros Hi Hev. unfold ranking. rewrite rankings_step.
  apply sort_sorted with (D := evaluated count h).
  - intros x y Dx Dy H. unfold below, by_objective in *.
    destruct (evaluated_item Dx Hi) as (a & Ea).
    destruct (evaluated_item Dy Hi) as (b & Eb).
    rewrite Ea, Eb in *. apply leb_real.
    destruct (Qlt_le_dec b a) as [Hlt | Hle]; [| exact Hle].
    apply gtb_sub_real in Hlt. congruence.
  - intros x y Dx Dy H. unfold below, by_objective in *.
    destruct (evaluated_item Dx Hi) as (a & Ea).
    destruct (evaluated_item Dy Hi) as (b & Eb).
    rewrite Ea, Eb in *. apply leb_real. apply gtb_sub_real in H. lra.
  - intros x y z Dx Dy Dz. unfold below.
    destruct (evaluated_item Dx Hi) as (a & ->).
    destruct (evaluated_item Dy Hi) as (b & ->).
    destruct (evaluated_item Dz Hi) as (c & ->).
    rewrite !leb_real. lra.
  - apply Forall_forall. intros r Hr. apply Hev.
    eapply Permutation_in; [apply rankings_permutation | exact Hr].
Qed.

Lemma below_refl (count : nat) (h : Heap) (i : nat) (r : ref) :
  (i < count)%nat -> evaluated count h r -> below h i r r.
Proof.
  intros Hi Hr. unfold below. destruct (evaluated_item Hr Hi) as (a & ->).
  apply leb_real. lra.
Qed.

(** ** Interior elements *)

Lemma interior_not_first_or_last (es : list ref) (r : ref) :
  NoDup es -> interior es r -> first_or_last es r = false.
Proof.
  intros Hnodup (j & Hj & Hr). unfold first_or_last.
  rewrite (@index_of_unique r es j Hnodup Hr).
  destruct (Nat.eqb_spec j 0); [lia |].
  destruct (Nat.eqb_spec j (length es - 1)); [lia | reflexivity].
Qed.

Lemma neighbour_sum_step (h : Heap) (elements : list ref) (c : nat) (r : ref) :
  neighbour_sum h elements (S c) r
  = JS.add (neighbour_sum h elements c r) (gap h (ranking h elements c) c r).
Proof. unfold neighbour_sum. now rewrite seq_S, fold_left_app. Qed.

Lemma described_interior (h : Heap) (elements : list ref) (count : nat)
  (r : ref) :
  (forall i, (i < count)%nat -> first_or_last (ranking h elements i) r = false) ->
  described h elements count r = neighbour_sum h elements count r.
Proof.
  induction count as [| c IH]; intros H; [reflexivity |].
  cbn [described]. rewrite neighbour_sum_step, H by lia.
  rewrite IH; [reflexivity |]. intros i Hi. apply H. lia.
Qed.

(** ** Identical evaluation vectors *)

Lemma same_values_not_above (v1 v2 : list JS.num) (k : nat) :
  Props.same_values v1 v2 ->
  JS.gtb (JS.sub (JS.item v1 k) (JS.item v2 k)) JS.zero = false.
Proof.
  intros H. revert k. induction H as [| a b v1 v2 Hab H IH]; intros k.
  - now destruct k.
  - destruct k as [| k]; [| apply IH]. unfold JS.item. cbn [nth].
    destruct a as [x | | |], b as [y | | |]; try contradiction; try reflexivity.
    cbn [JS.same] in Hab.
    destruct (JS.gtb (JS.sub (JS.Fin x) (JS.Fin y)) JS.zero) eqn:E;
      [| reflexivity].
    apply gtb_sub_real in E. lra.
Qed.

Lemma same_values_real_item (v1 v2 : list JS.num) (k : nat) :
  Props.same_values v1 v2 ->
  forall a b, JS.item v1 k = JS.Fin a -> JS.item v2 k = JS.Fin b -> (a == b)%Q.
Proof.
  intros H. revert k. induction H as [| x y v1 v2 Hxy H IH]; intros k a b.
  - now destruct k.
  - destruct k as [| k]; [| apply IH]. unfold JS.item. cbn [nth].
    intros -> ->. exact Hxy.
Qed.

Section Identical.

Variables (count : nat) (h : Heap) (elements : list ref).

Hypothesis all_evaluated : forall r, In r elements -> evaluated count h r.
Hypothesis identical :
  forall r r', In r elements -> In r' elements ->
    Props.same_values (evaluation_at h r) (evaluation_at h r').

(** No sort moves an element. *)
Lemma identical_rankings (indices : list nat) :
  fold_left (fun es k => JS.sort (by_objective h k) es) indices elements
  = elements.
Proof.
  induction indices as [| k indices IH] using rev_ind; [reflexivity |].
  rewrite fold_left_app. cbn [fold_left]. rewrite IH.
  apply sort_unchanged. intros x y Hx Hy. unfold by_objective.
  now apply same_values_not_above, identical.
Qed.

Lemma identical_ranking (i : nat) : ranking h elements i = elements.
Proof. apply identical_rankings. Qed.

Lemma identical_described (c : nat) (r : ref) :
  (c <= count)%nat -> NoDup elements -> interior elements r ->
  JS.same (described h elements c r) JS.zero.
Proof.
  intros Hc Hnodup Hint. induction c as [| c IH]; [reflexivity |].
  cbn [described]. rewrite identical_ranking.
  rewrite (@interior_not_first_or_last elements r Hnodup Hint).
  destruct Hint as (j & Hj & Hr).
  assert (Hc' : (c < count)%nat) by lia.
  unfold gap. rewrite (@index_of_unique r elements j Hnodup Hr).
  assert (Hnext : In (nth (j + 1) elements O) elements) by (apply nth_In; lia).
  assert (Hprev : In (nth (j - 1) elements O) elements) by (apply nth_In; lia).
  destruct (evaluated_item (all_evaluated (nth (j + 1) elements O) Hnext) Hc') as (a & Ea).
  destruct (evaluated_item (all_evaluated (nth (j - 1) elements O) Hprev) Hc') as (b & Eb).
  pose proof (@same_values_real_item _ _ c (identical _ _ Hnext Hprev) a b Ea Eb) as Hab.
  rewrite Ea, Eb.
  assert (IH' : JS.same (described h elements c r) JS.zero) by (apply IH; lia).
  destruct (described h elements c r) as [d | | |]; try contradiction.
  cbn in IH' |- *. lra.
Qed.

End Identical.

(** C5.  On a non-empty array of evaluated elements [crowdingDistance]
    completes, and then:
    - for every objective, the ranking of that objective is the array in
      ascending order of the objective; its first element is minimal and
      its last element maximal in the objective, and both end with the
      distance +infinity;
    - when the array holds every element once, an element that is interior
      in the ranking of every objective ends with the sum, over the
      objectives, of the value of its next neighbour minus the value of its
      previous neighbour in that ranking;
    - when moreover all elements have the same evaluation vector, every
      interior element of the array ends with a distance equal to 0. *)
Theorem crowdingDistance_extremes_and_interior (P : Problem)
  (elements : list ref) (h : Heap) :
  elements <> [] ->
  (forall r, In r elements -> evaluated (objectives P) h r) ->
  exists h',
    crowdingDistance P elements h = Some h'
    /\ (forall i, (i < objectives P)%nat ->
          Permutation (ranking h elements i) elements
          /\ (forall lo, nth_error (ranking h elements i) 0 = Some lo ->
                distance_at h' lo = JS.PInf
                /\ forall r, In r elements -> below h i lo r)
          /\ (forall hi,
                nth_error (ranking h elements i)
                          (length (ranking h elements i) - 1) = Some hi ->
                distance_at h' hi = JS.PInf
                /\ forall r, In r elements -> below h i r hi))
    /\ (NoDup elements ->
        forall r, In r elements ->
          (forall i, (i < objectives P)%nat ->
             interior (ranking h elements i) r) ->
          distance_at h' r = neighbour_sum h elements (objectives P) r)
    /\ (NoDup elements ->
        (forall r r', In r elements -> In r' elements ->
           Props.same_values (evaluation_at h r) (evaluation_at h r')) ->
        forall r, interior elements r -> JS.same (distance_at h' r) JS.zero).
Proof.
  intros Hne Hev.
  destruct (@crowdingDistance_described P elements h Hne Hev)
    as (h' & E & _ & X & D).
  exists h'. refine (conj E (conj _ (conj _ _))).
  - intros i Hi.
    pose proof (ranking_permutation h elements i) as Hperm.
    pose proof (@ranking_sorted (objectives P) h elements i Hi Hev) as Hsorted.
    refine (conj Hperm (conj _ _)).
    + intros lo Hlo. split; [apply (X i lo Hi); now left |].
      intros r Hr. apply (sorted_first (le := below h i) (l := ranking h elements i)).
      * apply (@below_refl (objectives P) h i lo Hi), Hev.
        eapply Permutation_in; [exact Hperm | eapply nth_error_In, Hlo].
      * exact Hsorted.
      * exact Hlo.
      * eapply Permutation_in; [apply Permutation_sym, Hperm | exact Hr].
    + intros hi Hhi. split; [apply (X i hi Hi); now right |].
      intros r Hr. apply (sorted_last (le := below h i) (l := ranking h elements i)).
      * apply (@below_refl (objectives P) h i hi Hi), Hev.
        eapply Permutation_in; [exact Hperm | eapply nth_error_In, Hhi].
      * exact Hsorted.
      * exact Hhi.
      * eapply Permutation_in; [apply Permutation_sym, Hperm | exact Hr].
  - intros Hnodup r Hr Hint. rewrite (D Hnodup r Hr).
    apply described_interior. intros i Hi.
    apply interior_not_first_or_last; [| now apply Hint].
    apply (Permutation_NoDup (Permutation_sym (ranking_permutation h elements i))).
    exact Hnodup.
  - intros Hnodup Hsame r Hint.
    assert (Hr : In r elements).
    { destruct Hint as (j & _ & Hj). eapply nth_error_In, Hj. }
    rewrite (D Hnodup r Hr).
    now apply (@identical_described (objectives P) h elements Hev Hsame).
Qed.

End CrowdingDistanceExact.

Section CrowdingDistanceWitness.

Import Metaheuristic Crowding.

Lemma one_point_evaluated (r : ref) : evaluated 2 Examples.one_point r.
Proof.
  unfold evaluated, Examples.one_point, Examples.scored.
  cbn [Element.evaluation Element.set_evaluation]. eexists.
  split; [reflexivity |]. split; [reflexivity | repeat constructor].
Qed.

Lemma five_points_rankings :
  ranking Examples.five_points [0; 1; 2; 3; 4] 0 = [0; 1; 2; 3; 4]
  /\ ranking Examples.five_points [0; 1; 2; 3; 4] 1 = [4; 3; 2; 1; 0].
Proof. split; vm_compute; reflexivity. Qed.

(** The theorem at the five points, where element 2 is interior in both
    rankings, and at three elements with the same evaluation. *)
Lemma crowdingDistance_extremes_and_interior_witness :
  (exists h',
      crowdingDistance Examples.biobjective [0; 1; 2; 3; 4] Examples.five_points
      = Some h'
      /\ distance_at h' 0 = JS.PInf
      /\ distance_at h' 4 = JS.PInf
      /\ distance_at h' 2
         = neighbour_sum Examples.five_points [0; 1; 2; 3; 4] 2 2)
  /\ (exists h',
        crowdingDistance Examples.biobjective [0; 1; 2] Examples.one_point
        = Some h'
        /\ JS.same (distance_at h' 1) JS.zero).
Proof.
  destruct five_points_rankings as [R0 R1].
  assert (Hnodup5 : NoDup [0; 1; 2; 3; 4])
    by (repeat constructor; cbn; intuition discriminate).
  assert (Hnodup3 : NoDup [0; 1; 2])
    by (repeat constructor; cbn; intuition discriminate).
  split.
  - destruct (@crowdingDistance_extremes_and_interior Examples.biobjective
                [0; 1; 2; 3; 4] Examples.five_points)
      as (h' & E & X & I & _).
    + discriminate.
    + intros r _. apply five_points_evaluated.
    + exists h'. refine (conj E (conj _ (conj _ _))).
      * destruct (X 0%nat) as (_ & Hlo & _); [cbn; lia |].
        apply (Hlo 0%nat). now rewrite R0.
      * destruct (X 0%nat) as (_ & _ & Hhi); [cbn; lia |].
        apply (Hhi 4%nat). now rewrite R0.
      * apply (I Hnodup5); [cbn; tauto |].
        intros i Hi. exists 2%nat.
        destruct i as [| [| i]]; [rewrite R0 | rewrite R1 | cbn in Hi; lia];
          (split; [cbn; lia | reflexivity]).
  - destruct (@crowdingDistance_extremes_and_interior Examples.biobjective
                [0; 1; 2] Examples.one_point)
      as (h' & E & _ & _ & Z).
    + discriminate.
    + intros r _. apply one_point_evaluated.
    + exists h'. split; [exact E |]. apply (Z Hnodup3).
      * intros r r' _ _. repeat constructor; reflexivity.
      * exists 1%nat. split; [cbn; lia | reflexivity].
Defined.

End CrowdingDistanceWitness.

(* ================================================================== *)
(** * nonDominatedSort                                                  *)
(* ================================================================== *)

Section NonDominatedSort.

Import Metaheuristic Pareto Crowding Ranking.

(** ** The comparison function *)

Lemma count_difference_zero (n1 n2 : nat) :
  Qeq_bool (inject_Z (Z.of_nat n1) + - inject_Z (Z.of_nat n2)) 0
  = Nat.eqb n1 n2.
Proof.
  destruct (Nat.eqb_spec n1 n2) as [-> | Hne].
  - apply Qeq_bool_iff. lra.
  - destruct (Qeq_bool _ 0) eqn:E; [| reflexivity].
    apply Qeq_bool_iff in E.
    assert (H : (inject_Z (Z.of_nat n1) == inject_Z (Z.of_nat n2))%Q) by lra.
    apply (proj1 (inject_Z_injective _ _)) in H. exfalso. lia.
Qed.

Lemma count_difference_positive (n1 n2 : nat) :
  JS.gtb (JS.sub (JS.of_nat n1) (JS.of_nat n2)) JS.zero = true
  <-> (n2 < n1)%nat.
Proof.
  unfold JS.of_nat, JS.of_Z. rewrite gtb_sub_real, <- Zlt_Qlt. lia.
Qed.

Lemma nonDominated_compare_cases (h : Heap) (r1 r2 : ref) :
  nonDominated_compare h r1 r2
  = if Nat.eqb (dominators_count h r1) (dominators_count h r2)
    then JS.sub (distance_at h r2) (distance_at h r1)
    else JS.sub (JS.of_nat (dominators_count h r1))
                (JS.of_nat (dominators_count h r2)).
Proof.
  unfold nonDominated_compare, JS.of_nat, JS.of_Z, JS.sub.
  cbn [JS.opp JS.add JS.or_else]. now rewrite count_difference_zero.
Qed.

(** Distances that are real or infinite are compared as expected. *)
Lemma distance_not_above (d1 d2 : JS.num) :
  real_or_infinite d1 -> real_or_infinite d2 ->
  JS.gtb (JS.sub d2 d1) JS.zero = false -> JS.leb d2 d1 = true.
Proof.
  destruct d1 as [x | | |], d2 as [y | | |]; try contradiction; intros _ _ H;
    try reflexivity; try discriminate.
  apply leb_real. destruct (Qlt_le_dec x y) as [Hlt | Hle]; [| exact Hle].
  apply gtb_sub_real in Hlt. congruence.
Qed.

Lemma distance_above (d1 d2 : JS.num) :
  real_or_infinite d1 -> real_or_infinite d2 ->
  JS.gtb (JS.sub d2 d1) JS.zero = true -> JS.leb d1 d2 = true.
Proof.
  destruct d1 as [x | | |], d2 as [y | | |]; try contradiction; intros _ _ H;
    try reflexivity; try discriminate.
  apply leb_real. apply gtb_sub_real in H. lra.
Qed.

Lemma distance_leb_trans (d1 d2 d3 : JS.num) :
  JS.leb d1 d2 = true -> JS.leb d2 d3 = true -> JS.leb d1 d3 = true.
Proof.
  destruct d1 as [x | | |], d2 as [y | | |], d3 as [z | | |];
    try discriminate; try reflexivity.
  rewrite !leb_real. lra.
Qed.

Section Order.

Variable h : Heap.

Let D (r : ref) : Prop := real_or_infinite (distance_at h r).

Lemma ranked_not_positive (x y : ref) :
  D x -> D y -> JS.gtb (nonDominated_compare h x y) JS.zero = false ->
  ranked_before h x y.
Proof.
  intros Dx Dy. rewrite nonDominated_compare_cases. unfold ranked_before.
  destruct (Nat.eqb_spec (dominators_count h x) (dominators_count h y))
    as [E | Hne]; intros H.
  - right. split; [exact E | now apply distance_not_above].
  - left.
    destruct (Nat.lt_ge_cases (dominators_count h y) (dominators_count h x))
      as [Hlt | Hge]; [| lia].
    apply count_difference_positive in Hlt. congruence.
Qed.

Lemma ranked_positive (x y : ref) :
  D x -> D y -> JS.gtb (nonDominated_compare h x y) JS.zero = true ->
  ranked_before h y x.
Proof.
  intros Dx Dy. rewrite nonDominated_compare_cases. unfold ranked_before.
  destruct (Nat.eqb_spec (dominators_count h x) (dominators_count h y))
    as [E | Hne]; intros H.
  - right. split; [now symmetry | now apply distance_above].
  - left. now apply count_difference_positive.
Qed.

Lemma ranked_trans (x y z : ref) :
  D x -> D y -> D z ->
  ranked_before h x y -> ranked_before h y z -> ranked_before h x z.
Proof.
  unfold ranked_before. intros _ _ _ [H1 | [E1 L1]] [H2 | [E2 L2]].
  - left. lia.
  - left. lia.
  - left. lia.
  - right. split; [congruence | now apply (distance_leb_trans _ _ _ L2 L1)].
Qed.

Lemma nonDominated_sorted (elements : list ref) :
  (forall r, In r elements -> D r) ->
  StronglySorted (ranked_before h) (JS.sort (nonDominated_compare h) elements).
Proof.
  intros HD. apply sort_sorted with (D := D).
  - apply ranked_not_positive.
  - apply ranked_positive.
  - apply ranked_trans.
  - now apply Forall_forall.
Qed.

End Order.

(** ** The method *)

Lemma same_but_pareto_evaluated (count : nat) (h h' : Heap) (r : ref) :
  same_but_pareto (h r) (h' r) -> evaluated count h r -> evaluated count h' r.
Proof.
  intros (_ & E & _) (ev & Eev & Hev). exists ev. split; [congruence | exact Hev].
Qed.

(** C3.  On an array of evaluated elements [nonDominatedSort] returns the
    elements of the array in the order of their numbers of dominators,
    fewest first, and among elements with as many dominators in the order of
    their crowding distances, largest first; an element with fewer
    dominators than another one is at an earlier position.  It throws only
    on the empty array of a problem that has objectives. *)
Theorem nonDominatedSort_orders_by_dominators (P : Problem)
  (elements : list ref) (h : Heap) :
  (forall r, In r elements -> evaluated (objectives P) h r) ->
  match nonDominatedSort P elements h with
  | Some (h', sorted) =>
      Permutation sorted elements
      /\ StronglySorted (ranked_before h') sorted
      /\ forall i j a b,
           nth_error sorted i = Some a -> nth_error sorted j = Some b ->
           (dominators_count h' a < dominators_count h' b)%nat ->
           (i < j)%nat
  | None => elements = [] /\ (1 <= objectives P)%nat
  end.
Proof.
  intros Hev. unfold nonDominatedSort.
  destruct (paretoAnalysis_records P elements h)
    as (h1 & added & E1 & _ & _ & _ & S1 & _).
  rewrite E1.
  destruct elements as [| e elements].
  - unfold crowdingDistance. cbn [fold_left].
    destruct (objectives P) as [| n]; cbn.
    + refine (conj (perm_nil _) (conj (SSorted_nil _) _)).
      intros i j a b Ha. now destruct i.
    + split; [reflexivity | lia].
  - destruct (@crowdingDistance_completes P (e :: elements) h1)
      as (h2 & E2 & _ & R).
    + discriminate.
    + intros r Hr. apply (@same_but_pareto_evaluated _ h h1 r (S1 r)), Hev, Hr.
    + rewrite E2.
      assert (Hsorted : StronglySorted (ranked_before h2)
                          (JS.sort (nonDominated_compare h2) (e :: elements)))
        by now apply nonDominated_sorted.
      refine (conj (sort_permutation _ _) (conj Hsorted _)).
      intros i j a b Ha Hb Hlt.
      destruct (Nat.lt_total i j) as [Hij | [-> | Hji]]; [exact Hij | |].
      * assert (a = b) by congruence. subst. lia.
      * pose proof (sorted_nth Hsorted Hji Hb Ha) as [H | [H _]]; lia.
Qed.

End NonDominatedSort.

Section NonDominatedSortExamples.

Import Metaheuristic Pareto Crowding Ranking.

(** The four points, sorted: 0 and 2 have no dominator, 1 has one and 3 has
    two. *)
Example nonDominatedSort_four_points :
  option_map (fun hs => (snd hs, map (dominators_count (fst hs)) (snd hs),
                         map (distance_at (fst hs)) (snd hs)))
             (nonDominatedSort Examples.biobjective [3; 1; 0; 2]
                               Examples.four_points)
  = Some ([0; 2; 1; 3], [0; 0; 1; 2]%nat,
          [JS.PInf; JS.PInf; JS.PInf; JS.PInf]).
Proof. vm_compute. reflexivity. Qed.

Lemma four_points_evaluated (r : ref) : evaluated 2 Examples.four_points r.
Proof.
  unfold evaluated, Examples.four_points, Examples.scored.
  cbn [Element.evaluation Element.set_evaluation]. eexists. split; [reflexivity |].
  destruct r as [| [| [| r]]]; split; try reflexivity; repeat constructor.
Qed.

(** The theorem at the four points. *)
Lemma nonDominatedSort_orders_by_dominators_witness :
  (forall r, In r [3; 1; 0; 2] -> evaluated 2 Examples.four_points r)
  /\ exists h' sorted,
      nonDominatedSort Examples.biobjective [3; 1; 0; 2] Examples.four_points
      = Some (h', sorted)
      /\ Permutation sorted [3; 1; 0; 2]
      /\ StronglySorted (ranked_before h') sorted.
Proof.
  assert (Hev : forall r, In r [3; 1; 0; 2] ->
                  evaluated (objectives Examples.biobjective)
                            Examples.four_points r)
    by (intros r _; apply four_points_evaluated).
  split; [exact Hev |].
  pose proof (@nonDominatedSort_orders_by_dominators Examples.biobjective
                [3; 1; 0; 2] Examples.four_points Hev) as H.
  destruct (nonDominatedSort Examples.biobjective [3; 1; 0; 2]
                             Examples.four_points) as [[h' sorted] |].
  - exists h', sorted. destruct H as (Hp & Hs & _). now repeat split.
  - destruct H as [H _]. discriminate.
Defined.

End NonDominatedSortExamples.

(* ================================================================== *)
(** * advance and run                                                   *)
(* ================================================================== *)

Section Advance.

Import Metaheuristic Run.

Variable P : Problem.

(** ** What the operations keep *)

Lemma kept_refl (mh : t) : kept mh mh.
Proof. now repeat split. Qed.

Lemma kept_trans (mh1 mh2 mh3 : t) : kept mh1 mh2 -> kept mh2 mh3 -> kept mh1 mh3.
Proof.
  unfold kept. intros (A1 & A2 & A3 & A4 & A5) (B1 & B2 & B3 & B4 & B5).
  repeat split; congruence.
Qed.

Lemma advances_emit (event : string) (mh : t) :
  advances (emit event mh)
  = (advances mh + if string_dec event "advanced" then 1 else 0)%nat.
Proof.
  unfold advances, emit. cbn [events with_events].
  rewrite count_occ_app. cbn [count_occ].
  now destruct (string_dec event "advanced").
Qed.

Lemma advances_log (level message : string) (mh : t) :
  advances (__log__ level message mh) = advances mh.
Proof. unfold advances. now rewrite log_events. Qed.

(** An event handler for another event than "advanced". *)
Lemma kept_handler (event message : string) (mh : t) :
  event <> "advanced"%string ->
  kept mh (__log__ "debug" message (emit event mh)).
Proof.
  intros Hne. unfold kept. rewrite advances_log, advances_emit.
  destruct (string_dec event "advanced"); [contradiction |].
  autorewrite with engine. cbn. repeat split. lia.
Qed.

Lemma kept_onInitiate (mh : t) : kept mh (onInitiate mh).
Proof. now apply kept_handler. Qed.

Lemma kept_onUpdate (mh : t) : kept mh (onUpdate mh).
Proof. now apply kept_handler. Qed.

Lemma kept_onExpand (mh : t) : kept mh (onExpand mh).
Proof. now apply kept_handler. Qed.

Lemma kept_onEvaluate (mh : t) : kept mh (onEvaluate mh).
Proof. now apply kept_handler. Qed.

Lemma kept_onSieve (mh : t) : kept mh (onSieve mh).
Proof. now apply kept_handler. Qed.

Lemma kept_onAnalyze (mh : t) : kept mh (onAnalyze mh).
Proof. now apply kept_handler. Qed.

Lemma kept_log (level message : string) (mh : t) :
  kept mh (__log__ level message mh).
Proof.
  unfold kept. rewrite advances_log. autorewrite with engine. now repeat split.
Qed.

Lemma kept_initiate (size : option Z) (mh mh' : t) :
  initiate P size mh = Some mh' -> kept mh mh'.
Proof.
  unfold initiate. destruct (new_Array _); [| discriminate].
  destruct (create _ _ _ _). intros [= <-].
  eapply kept_trans; [| apply kept_onInitiate]. now repeat split.
Qed.

Lemma kept_expand (supplied : option (list ref)) (mh mh' : t) :
  expand P supplied mh = Some mh' -> kept mh mh'.
Proof.
  unfold expand.
  assert (Hexp : forall mh1 l, expansion P None mh = Some (mh1, l) -> kept mh mh1).
  { unfold expansion. intros mh1 l. destruct (new_Array _); [| discriminate].
    destruct (create _ _ _ _). intros [= <- _]. now repeat split. }
  destruct (match supplied with Some l => Some (mh, l) | None => _ end)
    as [[mh1 l] |] eqn:E; [| discriminate].
  assert (K1 : kept mh mh1).
  { destruct supplied; [injection E as <- _; apply kept_refl | eapply Hexp, E]. }
  intros [= <-]. eapply kept_trans; [exact K1 |].
  eapply kept_trans; [| apply kept_onExpand].
  destruct (length l <? 1)%nat; [apply kept_log | now repeat split].
Qed.

Lemma kept_evaluate (elements : option (list ref)) (mh mh' : t)
  (sorted : list ref) :
  evaluate P elements mh = Some (mh', sorted) -> kept mh mh'.
Proof.
  unfold evaluate. destruct (sort P _ _) as [[h s] |]; [| discriminate].
  intros [= <- _]. eapply kept_trans; [| apply kept_onEvaluate].
  destruct elements; now repeat split.
Qed.

Lemma kept_sieve (size : option Z) (mh : t) : kept mh (sieve size mh).
Proof.
  unfold sieve. eapply kept_trans; [| apply kept_onSieve].
  destruct (_ >? _)%Z; now repeat split.
Qed.

Lemma kept_update (mh mh' : t) : update P mh = Some mh' -> kept mh mh'.
Proof.
  unfold update. destruct (expand P None mh) as [mh1 |] eqn:E1; [| discriminate].
  destruct (evaluate P None mh1) as [[mh2 s] |] eqn:E2; [| discriminate].
  intros [= <-]. cbn [fst].
  eapply kept_trans; [eapply kept_expand, E1 |].
  eapply kept_trans; [eapply kept_evaluate, E2 |].
  eapply kept_trans; [apply kept_sieve | apply kept_onUpdate].
Qed.

Lemma kept_analyze (mh mh' : t) :
  analyze mh = Some mh' -> kept mh mh' /\ state mh' = state mh.
Proof.
  unfold analyze. destruct (statistics mh) as [stats |];
    [| intros [= <-]; split; [apply kept_refl | reflexivity]].
  destruct (nth_error (state mh) 0) as [first |]; [| discriminate].
  destruct (Element.evaluation _) as [ev0 |]; [| discriminate].
  destruct (if (length ev0 =? 1)%nat then _ else _) as [added |];
    [| discriminate].
  intros [= <-]. split.
  - eapply kept_trans; [| apply kept_onAnalyze]. now repeat split.
  - handlers. reflexivity.
Qed.

(** ** One cycle *)

(** A completed [advance()] leaves the step limit as it is, moves the step
    to the next one and counts as one more cycle, whatever the [initiate]
    and [update] methods are, as long as they keep the configuration. *)
Lemma advance_with_effect (initiate' : option Z -> t -> option t)
  (update' : t -> option t) (mh mh' : t) :
  (forall size m m', initiate' size m = Some m' -> kept m m') ->
  (forall m m', update' m = Some m' -> kept m m') ->
  advance_with P initiate' update' mh = Some mh' ->
  size mh' = size mh
  /\ steps mh' = steps mh
  /\ expansionRate mh' = expansionRate mh
  /\ step mh' = next_step (step mh)
  /\ advances mh' = S (advances mh).
Proof.
  intros Hinit Hupd. unfold advance_with.
  destruct (if (step mh <? 0)%Z then _ else _) as [mh1 |] eqn:E1;
    [| discriminate].
  assert (K1 : size mh1 = size mh /\ steps mh1 = steps mh
               /\ expansionRate mh1 = expansionRate mh
               /\ advances mh1 = advances mh
               /\ next_step (step mh1) = next_step (step mh)).
  { destruct (Z.ltb_spec (step mh) 0) as [Hneg | Hpos].
    - destruct (initiate' None (reset mh)) as [m1 |] eqn:Ei; [| discriminate].
      destruct (evaluate P None m1) as [[m2 s] |] eqn:Ee; [| discriminate].
      injection E1 as <-. cbn [fst].
      destruct (Hinit _ _ _ Ei) as (A1 & A2 & A3 & A4 & A5).
      destruct (kept_evaluate _ _ Ee) as (B1 & B2 & B3 & B4 & B5).
      assert (R : size (reset mh) = size mh /\ steps (reset mh) = steps mh
                  /\ expansionRate (reset mh) = expansionRate mh
                  /\ advances (reset mh) = advances mh
                  /\ step (reset mh) = (-1)%Z).
      { unfold reset, advances. cbn. destruct (statistics mh); now cbn. }
      destruct R as (R1 & R2 & R3 & R4 & R5).
      repeat split; try congruence.
      rewrite B3, A3, R5. unfold next_step.
      destruct (Z.ltb_spec (step mh) 0); [reflexivity | lia].
    - destruct (Hupd _ _ E1) as (A1 & A2 & A3 & A4 & A5).
      repeat split; congruence. }
  destruct K1 as (K1 & K2 & K3 & K4 & K5).
  set (mh2 := with_step _ mh1).
  destruct (analyze mh2) as [mh3 |] eqn:E3; [| discriminate].
  intros [= <-].
  destruct (kept_analyze _ E3) as ((A1 & A2 & A3 & A4 & A5) & _).
  unfold onAdvance. rewrite advances_log, advances_emit.
  destruct (string_dec "advanced" "advanced"); [| congruence].
  autorewrite with engine. cbn [emit size steps expansionRate step with_events].
  assert (Hs : advances mh2 = advances mh1) by reflexivity.
  rewrite A1, A2, A3, A4, A5, Hs, K4. subst mh2.
  cbn [size steps expansionRate step with_step].
  fold (next_step (step mh1)).
  repeat split; try congruence. lia.
Qed.

Lemma advance_effect (mh mh' : t) :
  advance P mh = Some mh' ->
  size mh' = size mh
  /\ steps mh' = steps mh
  /\ expansionRate mh' = expansionRate mh
  /\ step mh' = next_step (step mh)
  /\ advances mh' = S (advances mh).
Proof.
  apply advance_with_effect.
  - intros size m m'. apply kept_initiate.
  - apply kept_update.
Qed.

(** ** The loop of [run] *)

Section Loop.

Variable advance' : t -> option t.

Hypothesis effect :
  forall mh mh', advance' mh = Some mh' ->
    steps mh' = steps mh
    /\ step mh' = next_step (step mh)
    /\ advances mh' = S (advances mh).

Hypothesis never_sufficient :
  forall elements, sufficientElements P elements = false.

Lemma next_step_nonneg (s : Z) : (0 <= next_step s)%Z.
Proof. unfold next_step. destruct (Z.ltb_spec s 0); lia. Qed.

Lemma next_step_next (s : Z) : next_step (next_step s) = (next_step s + 1)%Z.
Proof.
  pose proof (next_step_nonneg s). unfold next_step at 1.
  destruct (Z.ltb_spec (next_step s) 0); [lia | reflexivity].
Qed.

(** When the loop resolves, the action has been performed once for the
    step the engine enters and once more for every step below the limit. *)
Lemma doWhile_advances (turns : nat) (mh mh' : t) :
  JS.doWhile turns advance' (fun mh => negb (finished P mh)) mh
  = JS.Resolved mh' ->
  advances mh'
  = (advances mh + Z.to_nat (steps mh - next_step (step mh)) + 1)%nat
  /\ steps mh' = steps mh
  /\ (0 <= step mh')%Z.
Proof.
  revert mh. induction turns as [| turns IH]; intros mh; [discriminate |].
  cbn [JS.doWhile].
  destruct (advance' mh) as [m1 |] eqn:E1; [| discriminate].
  destruct (effect E1) as (Hsteps & Hstep & Hadv).
  unfold finished. rewrite never_sufficient, orb_false_r.
  destruct (Z.leb_spec (steps m1) (step m1)) as [Hdone | Hmore]; cbn [negb].
  - intros [= <-]. refine (conj _ (conj Hsteps _)).
    + rewrite Hadv. lia.
    + rewrite Hstep. apply next_step_nonneg.
  - intros Hres. destruct (IH m1 Hres) as (Hcount & Hsteps' & Hpos).
    refine (conj _ (conj _ Hpos)); [| congruence].
    rewrite Hcount, Hadv, Hstep, next_step_next, Hsteps. lia.
Qed.

(** With enough turns the loop resolves, if the action can always be
    performed. *)
Lemma doWhile_resolves (Inv : t -> Prop) (turns : nat) (mh : t) :
  (forall m, Inv m -> exists m', advance' m = Some m' /\ Inv m') ->
  Inv mh ->
  (Z.to_nat (steps mh - next_step (step mh)) < turns)%nat ->
  exists mh',
    JS.doWhile turns advance' (fun mh => negb (finished P mh)) mh
    = JS.Resolved mh'
    /\ Inv mh'.
Proof.
  intros Hprogress. revert mh.
  induction turns as [| turns IH]; intros mh Hinv Hturns; [lia |].
  cbn [JS.doWhile].
  destruct (Hprogress mh Hinv) as (m1 & E1 & Hinv1). rewrite E1.
  destruct (effect E1) as (Hsteps & Hstep & Hadv).
  unfold finished. rewrite never_sufficient, orb_false_r.
  destruct (Z.leb_spec (steps m1) (step m1)) as [Hdone | Hmore]; cbn [negb].
  - now exists m1.
  - apply IH; [exact Hinv1 |].
    rewrite Hstep, next_step_next, Hsteps. lia.
Qed.

(** With too few turns it is still pending. *)
Lemma doWhile_pending (Inv : t -> Prop) (turns : nat) (mh : t) :
  (forall m, Inv m -> exists m', advance' m = Some m' /\ Inv m') ->
  Inv mh ->
  (turns <= Z.to_nat (steps mh - next_step (step mh)))%nat ->
  JS.doWhile turns advance' (fun mh => negb (finished P mh)) mh = JS.Pending.
Proof.
  intros Hprogress. revert mh.
  induction turns as [| turns IH]; intros mh Hinv Hturns; [reflexivity |].
  cbn [JS.doWhile].
  destruct (Hprogress mh Hinv) as (m1 & E1 & Hinv1). rewrite E1.
  destruct (effect E1) as (Hsteps & Hstep & Hadv).
  unfold finished. rewrite never_sufficient, orb_false_r.
  destruct (Z.leb_spec (steps m1) (step m1)) as [Hdone | Hmore]; cbn [negb].
  - rewrite Hstep, Hsteps in Hdone. lia.
  - apply IH; [exact Hinv1 |].
    rewrite Hstep, next_step_next, Hsteps. lia.
Qed.

End Loop.

End Advance.

(* ================================================================== *)
(** * The cycles of a well-formed problem complete                      *)
(* ================================================================== *)

Section Progress.

Import Metaheuristic Run.

Variable P : Problem.

Hypothesis problem_ok : well_formed P.

Lemma create_length (n : nat) (h : Heap) (r : ref) :
  length (snd (create P n h r)) = n.
Proof.
  revert h r. induction n as [| n IH]; intros h r; cbn [create]; [reflexivity |].
  specialize (IH (upd h r (Element.make (initial P r))) (S r)).
  destruct (create P n _ _). cbn in *. now rewrite IH.
Qed.

Lemma initiate_succeeds (mh : t) :
  (0 <= size mh)%Z ->
  exists mh', initiate P None mh = Some mh'
              /\ length (state mh') = Z.to_nat (size mh).
Proof.
  intros Hsize. unfold initiate, new_Array.
  destruct (Z.ltb_spec (size mh) 0); [lia |].
  pose proof (create_length (Z.to_nat (size mh)) (heap mh) (fresh mh)) as Hlen.
  destruct (create P _ _ _) as [h elems]. eexists. split; [reflexivity |].
  handlers. exact Hlen.
Qed.

Lemma expand_succeeds (mh : t) :
  (0 <= expansion_size mh)%Z ->
  exists mh', expand P None mh = Some mh'
              /\ (state mh <> [] -> state mh' <> []).
Proof.
  intros Hsize. unfold expand, expansion, new_Array.
  fold (expansion_size mh). destruct (Z.ltb_spec (expansion_size mh) 0); [lia |].
  destruct (create P _ _ _) as [h elems]. eexists. split; [reflexivity |].
  destruct (length elems <? 1)%nat; handlers; [tauto |].
  intros Hne E. apply app_eq_nil in E. tauto.
Qed.

(** [problem.evaluate] gives every element of the array its evaluation and
    changes nothing else. *)
Lemma problem_evaluate_evaluated (elements : list ref) (h : Heap) (r : ref) :
  In r elements ->
  Crowding.evaluated (objectives P) (problem_evaluate P elements h) r.
Proof.
  intros Hr. unfold Crowding.evaluated, problem_evaluate.
  rewrite fold_modify_in by (assumption || reflexivity).
  destruct problem_ok as (_ & Hev). eexists. split; [reflexivity |]. apply Hev.
Qed.

(** [sort] completes on a non-empty array of evaluated elements; it keeps
    the evaluations, and with more than one objective it leaves every
    element with a Pareto annotation. *)
Lemma sort_succeeds (elements : list ref) (h : Heap) :
  elements <> [] ->
  (forall r, In r elements -> Crowding.evaluated (objectives P) h r) ->
  exists h' sorted,
    sort P elements h = Some (h', sorted)
    /\ Permutation sorted elements
    /\ (forall r, Element.evaluation (h' r) = Element.evaluation (h r))
    /\ ((1 < objectives P)%nat ->
        forall r, In r elements -> Pareto.annotated h' r).
Proof.
  intros Hne Hev. unfold sort.
  destruct (Nat.ltb_spec 1 (objectives P)) as [Hmulti | Hsingle].
  - unfold multiObjectiveSort, nonDominatedSort.
    destruct (paretoAnalysis_records P elements h)
      as (h1 & added & E1 & _ & _ & A1 & S1 & _).
    rewrite E1.
    destruct (@crowdingDistance_completes P elements h1 Hne)
      as (h2 & E2 & S2 & _).
    { intros r Hr. apply (@same_but_pareto_evaluated _ h h1 r (S1 r)), Hev, Hr. }
    rewrite E2. eexists. eexists. split; [reflexivity |].
    refine (conj (sort_permutation _ _) (conj _ _)).
    + intros r. destruct (S1 r) as (_ & Ea & _). destruct (S2 r) as (_ & Eb & _).
      congruence.
    + intros _ r Hr. unfold Pareto.annotated.
      destruct (S2 r) as (_ & _ & Ep & _). rewrite Ep. now apply A1.
  - eexists. eexists. split; [reflexivity |].
    split; [| split; [reflexivity | lia]].
    eapply Permutation_trans; [apply Permutation_sym, Permutation_rev |].
    apply sort_permutation.
Qed.

Lemma evaluate_succeeds (mh : t) :
  state mh <> [] ->
  exists mh' sorted,
    evaluate P None mh = Some (mh', sorted)
    /\ state mh' <> []
    /\ analyzable P mh'.
Proof.
  intros Hne. unfold evaluate.
  destruct (@sort_succeeds (state mh) (problem_evaluate P (state mh) (heap mh)) Hne)
    as (h' & sorted & E & Hperm & Hev & Hann).
  { intros r Hr. now apply problem_evaluate_evaluated. }
  rewrite E. eexists. eexists. split; [reflexivity |]. handlers. split.
  - intros Es. rewrite Es in Hperm. apply Permutation_nil in Hperm.
    contradiction.
  - unfold analyzable. handlers. intros r Hr.
    assert (Hr' : In r (state mh)) by (eapply Permutation_in; eassumption).
    split.
    + destruct (@problem_evaluate_evaluated (state mh) (heap mh) r Hr')
        as (ev & Eev & Hlen & _).
      exists ev. split; [now rewrite Hev | exact Hlen].
    + intros Hobj. apply Hann; [| exact Hr'].
      destruct problem_ok as (Hone & _). lia.
Qed.

Lemma collect_some (A : Type) (xs : list (option (list A))) :
  (forall x, In x xs -> x <> None) -> exists l, collect xs = Some l.
Proof.
  induction xs as [| x xs IH]; intros H; cbn [collect]; [now eexists |].
  destruct x as [a |]; [| exfalso; apply (H None); [now left | reflexivity]].
  destruct IH as (l & ->); [intros y Hy; apply H; now right |].
  now eexists.
Qed.

Lemma analyze_succeeds (mh : t) :
  state mh <> [] -> analyzable P mh ->
  exists mh', analyze mh = Some mh'.
Proof.
  intros Hne Han. unfold analyze.
  destruct (statistics mh) as [stats |]; [| now eexists].
  destruct (state mh) as [| first rest] eqn:Es; [congruence |].
  cbn [nth_error].
  destruct (Han first) as ((ev0 & E0 & Hlen0) & Hann0); [rewrite Es; now left |].
  rewrite E0.
  destruct (length ev0 =? 1)%nat eqn:Eone; [now eexists |].
  apply Nat.eqb_neq in Eone.
  destruct (@collect_some Stat
              (map (analyze_element (length ev0) (step mh) (heap mh))
                   (first :: rest))) as (added & ->); [| now eexists].
  intros x Hx. apply in_map_iff in Hx. destruct Hx as (r & <- & Hr).
  destruct (Han r) as ((ev & Eev & Hlen) & Hann); [rewrite Es; exact Hr |].
  unfold analyze_element. rewrite Eev.
  destruct (Nat.ltb_spec (length ev0) (length ev)); [lia |].
  unfold Pareto.annotated in Hann.
  destruct (Element.pareto (heap mh r)); [discriminate |].
  exfalso. apply Hann; [lia | reflexivity].
Qed.

Lemma sieve_keeps_some (mh : t) :
  (1 <= size mh)%Z -> state mh <> [] -> state (sieve None mh) <> [].
Proof.
  intros Hsize Hne. rewrite sieve_default by lia.
  destruct (state mh) as [| x l]; [congruence |].
  destruct (Z.to_nat (size mh)) as [| n] eqn:E; [lia | discriminate].
Qed.

Lemma sieve_analyzable (mh : t) :
  analyzable P mh -> analyzable P (sieve None mh).
Proof.
  intros Han r Hr.
  destruct (sieve_prefix None mh) as (dropped & E).
  assert (Hheap : heap (sieve None mh) = heap mh).
  { unfold sieve. handlers. now destruct (_ >? _)%Z. }
  rewrite Hheap. apply Han. rewrite E. apply in_or_app. now left.
Qed.

Lemma update_succeeds (mh : t) :
  (1 <= size mh)%Z -> (0 <= expansion_size mh)%Z -> state mh <> [] ->
  exists mh', update P mh = Some mh'
              /\ state mh' <> [] /\ analyzable P mh'.
Proof.
  intros Hsize Hexp Hne. unfold update.
  destruct (expand_succeeds mh Hexp) as (m1 & E1 & Hne1). rewrite E1.
  destruct (evaluate_succeeds m1 (Hne1 Hne)) as (m2 & sorted & E2 & Hne2 & Han2).
  rewrite E2. cbn [fst]. eexists. split; [reflexivity |].
  assert (Hsize2 : size m2 = size mh).
  { destruct (kept_expand P _ _ E1) as (A & _).
    destruct (kept_evaluate P _ _ E2) as (B & _). congruence. }
  unfold onUpdate. unfold analyzable. handlers. split.
  - apply sieve_keeps_some; [lia | exact Hne2].
  - now apply sieve_analyzable.
Qed.

(** A ready engine completes [advance()] and stays ready. *)
Lemma advance_ready (mh : t) :
  ready mh -> exists mh', advance P mh = Some mh' /\ ready mh'.
Proof.
  intros (Hsize & Hexp & Hstate).
  assert (H1 : exists m1,
             (if (step mh <? 0)%Z
              then try m <- initiate P None (reset mh);
                   try me <- evaluate P None m;
                   Some (fst me)
              else update P mh) = Some m1
             /\ state m1 <> [] /\ analyzable P m1).
  { destruct (Z.ltb_spec (step mh) 0) as [Hneg | Hpos].
    - assert (Hr : size (reset mh) = size mh)
        by (unfold reset; cbn; now destruct (statistics mh)).
      destruct (initiate_succeeds (reset mh)) as (m0 & E0 & Hlen); [lia |].
      rewrite E0.
      destruct (evaluate_succeeds m0) as (m1 & sorted & E1 & Hne1 & Han1).
      { intros E. rewrite E, Hr in Hlen. cbn in Hlen. lia. }
      rewrite E1. exists m1. exact (conj eq_refl (conj Hne1 Han1)).
    - apply update_succeeds; auto. }
  destruct H1 as (m1 & E1 & Hne1 & Han1).
  unfold advance, advance_with. rewrite E1.
  set (m2 := with_step _ m1).
  destruct (@analyze_succeeds m2 Hne1 Han1) as (m3 & E3). rewrite E3.
  eexists. split; [reflexivity |].
  assert (Heff : advance P mh = Some (onAdvance m3)).
  { unfold advance, advance_with. rewrite E1. fold m2. now rewrite E3. }
  destruct (@advance_effect P mh _ Heff) as (A1 & A2 & A3 & A4 & A5).
  destruct (@kept_analyze m2 m3 E3) as (_ & Hs3).
  unfold ready, expansion_size. rewrite A1, A3. fold (expansion_size mh).
  refine (conj Hsize (conj Hexp _)).
  intros _. unfold onAdvance. handlers. now rewrite Hs3.
Qed.

End Progress.

(* ================================================================== *)
(** * run                                                               *)
(* ================================================================== *)

Section RunTheorem.

Import Metaheuristic Run.

Lemma advances_onFinish (mh : t) : advances (onFinish mh) = advances mh.
Proof.
  unfold onFinish. rewrite advances_log, advances_emit.
  destruct (string_dec "finished" "advanced"); [discriminate | lia].
Qed.

(** C1, as the code has it.  The engine is unstarted and the problem never
    finds the elements sufficient.  When [run()] resolves, it has performed
    one [advance()] cycle more than the step limit (one cycle when the
    limit is negative): the first cycle initiates the state and takes the
    step from -1 to 0, and the loop goes on until the step reaches the
    limit.  It resolves to the first element of the state.  For a
    well-formed problem and an engine of size 1 or more whose expansions
    have a size, [run()] does resolve, once it is given more turns than the
    step limit, and not before. *)
Theorem run_advances_once_more_than_steps (P : Problem) (mh : t) :
  (forall elements, sufficientElements P elements = false) ->
  step mh = (-1)%Z ->
  (forall turns mh' best,
      run P turns mh = JS.Resolved (mh', best) ->
      advances mh' = (advances mh + Z.to_nat (steps mh) + 1)%nat
      /\ best = nth_error (state mh') 0)
  /\ (well_formed P -> (1 <= size mh)%Z -> (0 <= expansion_size mh)%Z ->
      (forall turns, (Z.to_nat (steps mh) < turns)%nat ->
         exists mh' best,
           run P turns mh = JS.Resolved (mh', Some best)
           /\ nth_error (state mh') 0 = Some best)
      /\ (forall turns, (turns <= Z.to_nat (steps mh))%nat ->
            run P turns mh = JS.Pending)).
Proof.
  intros Hnever Hstep.
  assert (Hnext : (steps mh - next_step (step mh) = steps mh)%Z)
    by (rewrite Hstep; cbn; lia).
  assert (Heffect : forall m m', advance P m = Some m' ->
            steps m' = steps m /\ step m' = next_step (step m)
            /\ advances m' = S (advances m)).
  { intros m m' E. destruct (@advance_effect P m m' E) as (_ & A & _ & B & C).
    now repeat split. }
  split.
  - intros turns mh' best. unfold run, run_with.
    destruct (JS.doWhile turns (advance P) _ mh) as [m | |] eqn:E;
      try discriminate.
    intros [= <- <-].
    destruct (@doWhile_advances P (advance P) Heffect Hnever turns mh m E)
      as (Hcount & _).
    rewrite advances_onFinish, Hcount, Hnext. now split.
  - intros Hok Hsize Hexp.
    assert (Hready : ready mh).
    { refine (conj Hsize (conj Hexp _)). rewrite Hstep. lia. }
    split.
    + intros turns Hturns.
      destruct (@doWhile_resolves P (advance P) Heffect Hnever ready turns mh)
        as (m & E & (_ & _ & Hstate)).
      * intros m0. now apply advance_ready.
      * exact Hready.
      * now rewrite Hnext.
      * destruct (@doWhile_advances P (advance P) Heffect Hnever turns mh m E)
          as (_ & _ & Hpos).
        unfold run, run_with. rewrite E.
        assert (Hs : state (onFinish m) = state m)
          by (unfold onFinish; now handlers).
        rewrite Hs. specialize (Hstate Hpos).
        destruct (state m) as [| best rest]; [congruence |].
        exists (onFinish m), best. rewrite Hs. now split.
    + intros turns Hturns. unfold run, run_with.
      rewrite (@doWhile_pending P (advance P) Heffect Hnever ready turns mh);
        [reflexivity | | exact Hready | now rewrite Hnext].
      intros m0. now apply advance_ready.
Qed.

Lemma minimize_well_formed : well_formed Examples.minimize.
Proof.
  split; [cbn; lia |]. intros vs. split; [reflexivity |].
  cbn. constructor; [| constructor].
  now destruct (JS.item vs 0).
Qed.

(** The theorem at the unstarted engine of size 5 with a limit of 3 steps:
    it resolves within 4 turns, after 4 cycles. *)
Lemma run_advances_once_more_than_steps_witness :
  (forall elements, sufficientElements Examples.minimize elements = false)
  /\ step Examples.unstarted = (-1)%Z
  /\ exists mh' best,
      run Examples.minimize 4 Examples.unstarted = JS.Resolved (mh', Some best)
      /\ nth_error (state mh') 0 = Some best
      /\ advances mh' = 4%nat.
Proof.
  assert (Hnever : forall elements,
             sufficientElements Examples.minimize elements = false)
    by reflexivity.
  assert (Hstep : step Examples.unstarted = (-1)%Z) by reflexivity.
  refine (conj Hnever (conj Hstep _)).
  destruct (@run_advances_once_more_than_steps Examples.minimize
              Examples.unstarted Hnever Hstep) as (Hcount & Hresolves).
  destruct (Hresolves minimize_well_formed) as (Hres & _).
  - cbn. lia.
  - vm_compute. discriminate.
  - destruct (Hres 4%nat) as (mh' & best & E & Hbest); [cbn; lia |].
    exists mh', best. refine (conj E (conj Hbest _)).
    now destruct (Hcount _ _ _ E) as (-> & _).
Defined.

(** C1 as stated, refuted: with a limit of 3 steps, [run()] on an unstarted
    engine resolves after 4 [advance()] cycles, not 3. *)
Lemma run_three_steps_four_cycles :
  step Examples.unstarted = (-1)%Z
  /\ steps Examples.unstarted = 3%Z
  /\ advances Examples.unstarted = 0%nat
  /\ match run Examples.minimize 10 Examples.unstarted with
     | JS.Resolved (mh', best) => advances mh' = 4%nat /\ best = Some 100
     | _ => False
     end.
Proof. vm_compute. repeat split; reflexivity. Qed.

End RunTheorem.

(* ================================================================== *)
(** * ParticleSwarm: nextVelocity and nextElement                       *)
(* ================================================================== *)

Section NextElement.

Import ParticleSwarm Swarm.

(** ** Arrays and their indices *)

Lemma indexed_length (A : Type) (xs : list A) : length (indexed xs) = length xs.
Proof.
  unfold indexed. rewrite length_combine, length_seq. apply Nat.min_id.
Qed.

Lemma indexed_nth (A : Type) (xs : list A) (i : nat) (d : A) :
  (i < length xs)%nat -> nth i (indexed xs) (O, d) = (i, nth i xs d).
Proof.
  intros Hi. unfold indexed.
  rewrite combine_nth by now rewrite length_seq.
  now rewrite seq_nth.
Qed.

Lemma map_indexed_item (f : nat * JS.num -> JS.num) (xs : list JS.num) (i : nat) :
  (i < length xs)%nat ->
  JS.item (map f (indexed xs)) i = f (i, JS.item xs i).
Proof.
  intros Hi. unfold JS.item.
  rewrite (nth_indep _ JS.NaN (f (O, JS.NaN)))
    by now rewrite length_map, indexed_length.
  now rewrite map_nth, indexed_nth.
Qed.

Lemma sequence_map (A B : Type) (f : A -> option B) (g : A -> B) (xs : list A) :
  (forall x, In x xs -> f x = Some (g x)) ->
  sequence (map f xs) = Some (map g xs).
Proof.
  induction xs as [| x xs IH]; intros H; cbn [map sequence]; [reflexivity |].
  rewrite (H x (or_introl eq_refl)), IH; [reflexivity |].
  intros y Hy. apply H. now right.
Qed.

Lemma indexed_In (A : Type) (xs : list A) (i : nat) (x : A) :
  In (i, x) (indexed xs) -> (i < length xs)%nat.
Proof.
  unfold indexed. intros H. apply in_combine_l in H. apply in_seq in H. lia.
Qed.

(** ** Numbers *)

Lemma ltb_real (a b : Q) : JS.ltb (JS.Fin a) (JS.Fin b) = true <-> (a < b)%Q.
Proof.
  cbn [JS.ltb].
  destruct (Qcompare_spec a b) as [E | E | E];
    split; intros H; try discriminate; try reflexivity; lra.
Qed.

(** The draw of the generator, scaled by a positive limit, is below it. *)
Lemma scaled_draw_below (u a : Q) :
  (0 <= u < 1)%Q -> (0 < a)%Q ->
  below_limit (JS.Fin a) (JS.mul (JS.Fin u) (JS.Fin a)).
Proof.
  intros Hu Ha. cbn [below_limit JS.mul]. split; nra.
Qed.

Lemma max_zero (x : JS.num) :
  JS.is_nan x = false ->
  JS.max x JS.zero = JS.PInf
  \/ exists y, JS.max x JS.zero = JS.Fin y /\ (0 <= y)%Q.
Proof.
  intros Hx. unfold JS.zero.
  destruct x as [v | | |]; try discriminate; unfold JS.max.
  - right. destruct (JS.ltb (JS.Fin v) (JS.Fin 0)) eqn:E.
    + exists 0%Q. split; [reflexivity | lra].
    + exists v. split; [reflexivity |].
      destruct (Qlt_le_dec v 0) as [Hlt | Hle]; [| exact Hle].
      apply ltb_real in Hlt. congruence.
  - now left.
  - right. exists 0%Q. split; [reflexivity | lra].
Qed.

Lemma min_limit (y : JS.num) (hi : Q) :
  (0 <= hi)%Q ->
  (y = JS.PInf \/ exists v, y = JS.Fin v /\ (0 <= v)%Q) ->
  exists z, JS.min y (JS.Fin hi) = JS.Fin z /\ (0 <= z <= hi)%Q.
Proof.
  intros Hhi [-> | (v & -> & Hv)]; unfold JS.min.
  - exists hi. split; [reflexivity | lra].
  - destruct (JS.ltb (JS.Fin hi) (JS.Fin v)) eqn:E.
    + exists hi. split; [reflexivity | lra].
    + exists v. split; [reflexivity |]. split; [exact Hv |].
      destruct (Qlt_le_dec hi v) as [Hlt | Hle]; [| exact Hle].
      apply ltb_real in Hlt. congruence.
Qed.

(** A clamped number that is not NaN is in the range of its dimension. *)
Lemma clamp_in_range (n : Z) (x : JS.num) :
  (1 <= n)%Z -> JS.is_nan x = false ->
  in_range n (clamp x JS.zero (JS.sub (JS.of_Z n) (JS.Fin 1))).
Proof.
  intros Hn Hx. unfold in_range, clamp, JS.of_Z, JS.sub.
  cbn [JS.opp JS.add].
  assert (Hhi : (0 <= inject_Z n + - (1))%Q).
  { assert (H : (inject_Z 1 <= inject_Z n)%Q) by (rewrite <- Zle_Qle; lia).
    unfold inject_Z in H at 1. lra. }
  assert (Hhi' : (inject_Z n + - (1) == inject_Z (n - 1))%Q).
  { unfold Z.sub. rewrite inject_Z_plus, inject_Z_opp. reflexivity. }
  destruct (min_limit Hhi (max_zero x Hx)) as (z & -> & Hz).
  unfold JS.zero. split; apply leb_real; lra.
Qed.

(** ** nextVelocity *)

Section Velocity.

Variables (psw : t) (element globalBest : ref) (v : list JS.num) (lb : ref).

Let mh := base psw.
Let h := Metaheuristic.heap mh.
Let p := Element.values (h element).
Let localCoef :=
  JS.mul (JS.Fin (Metaheuristic.random mh 0)) (localAcceleration psw).
Let globalCoef :=
  JS.mul (JS.Fin (Metaheuristic.random mh 1)) (globalAcceleration psw).

Hypothesis has_velocity : Element.__velocity__ (h element) = Some v.
Hypothesis has_localBest : Element.__localBest__ (h element) = Some lb.

(** The swarm after the two draws of [nextVelocity]. *)
Let drawn : t :=
  with_base
    (Metaheuristic.with_random
       (fun k => Metaheuristic.random mh (S (S k))) mh)
    psw.

Lemma nextVelocity_result :
  nextVelocity element globalBest psw
  = Some (map (fun iv =>
                 velocity_component (inertia psw) localCoef globalCoef v
                   (Element.__values__ (h lb))
                   (Element.__values__ (h globalBest)) (fst iv) (snd iv))
              (indexed p),
          drawn).
Proof.
  unfold nextVelocity, random_random. fold mh. fold h.
  rewrite has_velocity, has_localBest. fold p.
  cbn [Metaheuristic.random Metaheuristic.with_random].
  fold localCoef. fold globalCoef.
  destruct p; reflexivity.
Qed.

End Velocity.

(** ** nextElement *)

Section Position.

Variables (P : Problem) (psw : t) (element globalBest : ref)
  (v : list JS.num) (lb : ref).

Let mh := base psw.
Let h := Metaheuristic.heap mh.
Let p := Element.values (h element).
Let localCoef :=
  JS.mul (JS.Fin (Metaheuristic.random mh 0)) (localAcceleration psw).
Let globalCoef :=
  JS.mul (JS.Fin (Metaheuristic.random mh 1)) (globalAcceleration psw).
Let velocity' :=
  map (fun iv =>
         velocity_component (inertia psw) localCoef globalCoef v
           (Element.__values__ (h lb)) (Element.__values__ (h globalBest))
           (fst iv) (snd iv))
      (indexed p).
Let position' :=
  map (fun iv =>
         clamp (JS.add (snd iv) (JS.item velocity' (fst iv))) JS.zero
               (JS.sub (JS.of_Z (nth (fst iv) (model P) 0%Z)) (JS.Fin 1)))
      (indexed p).

Hypothesis has_velocity : Element.__velocity__ (h element) = Some v.
Hypothesis has_localBest : Element.__localBest__ (h element) = Some lb.
Hypothesis has_model : (length p <= length (model P))%nat.
Hypothesis allocated : element <> Metaheuristic.fresh mh.

(** The new element is the next object of the store; it has the clamped
    position as values, their evaluation, and the new velocity; the other
    objects and the rest of the swarm are as before, but for the two draws
    of the generator. *)
Lemma nextElement_result :
  exists psw',
    nextElement P element globalBest psw = Some (Metaheuristic.fresh mh, psw')
    /\ Metaheuristic.fresh (base psw') = S (Metaheuristic.fresh mh)
    /\ (forall r, r <> Metaheuristic.fresh mh ->
          Metaheuristic.heap (base psw') r = h r)
    /\ Element.__values__ (Metaheuristic.heap (base psw') (Metaheuristic.fresh mh))
       = position'
    /\ Element.evaluation (Metaheuristic.heap (base psw') (Metaheuristic.fresh mh))
       = Some (evaluation_of P position')
    /\ Element.__velocity__ (Metaheuristic.heap (base psw') (Metaheuristic.fresh mh))
       = Some velocity'
    /\ (exists best,
          Element.__localBest__
            (Metaheuristic.heap (base psw') (Metaheuristic.fresh mh))
          = Some best)
    /\ Metaheuristic.state (base psw') = Metaheuristic.state mh
    /\ Metaheuristic.events (base psw') = Metaheuristic.events mh
    /\ (forall k, Metaheuristic.random (base psw') k
                  = Metaheuristic.random mh (k + 2))
    /\ __globalBest__ psw' = __globalBest__ psw.
Proof.
  unfold nextElement.
  rewrite (@nextVelocity_result psw element globalBest v lb
             has_velocity has_localBest).
  fold mh. fold h. fold p. fold localCoef. fold globalCoef. fold velocity'.
  cbn [base with_base Metaheuristic.heap Metaheuristic.with_random
       Metaheuristic.fresh].
  fold h. fold p.
  rewrite (@sequence_map _ _ _
             (fun iv => clamp (JS.add (snd iv) (JS.item velocity' (fst iv)))
                          JS.zero
                          (JS.sub (JS.of_Z (nth (fst iv) (model P) 0%Z))
                                  (JS.Fin 1)))).
  2:{ intros [i x] Hix. cbn [fst snd]. apply indexed_In in Hix.
      rewrite (nth_error_nth' (model P) 0%Z) by lia. reflexivity. }
  fold position'.
  rewrite !modify_neq by exact allocated.
  rewrite upd_neq by exact allocated.
  fold h. rewrite has_localBest.
  eexists. split; [reflexivity |].
  cbn [base with_base Metaheuristic.heap Metaheuristic.with_heap
       Metaheuristic.with_fresh Metaheuristic.with_random
       Metaheuristic.fresh Metaheuristic.state Metaheuristic.events
       Metaheuristic.random __globalBest__].
  refine (conj eq_refl (conj _ (conj _ (conj _ (conj _ (conj _
            (conj eq_refl (conj eq_refl (conj _ eq_refl))))))))).
  - intros r Hr. now rewrite !modify_neq, upd_neq.
  - now rewrite !modify_eq, upd_eq.
  - now rewrite !modify_eq, upd_eq.
  - now rewrite !modify_eq, upd_eq.
  - rewrite modify_eq. cbn. now eexists.
  - intros k. now rewrite Nat.add_comm.
Qed.

End Position.

(** C6.  For a particle with velocity [v], position [p] and personal best
    [lb], and a global best [gb]: [nextVelocity] draws two numbers from the
    generator and no more, scales the first by [localAcceleration] and the
    second by [globalAcceleration] (for a positive acceleration and a draw in
    [0, 1) the coefficient is in [0, acceleration)), and returns, with these
    same two coefficients for every dimension [i],
    [v[i] * inertia + localCoef * (lb[i] - p[i]) + globalCoef * (gb[i] - p[i])].
    [nextElement] then creates an element whose value in dimension [i] is
    [p[i]] plus this velocity, clamped to the range from 0 to the
    cardinality of the dimension minus 1; the clamped value lies in that
    range when the cardinality is at least 1 and the sum is not NaN. *)
Theorem nextVelocity_nextElement_formula (P : Problem) (psw : t)
  (element globalBest : ref) (v : list JS.num) (lb : ref) :
  let mh := base psw in
  let h := Metaheuristic.heap mh in
  let p := Element.values (h element) in
  let localCoef :=
    JS.mul (JS.Fin (Metaheuristic.random mh 0)) (localAcceleration psw) in
  let globalCoef :=
    JS.mul (JS.Fin (Metaheuristic.random mh 1)) (globalAcceleration psw) in
  Element.__velocity__ (h element) = Some v ->
  Element.__localBest__ (h element) = Some lb ->
  exists velocity' psw',
    nextVelocity element globalBest psw = Some (velocity', psw')
    /\ (forall k, Metaheuristic.random (base psw') k
                  = Metaheuristic.random mh (k + 2))
    /\ (forall a, localAcceleration psw = JS.Fin a -> (0 < a)%Q ->
          (0 <= Metaheuristic.random mh 0 < 1)%Q ->
          below_limit (localAcceleration psw) localCoef)
    /\ (forall a, globalAcceleration psw = JS.Fin a -> (0 < a)%Q ->
          (0 <= Metaheuristic.random mh 1 < 1)%Q ->
          below_limit (globalAcceleration psw) globalCoef)
    /\ length velocity' = length p
    /\ (forall i, (i < length p)%nat ->
          JS.item velocity' i
          = JS.add (JS.add (JS.mul (JS.item v i) (inertia psw))
                           (JS.mul localCoef
                                   (JS.sub (JS.item (Element.__values__ (h lb)) i)
                                           (JS.item p i))))
                   (JS.mul globalCoef
                           (JS.sub (JS.item (Element.__values__ (h globalBest)) i)
                                   (JS.item p i))))
    /\ ((length p <= length (model P))%nat ->
        element <> Metaheuristic.fresh mh ->
        exists psw'',
          nextElement P element globalBest psw
          = Some (Metaheuristic.fresh mh, psw'')
          /\ Element.__velocity__
               (Metaheuristic.heap (base psw'') (Metaheuristic.fresh mh))
             = Some velocity'
          /\ let position' :=
               Element.__values__
                 (Metaheuristic.heap (base psw'') (Metaheuristic.fresh mh)) in
             length position' = length p
             /\ forall i n, (i < length p)%nat ->
                  nth_error (model P) i = Some n ->
                  JS.item position' i
                  = clamp (JS.add (JS.item p i) (JS.item velocity' i)) JS.zero
                          (JS.sub (JS.of_Z n) (JS.Fin 1))
                  /\ ((1 <= n)%Z ->
                      JS.is_nan (JS.add (JS.item p i) (JS.item velocity' i))
                      = false ->
                      in_range n (JS.item position' i))).
Proof.
  intros mh h p localCoef globalCoef Hv Hlb.
  eexists. eexists. split; [apply (@nextVelocity_result psw element globalBest v lb Hv Hlb) |].
  cbn [base with_base Metaheuristic.random Metaheuristic.with_random].
  fold mh. fold h. fold p. fold localCoef. fold globalCoef.
  refine (conj _ (conj _ (conj _ (conj _ (conj _ _))))).
  - intros k. now rewrite Nat.add_comm.
  - intros a Ea Ha Hu. subst localCoef. rewrite Ea.
    now apply scaled_draw_below.
  - intros a Ea Ha Hu. subst globalCoef. rewrite Ea.
    now apply scaled_draw_below.
  - now rewrite length_map, indexed_length.
  - intros i Hi. now rewrite map_indexed_item.
  - intros Hmodel Halloc.
    destruct (@nextElement_result P psw element globalBest v lb Hv Hlb Hmodel Halloc)
      as (psw'' & E & _ & _ & Evalues & _ & Evel & _).
    exists psw''. refine (conj E (conj Evel _)).
    cbn zeta. subst localCoef globalCoef p h mh. rewrite Evalues.
    split; [now rewrite length_map, indexed_length |].
    intros i n Hi Hn.
    rewrite map_indexed_item by exact Hi. cbn [fst snd].
    rewrite (nth_error_nth _ _ 0%Z Hn).
    split; [reflexivity |].
    intros Hn1 Hnan. now apply clamp_in_range.
Qed.

End NextElement.

Section NextElementExamples.

Import ParticleSwarm Swarm.

(** The first particle of the example swarm: the draws are 1/4 and 1/2, the
    coefficients 1/8 and 3/20, the new velocity (29/40, -91/40) and the new
    position (149/40, 109/40). *)
Example nextElement_first_particle :
  option_map
    (fun rp => (fst rp,
                Element.__velocity__ (Metaheuristic.heap (base (snd rp)) (fst rp)),
                Element.__values__ (Metaheuristic.heap (base (snd rp)) (fst rp))))
    (nextElement Examples.minimize 0 2 Examples.swarm)
  = Some (100, Some [JS.Fin (232 # 320); JS.Fin (-728 # 320)],
          [JS.Fin (1192 # 320); JS.Fin (872 # 320)]).
Proof. vm_compute. reflexivity. Qed.

(** The theorem at the first particle of the example swarm. *)
Lemma nextVelocity_nextElement_formula_witness :
  Element.__velocity__ (Examples.particles 0)
  = Some [Examples.q 1; Examples.q (-2)]
  /\ Element.__localBest__ (Examples.particles 0) = Some 2
  /\ exists velocity' psw' psw'',
      nextVelocity 0 2 Examples.swarm = Some (velocity', psw')
      /\ below_limit (JS.Fin (1 # 2)) (JS.Fin (1 # 8))
      /\ below_limit (JS.Fin (3 # 10)) (JS.Fin (6 # 40))
      /\ length velocity' = 2%nat
      /\ nextElement Examples.minimize 0 2 Examples.swarm = Some (100, psw'')
      /\ in_range 10
           (JS.item (Element.__values__ (Metaheuristic.heap (base psw'') 100)) 0).
Proof.
  assert (Hv : Element.__velocity__ (Examples.particles 0)
               = Some [Examples.q 1; Examples.q (-2)]) by reflexivity.
  assert (Hlb : Element.__localBest__ (Examples.particles 0) = Some 2)
    by reflexivity.
  refine (conj Hv (conj Hlb _)).
  destruct (@nextVelocity_nextElement_formula Examples.minimize Examples.swarm
              0 2 [Examples.q 1; Examples.q (-2)] 2 Hv Hlb)
    as (velocity' & psw' & E & _ & Hlocal & Hglobal & Hlen & Hitem & Hnext).
  destruct Hnext as (psw'' & E' & _ & _ & Hpos); [cbn; lia | discriminate |].
  destruct (Hpos 0%nat 10%Z) as (_ & Hrange); [cbn; lia | reflexivity |].
  exists velocity', psw', psw''.
  refine (conj E (conj _ (conj _ (conj Hlen (conj E' _))))).
  - apply (Hlocal (1 # 2)%Q); [reflexivity | reflexivity |].
    split; [discriminate | reflexivity].
  - apply (Hglobal (3 # 10)%Q); [reflexivity | reflexivity |].
    split; [discriminate | reflexivity].
  - apply Hrange; [lia |]. rewrite Hitem by (cbn; lia). reflexivity.
Defined.

End NextElementExamples.

(* ================================================================== *)
(** * ParticleSwarm: update                                             *)
(* ================================================================== *)

Section SwarmUpdate.

Import ParticleSwarm Swarm.

Variable P : Problem.

(** The new elements are the next objects of the store, one for each
    element of the array, in its order; the older objects are unchanged. *)
Lemma map_elements_result (globalBest : ref) (l : list ref) (psw : t) :
  (forall r, In r l ->
     particle P (Metaheuristic.heap (base psw)) r
     /\ (r < Metaheuristic.fresh (base psw))%nat) ->
  exists psw',
    map_elements (fun element => nextElement P element globalBest) l psw
    = Some (seq (Metaheuristic.fresh (base psw)) (length l), psw')
    /\ Metaheuristic.fresh (base psw')
       = (Metaheuristic.fresh (base psw) + length l)%nat
    /\ (forall r, (r < Metaheuristic.fresh (base psw))%nat ->
          Metaheuristic.heap (base psw') r = Metaheuristic.heap (base psw) r)
    /\ (forall r, In r (seq (Metaheuristic.fresh (base psw)) (length l)) ->
          exists vs, Element.evaluation (Metaheuristic.heap (base psw') r)
                     = Some (evaluation_of P vs))
    /\ Metaheuristic.state (base psw') = Metaheuristic.state (base psw)
    /\ Metaheuristic.events (base psw') = Metaheuristic.events (base psw)
    /\ __globalBest__ psw' = __globalBest__ psw.
Proof.
  revert psw. induction l as [| x l IH]; intros psw Hl.
  - exists psw. cbn [map_elements length seq].
    refine (conj eq_refl (conj _ (conj _ (conj _ _)))); auto.
    intros r [].
  - destruct (Hl x (or_introl eq_refl)) as (((v & Hv) & (lb & Hlb) & Hmodel) & Hx).
    destruct (@nextElement_result P psw x globalBest v lb Hv Hlb Hmodel)
      as (psw1 & E1 & F1 & H1 & _ & Ev1 & _ & _ & S1 & V1 & _ & G1); [lia |].
    destruct (IH psw1) as (psw' & E' & F' & H' & Ev' & S' & V' & G').
    { intros r Hr. destruct (Hl r (or_intror Hr)) as (Hp & Hlt).
      split; [| lia]. unfold particle in *. now rewrite !H1 by lia. }
    exists psw'. cbn [map_elements length seq]. rewrite E1. cbn [snd fst].
    rewrite E', F1. cbn [fst snd].
    refine (conj eq_refl (conj _ (conj _ (conj _ (conj _ (conj _ _)))))).
    + rewrite F', F1. lia.
    + intros r Hr. rewrite H' by lia. apply H1. lia.
    + intros r [<- | Hr].
      * rewrite H' by lia. rewrite Ev1. now eexists.
      * apply Ev'. now rewrite F1.
    + congruence.
    + congruence.
    + congruence.
Qed.

(** [sort] completes on a non-empty array whose elements, when there is
    more than one objective, are evaluated. *)
Lemma sort_completes (elements : list ref) (h : Heap) :
  elements <> [] ->
  ((1 < objectives P)%nat ->
   forall r, In r elements -> Crowding.evaluated (objectives P) h r) ->
  exists h' sorted,
    Metaheuristic.sort P elements h = Some (h', sorted)
    /\ Permutation sorted elements.
Proof.
  intros Hne Hev.
  destruct (Nat.ltb_spec 1 (objectives P)) as [Hmulti | Hsingle].
  - destruct (@sort_succeeds P elements h Hne (Hev Hmulti))
      as (h' & sorted & E & Hperm & _).
    now exists h', sorted.
  - unfold Metaheuristic.sort.
    destruct (Nat.ltb_spec 1 (objectives P)); [lia |].
    eexists. eexists. split; [reflexivity |].
    eapply Permutation_trans; [apply Permutation_sym, Permutation_rev |].
    apply sort_permutation.
Qed.

(** On a swarm whose state is not empty and holds particles of the store,
    [update()] completes. *)
Lemma update_completes (psw : t) :
  let mh := base psw in
  Metaheuristic.state mh <> [] ->
  (forall r, In r (Metaheuristic.state mh) ->
     particle P (Metaheuristic.heap mh) r /\ (r < Metaheuristic.fresh mh)%nat) ->
  ((1 < objectives P)%nat ->
   forall vs, length (evaluation_of P vs) = objectives P
              /\ Forall JS.is_real (evaluation_of P vs)) ->
  exists psw' previous best,
    update P psw = Some psw'
    /\ Permutation (Metaheuristic.state (base psw'))
                   (seq (Metaheuristic.fresh mh)
                        (length (Metaheuristic.state mh)))
    /\ length (Metaheuristic.state (base psw'))
       = length (Metaheuristic.state mh)
    /\ Metaheuristic.events (base psw')
       = Metaheuristic.events mh ++ ["updated"%string]
    /\ match __globalBest__ psw with
       | Some g => Some g
       | None => nth_error (Metaheuristic.state mh) 0
       end = Some previous
    /\ nth_error (Metaheuristic.state (base psw')) 0 = Some best
    /\ __globalBest__ psw'
       = Some (if JS.ltb (compare P (Metaheuristic.heap (base psw') previous)
                                    (Metaheuristic.heap (base psw') best))
                         JS.zero
               then best else previous).
Proof.
  intros mh Hne Hparticles Hevaluation. unfold update. fold mh.
  assert (Hprev : exists previous,
             match __globalBest__ psw with
             | Some g => Some g
             | None => nth_error (Metaheuristic.state mh) 0
             end = Some previous).
  { destruct (__globalBest__ psw) as [g |]; [now exists g |].
    destruct (Metaheuristic.state mh) as [| first rest]; [congruence |].
    now exists first. }
  destruct Hprev as (previous & Eprev). rewrite Eprev.
  destruct (@map_elements_result previous (Metaheuristic.state mh)
              (with_globalBest (Some previous) psw) Hparticles)
    as (psw1 & E1 & _ & _ & Ev1 & _ & V1 & G1).
  cbn [base with_globalBest __globalBest__] in E1, Ev1, V1, G1.
  fold mh in E1, Ev1, V1.
  rewrite E1.
  set (created := seq (Metaheuristic.fresh mh)
                      (length (Metaheuristic.state mh))) in *.
  assert (Hcreated : created <> []).
  { unfold created. destruct (Metaheuristic.state mh); [congruence | discriminate]. }
  destruct (@sort_completes created (Metaheuristic.heap (base psw1)) Hcreated)
    as (h2 & sorted & E2 & Hperm).
  { intros Hmulti r Hr. destruct (Ev1 r Hr) as (vs & Evs).
    exists (evaluation_of P vs). split; [exact Evs | now apply Hevaluation]. }
  rewrite E2. cbn [__globalBest__ with_base]. rewrite G1.
  cbn [__globalBest__ with_globalBest].
  destruct sorted as [| best rest] eqn:Es.
  { apply Permutation_nil in Hperm. exfalso. exact (Hcreated Hperm). }
  cbn [nth_error].
  exists (with_base
            (Metaheuristic.onUpdate
               (base (if JS.ltb (compare P (h2 previous) (h2 best)) JS.zero
                      then with_globalBest (Some best)
                             (with_base
                                (Metaheuristic.with_state (best :: rest)
                                   (Metaheuristic.with_heap h2 (base psw1)))
                                psw1)
                      else with_base
                             (Metaheuristic.with_state (best :: rest)
                                (Metaheuristic.with_heap h2 (base psw1)))
                             psw1)))
            (if JS.ltb (compare P (h2 previous) (h2 best)) JS.zero
             then with_globalBest (Some best)
                    (with_base
                       (Metaheuristic.with_state (best :: rest)
                          (Metaheuristic.with_heap h2 (base psw1)))
                       psw1)
             else with_base
                    (Metaheuristic.with_state (best :: rest)
                       (Metaheuristic.with_heap h2 (base psw1)))
                    psw1)),
         previous, best.
  split; [reflexivity |].
  assert (Hlen : length (best :: rest) = length (Metaheuristic.state mh)).
  { rewrite (Permutation_length Hperm). unfold created. apply length_seq. }
  destruct (JS.ltb (compare P (h2 previous) (h2 best)) JS.zero) eqn:Ecmp;
    cbn [base with_base with_globalBest __globalBest__];
    unfold Metaheuristic.onUpdate; handlers;
    rewrite ?Ecmp, ?G1; cbn [__globalBest__ with_globalBest];
    (refine (conj Hperm (conj Hlen (conj _ (conj eq_refl (conj eq_refl eq_refl))))));
    now rewrite V1.
Qed.

(** Whatever [nextVelocity] returns, the swarm it leaves is the swarm
    after two draws of the generator. *)
Lemma nextVelocity_swarm (element globalBest : ref) (psw psw1 : t)
  (velocity : list JS.num) :
  nextVelocity element globalBest psw = Some (velocity, psw1) ->
  psw1 = with_base
           (Metaheuristic.with_random
              (fun k => Metaheuristic.random (base psw) (S (S k))) (base psw))
           psw.
Proof.
  unfold nextVelocity, random_random.
  destruct (match Element.values _ with [] => Some [] | _ => _ end);
    [| discriminate].
  now intros [= _ <-].
Qed.

(** Whatever [nextElement] returns, the element is the next object of the
    store, and the state, the events and the global best are as before. *)
Lemma nextElement_swarm (element globalBest r : ref) (psw psw' : t) :
  nextElement P element globalBest psw = Some (r, psw') ->
  r = Metaheuristic.fresh (base psw)
  /\ Metaheuristic.fresh (base psw') = S (Metaheuristic.fresh (base psw))
  /\ Metaheuristic.state (base psw') = Metaheuristic.state (base psw)
  /\ Metaheuristic.events (base psw') = Metaheuristic.events (base psw)
  /\ __globalBest__ psw' = __globalBest__ psw.
Proof.
  unfold nextElement.
  destruct (nextVelocity element globalBest psw) as [[velocity psw1] |] eqn:Ev;
    [| discriminate].
  apply nextVelocity_swarm in Ev. subst psw1.
  destruct (sequence _) as [nextValues |]; [| discriminate].
  destruct (Element.__localBest__ _) as [localBest |]; [| discriminate].
  intros [= <- <-]. now cbn.
Qed.

Lemma map_elements_swarm (globalBest : ref) (l created : list ref)
  (psw psw' : t) :
  map_elements (fun element => nextElement P element globalBest) l psw
  = Some (created, psw') ->
  created = seq (Metaheuristic.fresh (base psw)) (length l)
  /\ Metaheuristic.events (base psw') = Metaheuristic.events (base psw)
  /\ __globalBest__ psw' = __globalBest__ psw.
Proof.
  revert created psw. induction l as [| x l IH]; intros created psw;
    cbn [map_elements].
  - now intros [= <- <-].
  - destruct (nextElement P x globalBest psw) as [[r psw1] |] eqn:E1;
      [| discriminate].
    cbn [fst snd].
    destruct (map_elements _ l psw1) as [[rs psw2] |] eqn:E2; [| discriminate].
    cbn [fst snd]. intros [= <- <-].
    destruct (nextElement_swarm _ _ _ E1) as (-> & F1 & _ & V1 & G1).
    destruct (IH _ _ E2) as (-> & V2 & G2).
    cbn [length seq]. rewrite F1. repeat split; congruence.
Qed.

Lemma sort_rearranges (elements sorted : list ref) (h h' : Heap) :
  Metaheuristic.sort P elements h = Some (h', sorted) ->
  Permutation sorted elements.
Proof.
  unfold Metaheuristic.sort, Metaheuristic.multiObjectiveSort,
    Metaheuristic.nonDominatedSort.
  destruct (1 <? objectives P)%nat.
  - destruct (Metaheuristic.paretoAnalysis P elements h) as [h1 |];
      [| discriminate].
    destruct (Metaheuristic.crowdingDistance P elements h1) as [h2 |];
      [| discriminate].
    intros [= _ <-]. apply sort_permutation.
  - intros [= _ <-].
    eapply Permutation_trans; [apply Permutation_sym, Permutation_rev |].
    apply sort_permutation.
Qed.

(** C7.  Whenever the particle-swarm [update()] completes, the state it
    leaves is an arrangement of the objects it created, one for each element
    of the state before, so its length is the same; the only event it emits
    is "updated" (neither "expanded" nor "sieved"); and the global best
    becomes the first element of the new state when [problem.compare] of
    the previous global best and that element is negative, and stays the
    previous one otherwise.  On a swarm whose state is not empty and holds
    particles of the store, [update()] does complete. *)
Theorem update_keeps_population_size (psw : t) :
  let mh := base psw in
  (forall psw',
      update P psw = Some psw' ->
      length (Metaheuristic.state (base psw'))
      = length (Metaheuristic.state mh)
      /\ Permutation (Metaheuristic.state (base psw'))
                     (seq (Metaheuristic.fresh mh)
                          (length (Metaheuristic.state mh)))
      /\ Metaheuristic.events (base psw')
         = Metaheuristic.events mh ++ ["updated"%string]
      /\ exists previous best,
           match __globalBest__ psw with
           | Some g => Some g
           | None => nth_error (Metaheuristic.state mh) 0
           end = Some previous
           /\ nth_error (Metaheuristic.state (base psw')) 0 = Some best
           /\ __globalBest__ psw'
              = Some (if JS.ltb (compare P
                                   (Metaheuristic.heap (base psw') previous)
                                   (Metaheuristic.heap (base psw') best))
                                JS.zero
                      then best else previous))
  /\ (Metaheuristic.state mh <> [] ->
      (forall r, In r (Metaheuristic.state mh) ->
         particle P (Metaheuristic.heap mh) r
         /\ (r < Metaheuristic.fresh mh)%nat) ->
      ((1 < objectives P)%nat ->
       forall vs, length (evaluation_of P vs) = objectives P
                  /\ Forall JS.is_real (evaluation_of P vs)) ->
      exists psw', update P psw = Some psw').
Proof.
  intros mh. split.
  - intros psw'. unfold update. fold mh.
    set (globalBest := match __globalBest__ psw with
                       | Some g => Some g
                       | None => nth_error (Metaheuristic.state mh) 0
                       end).
    destruct (match globalBest with
              | Some g => map_elements _ (Metaheuristic.state mh) _
              | None => Some ([], with_globalBest globalBest psw)
              end) as [[created psw1] |] eqn:E1; [| discriminate].
    destruct (Metaheuristic.sort P created (Metaheuristic.heap (base psw1)))
      as [[h2 sorted] |] eqn:E2; [| discriminate].
    cbn [__globalBest__ with_base].
    destruct (__globalBest__ psw1) as [previous |] eqn:Eg; [| discriminate].
    destruct sorted as [| best rest]; [discriminate |]. cbn [nth_error].
    assert (Hperm : Permutation (best :: rest) created)
      by (eapply sort_rearranges, E2).
    assert (H1 : created = seq (Metaheuristic.fresh mh)
                               (length (Metaheuristic.state mh))
                 /\ Metaheuristic.events (base psw1) = Metaheuristic.events mh
                 /\ globalBest = Some previous).
    { destruct globalBest as [g |] eqn:Egb.
      - destruct (map_elements_swarm _ _ _ E1) as (-> & V & G).
        cbn [base with_globalBest __globalBest__] in V, G.
        repeat split; [exact V | congruence].
      - injection E1 as <- <-. apply Permutation_sym in Hperm.
        apply Permutation_nil_cons in Hperm. contradiction. }
    destruct H1 as (-> & V1 & Egb).
    intros [= <-].
    assert (Hlen : length (best :: rest) = length (Metaheuristic.state mh)).
    { rewrite (Permutation_length Hperm). apply length_seq. }
    destruct (JS.ltb (compare P (h2 previous) (h2 best)) JS.zero) eqn:Ecmp;
      cbn [base with_base with_globalBest __globalBest__];
      unfold Metaheuristic.onUpdate; handlers;
      (refine (conj Hlen (conj Hperm (conj _ _))); [now rewrite V1 |]);
      exists previous, best; rewrite ?Ecmp;
      (refine (conj Egb (conj eq_refl _))); [reflexivity | exact Eg].
  - intros Hne Hparticles Hevaluation.
    destruct (@update_completes psw Hne Hparticles Hevaluation)
      as (psw' & _ & _ & E & _).
    now exists psw'.
Qed.

End SwarmUpdate.

Section SwarmUpdateExamples.

Import ParticleSwarm Swarm.

(** The update of the example swarm: the second particle is thrown against
    the bounds of both dimensions and lands on (0, 19), which evaluates
    better than the global best so far. *)
Example update_example_swarm :
  option_map
    (fun psw' =>
       (Metaheuristic.state (base psw'), __globalBest__ psw',
        Metaheuristic.events (base psw'),
        map (fun r => Element.__values__ (Metaheuristic.heap (base psw') r))
            (Metaheuristic.state (base psw'))))
    (update Examples.minimize Examples.swarm)
  = Some ([101; 100], Some 101, ["updated"%string],
          [[JS.Fin 0; JS.Fin (19 # 1)];
           [JS.Fin (1192 # 320); JS.Fin (872 # 320)]]).
Proof. vm_compute. reflexivity. Qed.

Lemma example_swarm_particles (r : ref) :
  In r [0; 1] ->
  particle Examples.minimize Examples.particles r /\ (r < 100)%nat.
Proof.
  intros [<- | [<- | []]]; (split; [| lia]);
    (split; [now eexists | split; [now eexists | cbn; lia]]).
Qed.

(** The theorem at the example swarm. *)
Lemma update_keeps_population_size_witness :
  Metaheuristic.state (base Examples.swarm) <> []
  /\ (forall r, In r (Metaheuristic.state (base Examples.swarm)) ->
        particle Examples.minimize
                 (Metaheuristic.heap (base Examples.swarm)) r
        /\ (r < Metaheuristic.fresh (base Examples.swarm))%nat)
  /\ exists psw',
      update Examples.minimize Examples.swarm = Some psw'
      /\ length (Metaheuristic.state (base psw')) = 2%nat
      /\ Metaheuristic.events (base psw') = ["updated"%string].
Proof.
  assert (Hne : Metaheuristic.state (base Examples.swarm) <> [])
    by discriminate.
  assert (Hp : forall r, In r (Metaheuristic.state (base Examples.swarm)) ->
             particle Examples.minimize
                      (Metaheuristic.heap (base Examples.swarm)) r
             /\ (r < Metaheuristic.fresh (base Examples.swarm))%nat)
    by exact example_swarm_particles.
  refine (conj Hne (conj Hp _)).
  destruct (@update_keeps_population_size Examples.minimize Examples.swarm)
    as (Hany & Hcompletes).
  destruct (Hcompletes Hne Hp) as (psw' & E); [cbn; lia |].
  destruct (Hany psw' E) as (Hlen & _ & Hev & _).
  exists psw'. refine (conj E (conj Hlen Hev)).
Defined.

End SwarmUpdateExamples.

(* ================================================================== *)
(** * initiate, expansion and sieve, without an argument and with one   *)
(* ================================================================== *)

Section Workflow.

Import Metaheuristic Run.

Variable P : Problem.

(** The objects [create] makes are the next [n] identities of the store;
    each is as [new problem.Element()] makes it, and the other objects are
    left as they are. *)
Lemma create_spec (n : nat) (h : Heap) (r : ref) :
  snd (create P n h r) = seq r n
  /\ forall x, fst (create P n h r) x
               = if (r <=? x)%nat && (x <? r + n)%nat
                 then Element.make (initial P x) else h x.
Proof.
  revert h r. induction n as [| n IH]; intros h r; cbn [create].
  - split; [reflexivity |]. intros x.
    destruct (Nat.leb_spec r x), (Nat.ltb_spec x (r + 0)); cbn; reflexivity || lia.
  - specialize (IH (upd h r (Element.make (initial P r))) (S r)).
    destruct (create P n _ _) as [h' rs]. cbn [fst snd] in *.
    destruct IH as [Hrs Hh]. split; [now rewrite Hrs |].
    intros x. rewrite Hh.
    destruct (Nat.leb_spec (S r) x), (Nat.ltb_spec x (S r + n)),
      (Nat.leb_spec r x), (Nat.ltb_spec x (r + S n)); cbn [andb]; try lia;
      try reflexivity;
      first [ apply upd_neq; lia
            | replace x with r by lia; apply upd_eq ].
Qed.

(** X1.  [initiate(size)], with the size given or the configured one, throws
    for a negative size.  Otherwise it replaces the state, whatever it holds,
    by that many new elements: the next identities of the store, so distinct
    objects that were not in the store, each as [new problem.Element()]
    makes it and none with an evaluation.  The objects the store had are
    untouched, "initiated" is the one event emitted, and the step and the
    statistics are as before. *)
Theorem initiate_replaces_state (size : option Z) (mh : t) :
  let n := match size with None => Metaheuristic.size mh | Some s => s end in
  ((n < 0)%Z -> initiate P size mh = None)
  /\ ((0 <= n)%Z ->
      exists mh',
        initiate P size mh = Some mh'
        /\ state mh' = seq (fresh mh) (Z.to_nat n)
        /\ NoDup (state mh')
        /\ fresh mh' = (fresh mh + Z.to_nat n)%nat
        /\ (forall r, In r (state mh') ->
              (fresh mh <= r)%nat
              /\ heap mh' r = Element.make (initial P r)
              /\ Element.evaluation (heap mh' r) = None)
        /\ (forall r, (r < fresh mh)%nat -> heap mh' r = heap mh r)
        /\ events mh' = events mh ++ ["initiated"%string]
        /\ step mh' = step mh
        /\ statistics mh' = statistics mh).
Proof.
  intros n. unfold initiate, new_Array. fold n. split.
  - intros Hneg. destruct (Z.ltb_spec n 0); [reflexivity | lia].
  - intros Hpos. destruct (Z.ltb_spec n 0); [lia |].
    destruct (create_spec (Z.to_nat n) (heap mh) (fresh mh)) as [Hrs Hh].
    destruct (create P _ _ _) as [h elems]. cbn [fst snd] in *.
    eexists. split; [reflexivity |]. handlers. subst elems.
    refine (conj eq_refl (conj (seq_NoDup _ _) (conj eq_refl
             (conj _ (conj _ (conj eq_refl (conj eq_refl eq_refl))))))).
    + intros r Hr. apply in_seq in Hr. rewrite Hh.
      destruct (Nat.leb_spec (fresh mh) r), (Nat.ltb_spec r (fresh mh + Z.to_nat n));
        cbn; try lia.
      now repeat split.
    + intros r Hr. rewrite Hh.
      destruct (Nat.leb_spec (fresh mh) r); cbn; [lia | reflexivity].
Qed.



(** X3.  [sieve()] without an argument, on an engine whose size is not
    negative, cuts the state to its first [size] elements (to all of them
    when there are fewer); a second [sieve()] changes nothing more.  With a
    negative size it is the elements at the end of the state that are cut,
    as many as the size is below zero.  The store is untouched and "sieved"
    is the one event emitted. *)
Theorem sieve_default_keeps_first_elements (mh : t) :
  ((0 <= size mh)%Z ->
     state (sieve None mh) = firstn (Z.to_nat (size mh)) (state mh)
     /\ length (state (sieve None mh))
        = Nat.min (Z.to_nat (size mh)) (length (state mh))
     /\ state (sieve None (sieve None mh)) = state (sieve None mh))
  /\ ((size mh < 0)%Z ->
      state (sieve None mh)
      = firstn (length (state mh) - Z.to_nat (- size mh)) (state mh))
  /\ heap (sieve None mh) = heap mh
  /\ events (sieve None mh) = events mh ++ ["sieved"%string].
Proof.
  assert (Hsize : forall m, size (sieve None m) = size m).
  { intros m. unfold sieve. handlers. now destruct (_ >? _)%Z. }
  refine (conj _ (conj _ (conj _ _))).
  - intros Hpos. rewrite !sieve_default by (rewrite ?Hsize; assumption).
    rewrite Hsize. refine (conj eq_refl (conj (length_firstn _ _) _)).
    rewrite firstn_firstn. now rewrite Nat.min_id.
  - intros Hneg. rewrite sieve_state. unfold JS.slice0.
    destruct (Z.gtb_spec (Z.of_nat (length (state mh))) (size mh)); [| lia].
    destruct (Z.ltb_spec (size mh) 0); [| lia].
    f_equal. lia.
  - unfold sieve. handlers. now destruct (_ >? _)%Z.
  - unfold sieve. handlers. now destruct (_ >? _)%Z.
Qed.

End Workflow.

Section WorkflowExamples.

Import Metaheuristic Run.

(** X1 at the unstarted engine of size 5. *)
Lemma initiate_replaces_state_witness :
  (0 <= size Examples.unstarted)%Z
  /\ exists mh',
      initiate Examples.minimize None Examples.unstarted = Some mh'
      /\ state mh' = [100; 101; 102; 103; 104].
Proof.
  assert (H : (0 <= size Examples.unstarted)%Z) by (cbn; lia).
  split; [exact H |].
  destruct (proj2 (initiate_replaces_state Examples.minimize None
                     Examples.unstarted) H) as (mh' & E & Hs & _).
  exists mh'. split; [exact E | exact Hs].
Defined.


(** X3 at an engine of size 2 with five elements. *)
Lemma sieve_default_keeps_first_elements_witness :
  let mh := Examples.engine (Examples.store (initial Examples.minimize))
                            2 3 [0; 1; 2; 3; 4] in
  (0 <= size mh)%Z /\ state (sieve None mh) = [0; 1].
Proof.
  intros mh.
  assert (H : (0 <= size mh)%Z) by (cbn; lia).
  split; [exact H |].
  exact (proj1 (proj1 (sieve_default_keeps_first_elements mh) H)).
Defined.

End WorkflowExamples.

(* ================================================================== *)
(** * sort with one objective, and analyze                              *)
(* ================================================================== *)

Section SingleObjective.

Import Metaheuristic Order.

Variable P : Problem.





End SingleObjective.

Section Analyze.

Import Metaheuristic Order.

Lemma collect_none (A : Type) (xs : list (option (list A))) :
  In None xs -> collect xs = None.
Proof.
  induction xs as [| x xs IH]; intros Hin; [contradiction |].
  cbn [collect]. destruct Hin as [-> | Hin]; [reflexivity |].
  destruct x; [| reflexivity]. now rewrite IH.
Qed.

Lemma collect_Forall (A : Type) (Q : A -> Prop) (xs : list (option (list A)))
  (l : list A) :
  (forall a, In (Some a) xs -> Forall Q a) ->
  collect xs = Some l -> Forall Q l.
Proof.
  revert l. induction xs as [| x xs IH]; intros l Hxs; cbn [collect].
  - intros [= <-]. constructor.
  - destruct x as [a |]; [| discriminate].
    destruct (collect xs) as [b |]; [| discriminate].
    intros [= <-]. apply Forall_app. split.
    + apply Hxs. now left.
    + apply IH; [| reflexivity]. intros a' Ha'. apply Hxs. now right.
Qed.

(** The records of the elements with an evaluation, one for each. *)
Lemma single_objective_records (step : Z) (h : Heap) (l : list ref) :
  flat_map (fun r =>
              match Element.evaluation (h r) with
              | Some ev => [ {| key := "evaluation"; index := None;
                                at_step := step; value := JS.item ev 0 |} ]
              | None => []
              end) l
  = map (evaluation_record step h) (filter (has_evaluation h) l).
Proof.
  induction l as [| r l IH]; [reflexivity |]. cbn [flat_map filter].
  unfold has_evaluation at 1.
  destruct (Element.evaluation (h r)) eqn:E; cbn [app map]; rewrite IH;
    [| reflexivity].
  f_equal. unfold evaluation_record, evaluation_at. now rewrite E.
Qed.

(** A completed [analyze()] keeps the records the statistics held and adds
    records of the current step. *)
Lemma analyze_appends (mh mh' : t) (stats : list Stat) :
  analyze mh = Some mh' -> statistics mh = Some stats ->
  exists added,
    statistics mh' = Some (stats ++ added)
    /\ Forall (fun s => at_step s = step mh) added
    /\ events mh' = events mh ++ ["analyzed"%string]
    /\ heap mh' = heap mh.
Proof.
  unfold analyze. intros E Es. rewrite Es in E.
  destruct (nth_error (state mh) 0) as [first |]; [| discriminate].
  destruct (Element.evaluation _) as [ev0 |]; [| discriminate].
  destruct (if (length ev0 =? 1)%nat then _ else _) as [added |] eqn:Ea;
    [| discriminate].
  injection E as <-. exists added. handlers.
  refine (conj eq_refl (conj _ (conj eq_refl eq_refl))).
  destruct (length ev0 =? 1)%nat.
  - injection Ea as <-. apply Forall_flat_map, Forall_forall.
    intros r _. destruct (Element.evaluation (heap mh r)); now repeat constructor.
  - refine (@collect_Forall Stat (fun s => at_step s = step mh) _ added _ Ea).
    intros a Ha. apply in_map_iff in Ha. destruct Ha as (r & Er & _).
    unfold analyze_element in Er.
    destruct (Element.evaluation (heap mh r)) as [ev |]; [| discriminate].
    destruct (length ev0 <? length ev)%nat; [discriminate |].
    destruct (Element.pareto (heap mh r)) as [p |]; [| discriminate].
    injection Er as <-. apply Forall_app. split.
    + apply Forall_map, Forall_forall. reflexivity.
    + now repeat constructor.
Qed.

(** X6.  An engine that keeps no statistics is left as it is by
    [analyze()], which emits nothing then, whatever the state.  An engine
    that keeps statistics needs a first element with an evaluation:
    [analyze()] throws on an empty state and on a state whose first element
    has none.  And unless that evaluation has exactly one number, it throws
    as soon as an element of the state is without an evaluation or without
    the annotation of [paretoAnalysis]. *)
Theorem analyze_needs_evaluated_state (mh : t) :
  (statistics mh = None -> analyze mh = Some mh)
  /\ (statistics mh <> None ->
      (state mh = [] -> analyze mh = None)
      /\ (forall first,
            nth_error (state mh) 0 = Some first ->
            Element.evaluation (heap mh first) = None ->
            analyze mh = None)
      /\ (forall first ev0 r,
            nth_error (state mh) 0 = Some first ->
            Element.evaluation (heap mh first) = Some ev0 ->
            length ev0 <> 1%nat ->
            In r (state mh) ->
            Element.evaluation (heap mh r) = None
            \/ Element.pareto (heap mh r) = None ->
            analyze mh = None)).
Proof.
  unfold analyze. split.
  - now intros ->.
  - destruct (statistics mh) as [stats |]; [intros _ | congruence].
    refine (conj _ (conj _ _)).
    + now intros ->.
    + intros first -> ->. reflexivity.
    + intros first ev0 r -> -> Hlen Hr Hmissing.
      apply Nat.eqb_neq in Hlen. rewrite Hlen.
      rewrite collect_none; [reflexivity |].
      apply in_map_iff. exists r. split; [| exact Hr].
      unfold analyze_element.
      destruct (Element.evaluation (heap mh r)) as [ev |]; [| reflexivity].
      destruct (length ev0 <? length ev)%nat; [reflexivity |].
      destruct Hmissing as [Hm | Hm]; [discriminate | now rewrite Hm].
Qed.

(** X7.  On a state whose first element has an evaluation of exactly one
    number, [analyze()] of an engine that keeps statistics completes: after
    the records the statistics held it adds one record for each element of
    the state that has an evaluation, in the order of the state, with the key
    "evaluation", the current step and the first number of the evaluation;
    the elements without an evaluation are passed over.  The state, the
    store and the step are as before, and "analyzed" is the one event
    emitted. *)
Theorem analyze_single_objective_records (mh : t) (stats : list Stat)
  (first : ref) (ev0 : list JS.num) :
  statistics mh = Some stats ->
  nth_error (state mh) 0 = Some first ->
  Element.evaluation (heap mh first) = Some ev0 ->
  length ev0 = 1%nat ->
  exists mh',
    analyze mh = Some mh'
    /\ statistics mh'
       = Some (stats ++ map (evaluation_record (step mh) (heap mh))
                            (filter (has_evaluation (heap mh)) (state mh)))
    /\ state mh' = state mh
    /\ heap mh' = heap mh
    /\ step mh' = step mh
    /\ events mh' = events mh ++ ["analyzed"%string].
Proof.
  intros Es Efirst Eev Hlen. unfold analyze. rewrite Es, Efirst, Eev, Hlen.
  cbn [Nat.eqb]. eexists. split; [reflexivity |]. handlers.
  now rewrite single_objective_records.
Qed.

End Analyze.

Section SingleObjectiveExamples.

Import Metaheuristic Order.



(** X6 at the engine with five elements that have no evaluation yet. *)
Lemma analyze_needs_evaluated_state_witness :
  statistics Examples.five <> None
  /\ nth_error (state Examples.five) 0 = Some 0
  /\ Element.evaluation (heap Examples.five 0) = None
  /\ analyze Examples.five = None.
Proof.
  assert (H1 : statistics Examples.five <> None) by discriminate.
  assert (H2 : nth_error (state Examples.five) 0 = Some 0) by reflexivity.
  assert (H3 : Element.evaluation (heap Examples.five 0) = None) by reflexivity.
  refine (conj H1 (conj H2 (conj H3 _))).
  exact (proj1 (proj2 (proj2 (analyze_needs_evaluated_state Examples.five) H1))
           0 H2 H3).
Defined.

(** X7 at the swarm's engine: two particles with one evaluation each. *)
Lemma analyze_single_objective_records_witness :
  let mh := ParticleSwarm.base Examples.swarm in
  statistics mh = Some []
  /\ nth_error (state mh) 0 = Some 0
  /\ Element.evaluation (heap mh 0) = Some [Examples.q 3]
  /\ exists mh',
      analyze mh = Some mh'
      /\ option_map (map value) (statistics mh')
         = Some [Examples.q 3; Examples.q 6].
Proof.
  intros mh.
  assert (H1 : statistics mh = Some []) by reflexivity.
  assert (H2 : nth_error (state mh) 0 = Some 0) by reflexivity.
  assert (H3 : Element.evaluation (heap mh 0) = Some [Examples.q 3])
    by reflexivity.
  refine (conj H1 (conj H2 (conj H3 _))).
  destruct (@analyze_single_objective_records mh [] 0 [Examples.q 3]
              H1 H2 H3 eq_refl)
    as (mh' & E & Hs & _).
  exists mh'. split; [exact E |]. rewrite Hs. reflexivity.
Defined.

End SingleObjectiveExamples.

(* ================================================================== *)
(** * What the ranking leaves alone                                     *)
(* ================================================================== *)

Section Frames.

Import Metaheuristic Frame.

Variable P : Problem.

Lemma same_but_ranking_refl (e : Element.t) : same_but_ranking e e.
Proof. now repeat split. Qed.

Lemma same_but_ranking_trans (e1 e2 e3 : Element.t) :
  same_but_ranking e1 e2 -> same_but_ranking e2 e3 -> same_but_ranking e1 e3.
Proof.
  unfold same_but_ranking. intros (A1 & A2 & A3 & A4) (B1 & B2 & B3 & B4).
  repeat split; congruence.
Qed.

Lemma same_but_pareto_ranking (e e' : Element.t) :
  Pareto.same_but_pareto e e' -> same_but_ranking e e'.
Proof. intros (A1 & A2 & A3 & A4 & A5). now repeat split. Qed.

Lemma same_but_distance_ranking (e e' : Element.t) :
  Crowding.same_but_distance e e' -> same_but_ranking e e'.
Proof. intros (A1 & A2 & A3 & A4 & A5). now repeat split. Qed.

(** ** paretoAnalysis *)

Lemma record_domination_frame (winner loser : ref) (h h' : Heap) (r : ref) :
  record_domination winner loser h = Some h' ->
  r <> winner -> r <> loser -> h' r = h r.
Proof.
  unfold record_domination.
  destruct (Element.pareto (h winner)); [| discriminate].
  destruct (Element.pareto (modify _ _ _ loser)); [| discriminate].
  intros [= <-] Hw Hl. now rewrite !modify_neq.
Qed.

Lemma paretoAnalysis_against_frame (elem1 : ref) (rest : list ref)
  (h h' : Heap) (r : ref) :
  paretoAnalysis_against P elem1 rest h = Some h' ->
  r <> elem1 -> ~ In r rest -> h' r = h r.
Proof.
  revert h. induction rest as [| elem2 rest IH]; intros h; cbn [paretoAnalysis_against].
  - now intros [= <-].
  - destruct (if JS.gtb _ _ then _ else _) as [h1 |] eqn:E1; [| discriminate].
    intros E2 H1 Hrest.
    rewrite (IH h1 E2 H1) by (intros ?; apply Hrest; now right).
    clear IH E2.
    assert (H2 : r <> elem2) by (intros ->; apply Hrest; now left).
    destruct (JS.gtb _ _); [| destruct (JS.ltb _ _)].
    + eapply record_domination_frame; eassumption.
    + eapply record_domination_frame; eassumption.
    + now injection E1 as <-.
Qed.

Lemma paretoAnalysis_pairs_frame (elements : list ref) (h h' : Heap) (r : ref) :
  paretoAnalysis_pairs P elements h = Some h' ->
  ~ In r elements -> h' r = h r.
Proof.
  revert h. induction elements as [| elem1 rest IH]; intros h;
    cbn [paretoAnalysis_pairs].
  - now intros [= <-].
  - destruct (paretoAnalysis_against P elem1 rest h) as [h1 |] eqn:E1;
      [| discriminate].
    intros E2 Hout.
    rewrite (IH h1 E2) by (intros ?; apply Hout; now right).
    eapply paretoAnalysis_against_frame; [exact E1 | |].
    + intros ->. apply Hout. now left.
    + intros ?. apply Hout. now right.
Qed.

(** [paretoAnalysis] does not touch the objects that are not in the array. *)
Lemma paretoAnalysis_frame (elements : list ref) (h h' : Heap) (r : ref) :
  paretoAnalysis P elements h = Some h' -> ~ In r elements -> h' r = h r.
Proof.
  unfold paretoAnalysis. intros E Hout.
  rewrite (@paretoAnalysis_pairs_frame _ _ _ r E Hout).
  now apply fold_modify_out.
Qed.

(** Whenever it completes, it changes nothing but the annotation. *)
Lemma paretoAnalysis_same (elements : list ref) (h h' : Heap) (r : ref) :
  paretoAnalysis P elements h = Some h' -> Pareto.same_but_pareto (h r) (h' r).
Proof.
  intros E.
  destruct (paretoAnalysis_records P elements h) as (h1 & added & E1 & _ & _ & _ & S & _).
  rewrite E in E1. injection E1 as <-. apply S.
Qed.

(** ** crowdingDistance *)

Lemma crowd_interior_frame (i : nat) (es : list ref) (js : list nat) (h : Heap) :
  (forall j, In j js -> (j < length es)%nat) ->
  let h' := fold_left (crowd_interior i es) js h in
  (forall r, Crowding.same_but_distance (h r) (h' r))
  /\ (forall r, ~ In r es -> h' r = h r).
Proof.
  revert h. induction js as [| j js IH]; intros h Hjs; cbn [fold_left].
  - split; [intros r; apply same_but_distance_refl | reflexivity].
  - destruct (IH (crowd_interior i es h j)) as (S2 & F2);
      [intros j' Hj'; apply Hjs; now right |].
    split.
    + intros r. eapply same_but_distance_trans; [| apply S2].
      unfold crowd_interior.
      destruct (Nat.eq_dec r (nth j es O)) as [-> | Hne].
      * rewrite modify_eq. now repeat split.
      * rewrite modify_neq by assumption. apply same_but_distance_refl.
    + intros r Hout. rewrite (F2 r Hout). unfold crowd_interior.
      apply modify_neq. intros ->. apply Hout, nth_In, Hjs. now left.
Qed.

Lemma crowdingDistance_turn_frame (i : nat) (h h' : Heap) (es es' : list ref) :
  crowdingDistance_turn i (h, es) = Some (h', es') ->
  Permutation es' es
  /\ (forall r, Crowding.same_but_distance (h r) (h' r))
  /\ (forall r, ~ In r es -> h' r = h r).
Proof.
  unfold crowdingDistance_turn.
  destruct (_ && _); [discriminate |].
  set (sorted := JS.sort (by_objective h i) es).
  destruct (nth_error sorted 0) as [first |] eqn:Efirst; [| discriminate].
  destruct (nth_error sorted (length sorted - 1)) as [last |] eqn:Elast;
    [| discriminate].
  intros [= <- <-].
  destruct (@crowd_interior_frame i sorted (seq 1 (length sorted - 2))
              (modify (modify h first (Element.set_crowdingDistance JS.PInf))
                      last (Element.set_crowdingDistance JS.PInf)))
    as (S3 & F3).
  { intros j Hj. apply in_seq in Hj. lia. }
  assert (Hperm : Permutation sorted es) by apply sort_permutation.
  refine (conj Hperm (conj _ _)).
  - intros r. eapply same_but_distance_trans; [| apply S3].
    eapply same_but_distance_trans; apply modify_distance_same.
  - intros r Hout.
    assert (Hout' : ~ In r sorted).
    { intros Hin. apply Hout. eapply Permutation_in; eassumption. }
    rewrite (F3 r Hout'). rewrite !modify_neq; [reflexivity | |].
    + intros ->. apply Hout', (nth_error_In _ _ Efirst).
    + intros ->. apply Hout', (nth_error_In _ _ Elast).
Qed.

Lemma crowdingDistance_turns_frame (indices : list nat) (h h' : Heap)
  (es es' : list ref) :
  for_each crowdingDistance_turn indices (h, es) = Some (h', es') ->
  Permutation es' es
  /\ (forall r, Crowding.same_but_distance (h r) (h' r))
  /\ (forall r, ~ In r es -> h' r = h r).
Proof.
  revert h es. induction indices as [| i indices IH]; intros h es;
    cbn [for_each].
  - intros [= <- <-].
    refine (conj (Permutation_refl _) (conj _ _)); [| reflexivity].
    intros r. apply same_but_distance_refl.
  - destruct (crowdingDistance_turn i (h, es)) as [[h1 es1] |] eqn:E1;
      [| discriminate].
    intros E2.
    destruct (@crowdingDistance_turn_frame _ _ _ _ _ E1) as (P1 & S1 & F1).
    destruct (IH _ _ E2) as (P2 & S2 & F2).
    refine (conj (Permutation_trans P2 P1) (conj _ _)).
    + intros r. apply (same_but_distance_trans (S1 r) (S2 r)).
    + intros r Hout. rewrite F2, F1; [reflexivity | exact Hout |].
      intros Hin. apply Hout. eapply Permutation_in; eassumption.
Qed.

(** Whenever [crowdingDistance] completes, it has changed nothing but the
    distances, and only of the elements of the array. *)
Lemma crowdingDistance_frame (elements : list ref) (h h' : Heap) :
  crowdingDistance P elements h = Some h' ->
  (forall r, Crowding.same_but_distance (h r) (h' r))
  /\ (forall r, ~ In r elements -> h' r = h r).
Proof.
  unfold crowdingDistance.
  destruct (for_each _ _ _) as [[h1 es1] |] eqn:E; [| discriminate].
  intros [= <-]. cbn [fst].
  destruct (@crowdingDistance_turns_frame _ _ _ _ _ E) as (_ & S1 & F1).
  split.
  - intros r. eapply same_but_distance_trans; [| apply S1].
    apply crowdingDistance_reset.
  - intros r Hout. rewrite (F1 r Hout). now apply fold_modify_out.
Qed.

(** ** sort *)

(** Whenever [sort] completes, it has rearranged the array and changed
    nothing but the annotations of the ranking, and only of the elements of
    the array. *)
Lemma sort_frame (elements sorted : list ref) (h h' : Heap) :
  sort P elements h = Some (h', sorted) ->
  Permutation sorted elements
  /\ (forall r, same_but_ranking (h r) (h' r))
  /\ (forall r, ~ In r elements -> h' r = h r).
Proof.
  unfold sort, multiObjectiveSort, nonDominatedSort.
  destruct (1 <? objectives P)%nat.
  - destruct (paretoAnalysis P elements h) as [h1 |] eqn:E1; [| discriminate].
    destruct (crowdingDistance P elements h1) as [h2 |] eqn:E2; [| discriminate].
    intros [= <- <-].
    destruct (@crowdingDistance_frame _ _ _ E2) as (S2 & F2).
    refine (conj (sort_permutation _ _) (conj _ _)).
    + intros r. eapply same_but_ranking_trans.
      * apply same_but_pareto_ranking, (@paretoAnalysis_same _ _ _ r E1).
      * apply same_but_distance_ranking, S2.
    + intros r Hout. rewrite (F2 r Hout).
      apply (@paretoAnalysis_frame _ _ _ r E1 Hout).
  - intros [= <- <-]. refine (conj _ (conj _ _)); [| | reflexivity].
    + eapply Permutation_trans; [apply Permutation_sym, Permutation_rev |].
      apply sort_permutation.
    + intros r. apply same_but_ranking_refl.
Qed.

End Frames.

(* ================================================================== *)
(** * The cycles of advance                                             *)
(* ================================================================== *)

Section Cycles.

Import Metaheuristic Run Frame Cycle.

Variable P : Problem.

Lemma emitted_trans (m1 m2 m3 : t) (e1 e2 : list string) :
  emitted m1 m2 e1 -> emitted m2 m3 e2 -> emitted m1 m3 (e1 ++ e2).
Proof. unfold emitted. intros -> ->. now rewrite app_assoc. Qed.

(** ** The operations of a cycle, whenever they complete *)

Lemma reset_result (mh : t) :
  step (reset mh) = (-1)%Z
  /\ size (reset mh) = size mh
  /\ state (reset mh) = state mh
  /\ heap (reset mh) = heap mh
  /\ fresh (reset mh) = fresh mh
  /\ events (reset mh) = events mh
  /\ statistics (reset mh) = option_map (fun _ => []) (statistics mh).
Proof.
  unfold reset. cbn. destruct (statistics mh) eqn:E; cbn; rewrite ?E;
    repeat split.
Qed.

Lemma initiate_result (size : option Z) (mh mh' : t) :
  initiate P size mh = Some mh' ->
  let n := match size with None => Metaheuristic.size mh | Some s => s end in
  (0 <= n)%Z
  /\ state mh' = seq (fresh mh) (Z.to_nat n)
  /\ fresh mh' = (fresh mh + Z.to_nat n)%nat
  /\ (forall r, In r (state mh') ->
        Element.__values__ (heap mh' r) = initial P r)
  /\ (forall r, (r < fresh mh)%nat -> heap mh' r = heap mh r)
  /\ emitted mh mh' ["initiated"%string]
  /\ statistics mh' = statistics mh
  /\ step mh' = step mh.
Proof.
  intros E n. unfold initiate, new_Array in E. fold n in E.
  destruct (Z.ltb_spec n 0); [discriminate |].
  destruct (create_spec P (Z.to_nat n) (heap mh) (fresh mh)) as [Hrs Hh].
  destruct (create P _ _ _) as [h elems]. cbn [fst snd] in *.
  injection E as <-. unfold emitted. handlers. subst elems.
  refine (conj H (conj eq_refl (conj eq_refl (conj _ (conj _
            (conj eq_refl (conj eq_refl eq_refl))))))).
  - intros r Hr. apply in_seq in Hr. rewrite Hh.
    destruct (Nat.leb_spec (fresh mh) r),
      (Nat.ltb_spec r (fresh mh + Z.to_nat n)); cbn; reflexivity || lia.
  - intros r Hr. rewrite Hh.
    destruct (Nat.leb_spec (fresh mh) r); cbn; [lia | reflexivity].
Qed.

Lemma expand_result (mh mh' : t) :
  expand P None mh = Some mh' ->
  (0 <= expansion_size mh)%Z
  /\ state mh' = state mh ++ seq (fresh mh) (Z.to_nat (expansion_size mh))
  /\ fresh mh' = (fresh mh + Z.to_nat (expansion_size mh))%nat
  /\ (forall r, (r < fresh mh)%nat -> heap mh' r = heap mh r)
  /\ emitted mh mh' ["expanded"%string]
  /\ statistics mh' = statistics mh.
Proof.
  unfold expand, expansion, new_Array. fold (expansion_size mh).
  destruct (Z.ltb_spec (expansion_size mh) 0); [discriminate |].
  destruct (create_spec P (Z.to_nat (expansion_size mh)) (heap mh) (fresh mh))
    as [Hrs Hh].
  destruct (create P _ _ _) as [h elems]. cbn [fst snd] in *.
  intros [= <-]. unfold emitted.
  assert (Hold : forall r, (r < fresh mh)%nat -> h r = heap mh r).
  { intros r Hr. rewrite Hh.
    destruct (Nat.leb_spec (fresh mh) r); cbn; [lia | reflexivity]. }
  destruct (length elems <? 1)%nat eqn:Elen; handlers.
  - apply Nat.ltb_lt in Elen.
    destruct elems as [| x elems]; [| cbn in Elen; lia].
    rewrite <- Hrs, app_nil_r.
    refine (conj H (conj eq_refl (conj eq_refl (conj Hold (conj eq_refl eq_refl))))).
  - rewrite <- Hrs.
    refine (conj H (conj eq_refl (conj eq_refl (conj Hold (conj eq_refl eq_refl))))).
Qed.

Lemma problem_evaluate_result (elements : list ref) (h : Heap) (r : ref) :
  Element.__values__ (problem_evaluate P elements h r) = Element.__values__ (h r)
  /\ (In r elements ->
      Element.evaluation (problem_evaluate P elements h r)
      = Some (evaluation_of P (Element.__values__ (h r))))
  /\ (~ In r elements -> problem_evaluate P elements h r = h r).
Proof.
  unfold problem_evaluate.
  destruct (in_dec Nat.eq_dec r elements) as [Hin | Hout].
  - rewrite fold_modify_in by (assumption || reflexivity).
    now repeat split.
  - rewrite fold_modify_out by assumption. now repeat split.
Qed.

Lemma evaluate_result (mh mh' : t) (sorted : list ref) :
  evaluate P None mh = Some (mh', sorted) ->
  state mh' = sorted
  /\ Permutation sorted (state mh)
  /\ (forall r, Element.__values__ (heap mh' r) = Element.__values__ (heap mh r))
  /\ (forall r, In r (state mh) ->
        Element.evaluation (heap mh' r)
        = Some (evaluation_of P (Element.__values__ (heap mh r))))
  /\ (forall r, ~ In r (state mh) -> heap mh' r = heap mh r)
  /\ fresh mh' = fresh mh
  /\ emitted mh mh' ["evaluated"%string]
  /\ statistics mh' = statistics mh.
Proof.
  unfold evaluate.
  destruct (sort P (state mh) _) as [[h sorted'] |] eqn:E; [| discriminate].
  intros [= <- <-]. unfold emitted. handlers.
  destruct (@sort_frame P _ _ _ _ E) as (Hperm & Hsame & Hframe).
  refine (conj eq_refl (conj Hperm (conj _ (conj _ (conj _
            (conj eq_refl (conj eq_refl eq_refl))))))).
  - intros r. destruct (Hsame r) as (-> & _).
    apply problem_evaluate_result.
  - intros r Hr. destruct (Hsame r) as (_ & -> & _).
    now apply problem_evaluate_result.
  - intros r Hr. rewrite (Hframe r Hr). now apply problem_evaluate_result.
Qed.

Lemma sieve_result (mh : t) :
  heap (sieve None mh) = heap mh
  /\ fresh (sieve None mh) = fresh mh
  /\ size (sieve None mh) = size mh
  /\ emitted mh (sieve None mh) ["sieved"%string]
  /\ statistics (sieve None mh) = statistics mh.
Proof.
  unfold sieve, emitted. handlers. now destruct (_ >? _)%Z.
Qed.

(** [update()], whenever it completes. *)
Lemma update_result (mh mh' : t) :
  update P mh = Some mh' ->
  (0 <= expansion_size mh)%Z
  /\ (exists sorted,
        Permutation sorted
          (state mh ++ seq (fresh mh) (Z.to_nat (expansion_size mh)))
        /\ state mh' = state (sieve None (with_state sorted mh)))
  /\ fresh mh' = (fresh mh + Z.to_nat (expansion_size mh))%nat
  /\ emitted mh mh' later_cycle
  /\ statistics mh' = statistics mh.
Proof.
  unfold update.
  destruct (expand P None mh) as [m1 |] eqn:E1; [| discriminate].
  destruct (evaluate P None m1) as [[m2 sorted] |] eqn:E2; [| discriminate].
  intros [= <-]. cbn [fst].
  destruct (expand_result _ E1) as (Hk & Hs1 & Hf1 & _ & He1 & Hst1).
  destruct (evaluate_result _ E2) as (Hs2 & Hperm & _ & _ & _ & Hf2 & He2 & Hst2).
  destruct (sieve_result m2) as (_ & Hf3 & _ & He3 & Hst3).
  destruct (kept_expand P _ _ E1) as (Hz1 & _).
  destruct (kept_evaluate P _ _ E2) as (Hz2 & _).
  refine (conj Hk (conj _ (conj _ (conj _ _)))).
  - exists sorted. split; [now rewrite <- Hs1 |].
    unfold onUpdate. handlers. rewrite !sieve_state. cbn [state size with_state].
    now rewrite Hs2, Hz2, Hz1.
  - unfold onUpdate. handlers. congruence.
  - unfold later_cycle.
    change ["expanded"; "evaluated"; "sieved"; "updated"]%string
      with (["expanded"%string] ++ ["evaluated"%string] ++ ["sieved"%string]
            ++ ["updated"%string])%list.
    eapply emitted_trans; [exact He1 |].
    eapply emitted_trans; [exact He2 |].
    eapply emitted_trans; [exact He3 |].
    unfold emitted, onUpdate. now handlers.
  - unfold onUpdate. handlers. congruence.
Qed.

(** [analyze()], whenever it completes. *)
Lemma analyze_result (mh mh' : t) :
  analyze mh = Some mh' ->
  state mh' = state mh
  /\ heap mh' = heap mh
  /\ fresh mh' = fresh mh
  /\ emitted mh mh' (analyzed mh)
  /\ (statistics mh = None -> statistics mh' = None)
  /\ (forall stats, statistics mh = Some stats ->
        exists added,
          statistics mh' = Some (stats ++ added)
          /\ Forall (fun s => at_step s = step mh) added).
Proof.
  intros E. destruct (kept_analyze _ E) as (_ & Hs).
  unfold emitted, analyzed.
  destruct (statistics mh) as [stats |] eqn:Es.
  - destruct (analyze_appends _ E Es) as (added & Ha & Hall & Hev & Hh).
    refine (conj Hs (conj Hh (conj _ (conj Hev (conj _ _))))).
    + unfold analyze in E. rewrite Es in E.
      destruct (nth_error (state mh) 0); [| discriminate].
      destruct (Element.evaluation _); [| discriminate].
      destruct (if (_ =? 1)%nat then _ else _); [| discriminate].
      injection E as <-. now handlers.
    + discriminate.
    + intros stats' [= <-]. now exists added.
  - unfold analyze in E. rewrite Es in E. injection E as <-.
    rewrite app_nil_r. now repeat split.
Qed.

End Cycles.

Section CycleTheorems.

Import Metaheuristic Run Frame Cycle.

Variable P : Problem.

(** The events of a completed [advance()]. *)
Lemma advance_emitted (mh mh' : t) :
  advance P mh = Some mh' ->
  emitted mh mh'
    ((if (step mh <? 0)%Z then first_cycle else later_cycle)
     ++ analyzed mh ++ ["advanced"%string]).
Proof.
  unfold advance, advance_with.
  destruct (if (step mh <? 0)%Z then _ else _) as [m2 |] eqn:E12;
    [| discriminate].
  set (m3 := with_step _ m2).
  destruct (analyze m3) as [m4 |] eqn:E4; [| discriminate].
  intros [= <-].
  destruct (@analyze_result _ _ E4) as (_ & _ & _ & He4 & _).
  assert (H12 : emitted mh m2
                  (if (step mh <? 0)%Z then first_cycle else later_cycle)
                /\ analyzed m3 = analyzed mh).
  { destruct (step mh <? 0)%Z.
    - destruct (initiate P None (reset mh)) as [m1 |] eqn:E1; [| discriminate].
      destruct (evaluate P None m1) as [[m2' sorted] |] eqn:E2; [| discriminate].
      injection E12 as <-. cbn [fst] in *.
      destruct (reset_result mh) as (_ & _ & _ & _ & _ & Rev & Rstat).
      destruct (@initiate_result _ _ _ _ E1) as (_ & _ & _ & _ & _ & He1 & Hst1 & _).
      destruct (@evaluate_result _ _ _ _ E2) as (_ & _ & _ & _ & _ & _ & He2 & Hst2).
      split.
      + unfold emitted in *. rewrite He2, He1, Rev, <- app_assoc. reflexivity.
      + unfold analyzed. subst m3. cbn [statistics with_step].
        rewrite Hst2, Hst1, Rstat. now destruct (statistics mh).
    - destruct (@update_result _ _ _ E12) as (_ & _ & _ & He & Hst).
      split; [exact He |].
      unfold analyzed. subst m3. cbn [statistics with_step]. now rewrite Hst. }
  destruct H12 as (He12 & Han).
  eapply emitted_trans; [exact He12 |].
  eapply emitted_trans; [rewrite <- Han; exact He4 |].
  unfold emitted, onAdvance. now handlers.
Qed.

(** No cycle emits "finished". *)
Lemma advance_not_finished (mh mh' : t) :
  advance P mh = Some mh' ->
  exists evs, emitted mh mh' evs /\ ~ In "finished"%string evs.
Proof.
  intros E. eexists. split; [apply (@advance_emitted _ _ E) |].
  unfold first_cycle, later_cycle, analyzed.
  destruct (step mh <? 0)%Z, (statistics mh); cbn;
    intuition discriminate.
Qed.

(** The loop of [run], for any problem. *)
Lemma doWhile_finished (turns : nat) (mh mh' : t) :
  JS.doWhile turns (advance P) (fun mh => negb (finished P mh)) mh
  = JS.Resolved mh' ->
  finished P mh' = true
  /\ (advances mh < advances mh')%nat
  /\ size mh' = size mh
  /\ steps mh' = steps mh
  /\ exists evs, emitted mh mh' evs /\ ~ In "finished"%string evs.
Proof.
  revert mh. induction turns as [| turns IH]; intros mh; [discriminate |].
  cbn [JS.doWhile].
  destruct (advance P mh) as [m1 |] eqn:E1; [| discriminate].
  destruct (@advance_effect P mh m1 E1) as (Hsize & Hsteps & _ & _ & Hadv).
  destruct (@advance_not_finished _ _ E1) as (evs1 & He1 & Hn1).
  destruct (finished P m1) eqn:Efin; cbn [negb].
  - intros [= <-].
    refine (conj Efin (conj _ (conj Hsize (conj Hsteps _)))); [lia |].
    now exists evs1.
  - intros E.
    destruct (IH m1 E) as (Hfin & Hlt & Hsize' & Hsteps' & evs2 & He2 & Hn2).
    refine (conj Hfin (conj _ (conj _ (conj _ _)))); try congruence; [lia |].
    exists (evs1 ++ evs2). split; [eapply emitted_trans; eassumption |].
    intros Hin. apply in_app_or in Hin. tauto.
Qed.

(** X8.  The first [advance()] of an unstarted engine with room for an
    element, for a well-formed problem, completes.  It takes the step to 0;
    the state it leaves, whatever the state was, is an arrangement of
    [size] new elements, each with the values [new problem.Element()] gave
    it and with the evaluation of these values; the objects the store had
    are untouched.  It emits "initiated", "evaluated", "analyzed" when the
    engine keeps statistics, and "advanced", in this order; and the
    statistics hold records of step 0 only: the records held before are
    gone. *)
Theorem advance_first_cycle (mh : t) :
  well_formed P -> (step mh < 0)%Z -> (1 <= size mh)%Z ->
  exists mh',
    advance P mh = Some mh'
    /\ step mh' = 0%Z
    /\ Permutation (state mh') (seq (fresh mh) (Z.to_nat (size mh)))
    /\ fresh mh' = (fresh mh + Z.to_nat (size mh))%nat
    /\ (forall r, In r (state mh') ->
          Element.__values__ (heap mh' r) = initial P r
          /\ Element.evaluation (heap mh' r)
             = Some (evaluation_of P (initial P r)))
    /\ (forall r, (r < fresh mh)%nat -> heap mh' r = heap mh r)
    /\ events mh'
       = events mh ++ first_cycle ++ analyzed mh ++ ["advanced"%string]
    /\ (statistics mh = None <-> statistics mh' = None)
    /\ Forall (fun s => at_step s = 0%Z) (records mh').
Proof.
  intros Hok Hneg Hsize.
  destruct (reset_result mh)
    as (Rstep & Rsize & Rstate & Rheap & Rfresh & Rev & Rstat).
  destruct (@initiate_succeeds P (reset mh)) as (m1 & E1 & _); [lia |].
  destruct (@initiate_result _ _ _ _ E1)
    as (_ & Hs1 & Hf1 & Hv1 & Hold1 & _ & Hst1 & Hstep1).
  cbn zeta in Hs1, Hf1. rewrite Rsize, Rfresh in Hs1, Hf1.
  assert (Hne1 : state m1 <> []).
  { rewrite Hs1. destruct (Z.to_nat (size mh)) eqn:En; [lia | discriminate]. }
  destruct (evaluate_succeeds Hok m1 Hne1) as (m2 & sorted & E2 & Hne2 & Han2).
  destruct (@evaluate_result _ _ _ _ E2)
    as (Hs2 & Hperm & Hv2 & Hev2 & Hframe2 & Hf2 & _ & Hst2).
  destruct (@kept_evaluate P _ _ _ _ E2) as (_ & _ & Hstep2 & _).
  assert (Hstep2' : step m2 = (-1)%Z) by congruence.
  set (m3 := with_step 0%Z m2).
  destruct (@analyze_succeeds P m3 Hne2 Han2) as (m4 & E4).
  destruct (@analyze_result _ _ E4) as (Hs4 & Hh4 & Hf4 & _ & Hn4 & Hst4).
  destruct (@kept_analyze _ _ E4) as ((_ & _ & Hstep4 & _) & _).
  assert (E : advance P mh = Some (onAdvance m4)).
  { unfold advance, advance_with.
    destruct (Z.ltb_spec (step mh) 0); [| lia].
    rewrite E1, E2. cbn [fst]. rewrite Hstep2'. cbn [Z.ltb Z.compare].
    fold m3. now rewrite E4. }
  exists (onAdvance m4). split; [exact E |].
  pose proof (@advance_emitted _ _ E) as Hev. unfold emitted in Hev.
  destruct (Z.ltb_spec (step mh) 0); [| lia].
  unfold onAdvance in *. handlers.
  assert (Hin : forall r, In r (state m4) -> In r (state m1)).
  { intros r Hr. rewrite Hs4 in Hr. cbn in Hr. rewrite Hs2 in Hr.
    eapply Permutation_in; eassumption. }
  refine (conj Hstep4 (conj _ (conj _ (conj _ (conj _ (conj Hev (conj _ _))))))).
  - rewrite Hs4. cbn. rewrite Hs2, <- Hs1. exact Hperm.
  - rewrite Hf4. cbn. congruence.
  - intros r Hr. specialize (Hin r Hr). rewrite Hh4. cbn.
    rewrite Hv2, (Hev2 r Hin), (Hv1 r Hin). now split.
  - intros r Hr. rewrite Hh4. cbn. rewrite Hframe2.
    + rewrite (Hold1 r) by (rewrite Rfresh; exact Hr). now rewrite Rheap.
    + rewrite Hs1. intros Hin'. apply in_seq in Hin'. lia.
  - assert (Hs3 : statistics m3 = option_map (fun _ => []) (statistics mh)).
    { subst m3. cbn. congruence. }
    destruct (statistics mh) as [stats |]; cbn in Hs3.
    + destruct (Hst4 _ Hs3) as (added & Ha & _). rewrite Ha.
      split; discriminate.
    + rewrite (Hn4 Hs3). tauto.
  - assert (Hs3 : statistics m3 = option_map (fun _ => []) (statistics mh)).
    { subst m3. cbn. congruence. }
    unfold records. handlers.
    destruct (statistics mh) as [stats |]; cbn in Hs3.
    + destruct (Hst4 _ Hs3) as (added & Ha & Hall). rewrite Ha. exact Hall.
    + rewrite (Hn4 Hs3). constructor.
Qed.

(** The elements [update()] leaves in the state. *)
Lemma update_population (mh mh' : t) :
  update P mh = Some mh' ->
  (forall r, In r (state mh') ->
     In r (state mh) \/ (fresh mh <= r < fresh mh')%nat)
  /\ ((0 <= size mh)%Z ->
      length (state mh')
      = Nat.min (Z.to_nat (size mh))
                (length (state mh) + Z.to_nat (expansion_size mh))).
Proof.
  intros E.
  destruct (@update_result _ _ _ E) as (Hk & (sorted & Hperm & Hs) & Hf & _).
  split.
  - intros r Hr. rewrite Hs in Hr.
    destruct (sieve_prefix None (with_state sorted mh)) as (dropped & Ed).
    cbn [state with_state] in Ed.
    assert (Hin : In r sorted) by (rewrite Ed; apply in_or_app; now left).
    apply (Permutation_in _ Hperm) in Hin. apply in_app_or in Hin.
    destruct Hin as [Hin | Hin]; [now left | right].
    apply in_seq in Hin. lia.
  - intros Hsize. rewrite Hs, sieve_default by exact Hsize.
    cbn [state size with_state]. rewrite length_firstn.
    rewrite (Permutation_length Hperm), length_app, length_seq. reflexivity.
Qed.


(** X10.  A later [advance()], of an engine that has started: whenever it
    completes, the step is one more; "expanded", "evaluated", "sieved",
    "updated", "analyzed" when the engine keeps statistics, and "advanced"
    have been emitted, in this order; the state has at most [size] elements
    when the size is not negative; and the statistics hold the records they
    held, followed by records of the new step.  For a well-formed problem it
    does complete on an engine that is ready. *)
Theorem advance_later_cycle (mh : t) :
  (0 <= step mh)%Z ->
  (forall mh',
      advance P mh = Some mh' ->
      step mh' = (step mh + 1)%Z
      /\ events mh'
         = events mh ++ later_cycle ++ analyzed mh ++ ["advanced"%string]
      /\ ((0 <= size mh)%Z -> (length (state mh') <= Z.to_nat (size mh))%nat)
      /\ exists added,
           records mh' = records mh ++ added
           /\ Forall (fun s => at_step s = (step mh + 1)%Z) added)
  /\ (well_formed P -> ready mh -> exists mh', advance P mh = Some mh').
Proof.
  intros Hstarted. split.
  - intros mh' E.
    pose proof (@advance_emitted _ _ E) as Hev. unfold emitted in Hev.
    destruct (@advance_effect P mh mh' E) as (_ & _ & _ & Hstep & _).
    unfold next_step in Hstep.
    destruct (Z.ltb_spec (step mh) 0); [lia |].
    refine (conj Hstep (conj Hev _)).
    unfold advance, advance_with in E.
    destruct (Z.ltb_spec (step mh) 0); [lia |].
    destruct (update P mh) as [m2 |] eqn:E2; [| discriminate].
    destruct (@kept_update P _ _ E2) as (_ & _ & Hstep2 & _).
    destruct (Z.ltb_spec (step m2) 0); [lia |].
    set (m3 := with_step _ m2) in E.
    destruct (analyze m3) as [m4 |] eqn:E4; [| discriminate].
    injection E as <-.
    destruct (@analyze_result _ _ E4) as (Hs4 & _ & _ & _ & Hn4 & Hst4).
    destruct (@update_population _ _ E2) as (_ & Hlen).
    destruct (@update_result _ _ _ E2) as (_ & _ & _ & _ & Hst2).
    split.
    + intros Hsize. unfold onAdvance. handlers. rewrite Hs4. cbn.
      rewrite (Hlen Hsize). lia.
    + unfold records, onAdvance. handlers.
      assert (Hs3 : statistics m3 = statistics mh) by (subst m3; cbn; congruence).
      destruct (statistics mh) as [stats |].
      * destruct (Hst4 _ Hs3) as (added & Ha & Hall). rewrite Ha.
        exists added. split; [reflexivity |].
        subst m3. cbn in Hall. now rewrite Hstep2 in Hall.
      * rewrite (Hn4 Hs3). exists []. split; [reflexivity | constructor].
  - intros Hok Hready.
    destruct (advance_ready Hok Hready) as (mh' & E & _). now exists mh'.
Qed.

(** X11.  Whenever [run()] resolves, for any problem and any engine: the
    engine it leaves is finished (it has reached the step limit or the
    problem finds its elements sufficient); at least one [advance()] cycle
    has been completed, also when the engine was finished before; the value
    is the first element of the state; "finished" has been emitted once, as
    the last event, after the events of the cycles; and the size and the
    step limit of the engine are as before. *)
Theorem run_resolves_when_finished (turns : nat) (mh mh' : t)
  (best : option ref) :
  run P turns mh = JS.Resolved (mh', best) ->
  finished P mh' = true
  /\ (advances mh < advances mh')%nat
  /\ best = nth_error (state mh') 0
  /\ (exists evs,
        events mh' = events mh ++ evs ++ ["finished"%string]
        /\ ~ In "finished"%string evs)
  /\ size mh' = size mh
  /\ steps mh' = steps mh.
Proof.
  unfold run, run_with.
  destruct (JS.doWhile turns (advance P) _ mh) as [m | |] eqn:E;
    try discriminate.
  intros [= <- <-].
  destruct (@doWhile_finished _ _ _ E)
    as (Hfin & Hlt & Hsize & Hsteps & evs & He & Hn).
  rewrite advances_onFinish.
  assert (Hf : finished P (onFinish m) = finished P m).
  { unfold finished, onFinish. now handlers. }
  rewrite Hf. unfold onFinish. handlers.
  refine (conj Hfin (conj Hlt (conj eq_refl (conj _ (conj Hsize Hsteps))))).
  exists evs. split; [| exact Hn].
  unfold emitted in He. now rewrite He, app_assoc.
Qed.

(** X12.  [run()] performs a cycle before it looks at the termination
    criteria.  On an engine that one step takes to its step limit or past
    it (it has reached the limit already, or the limit is 0 or less), and
    for a problem that finds every state sufficient, a [run()] that resolves
    has performed exactly one [advance()] cycle and moved the step by one.
    For a well-formed problem and an engine that is ready it does resolve
    then, within one turn. *)
Theorem run_one_cycle_when_limit_reached (mh : t) :
  (steps mh <= next_step (step mh))%Z
  \/ (forall elements, sufficientElements P elements = true) ->
  (forall turns mh' best,
      run P turns mh = JS.Resolved (mh', best) ->
      advances mh' = S (advances mh)
      /\ step mh' = next_step (step mh))
  /\ (well_formed P -> ready mh ->
      forall turns, (1 <= turns)%nat ->
        exists mh' best, run P turns mh = JS.Resolved (mh', best)).
Proof.
  intros Hlimit.
  assert (Hfin : forall m1, advance P mh = Some m1 -> finished P m1 = true).
  { intros m1 E1.
    destruct (@advance_effect P mh m1 E1) as (_ & Hsteps & _ & Hstep & _).
    unfold finished. destruct Hlimit as [Hl | Hs].
    - apply orb_true_iff. left. apply Z.leb_le. lia.
    - rewrite Hs. apply orb_true_r. }
  split.
  - intros [| turns] mh' best; unfold run, run_with; cbn [JS.doWhile];
      [discriminate |].
    destruct (advance P mh) as [m1 |] eqn:E1; [| discriminate].
    rewrite (Hfin m1 eq_refl). cbn [negb]. intros [= <- <-].
    destruct (@advance_effect P mh m1 E1) as (_ & _ & _ & Hstep & Hadv).
    rewrite advances_onFinish. unfold onFinish. handlers. now split.
  - intros Hok Hready [| turns] Hturns; [lia |].
    destruct (advance_ready Hok Hready) as (m1 & E1 & _).
    unfold run, run_with. cbn [JS.doWhile]. rewrite E1, (Hfin m1 E1).
    cbn [negb]. now eexists; eexists.
Qed.

(** On an empty array the ranking of two or more objectives throws. *)
Lemma sort_empty_multi (h : Heap) :
  (2 <= objectives P)%nat -> sort P [] h = None.
Proof.
  intros Hmulti. unfold sort, multiObjectiveSort, nonDominatedSort.
  destruct (Nat.ltb_spec 1 (objectives P)); [| lia].
  unfold paretoAnalysis, crowdingDistance.
  cbn [fold_left paretoAnalysis_pairs].
  destruct (objectives P) as [| n]; [lia | reflexivity].
Qed.

Lemma analyze_empty (mh : t) :
  statistics mh <> None -> state mh = [] -> analyze mh = None.
Proof.
  intros Hstat Hs. unfold analyze. rewrite Hs.
  destruct (statistics mh); [reflexivity | congruence].
Qed.

(** X13.  An unstarted engine without room for an element cannot run:
    with a negative size [initiate()] throws; with the size 0 the state is
    empty, and then the ranking of two or more objectives throws, and so
    does [analyze()] when the engine keeps statistics.  The first
    [advance()] throws and [run()] is rejected. *)
Theorem run_rejected_without_room (mh : t) (turns : nat) :
  (step mh < 0)%Z ->
  (size mh < 0)%Z
  \/ (size mh = 0%Z
      /\ (statistics mh <> None \/ (2 <= objectives P)%nat)) ->
  advance P mh = None /\ run P (S turns) mh = JS.Rejected.
Proof.
  intros Hneg Hroom.
  assert (E : advance P mh = None).
  { destruct (reset_result mh) as (_ & Rsize & _ & _ & _ & _ & Rstat).
    unfold advance, advance_with.
    destruct (Z.ltb_spec (step mh) 0); [| lia].
    destruct (initiate P None (reset mh)) as [m1 |] eqn:E1; [| reflexivity].
    destruct (@initiate_result _ _ _ _ E1)
      as (Hn & Hs1 & _ & _ & _ & _ & Hst1 & _).
    cbn zeta in Hn, Hs1. rewrite Rsize in Hn, Hs1.
    destruct Hroom as [Hsize | (Hsize & Hwhy)]; [lia |].
    rewrite Hsize in Hs1. change (Z.to_nat 0) with 0%nat in Hs1.
    cbn [seq] in Hs1.
    destruct (evaluate P None m1) as [[m2 sorted] |] eqn:E2; [| reflexivity].
    cbn [fst].
    destruct (@evaluate_result _ _ _ _ E2) as (Hs2 & Hperm & _ & _ & _ & _ & _ & Hst2).
    rewrite Hs1 in Hperm. apply Permutation_sym, Permutation_nil in Hperm.
    destruct Hwhy as [Hstat | Hmulti].
    - rewrite analyze_empty; [reflexivity | |].
      + cbn [statistics with_step]. rewrite Hst2, Hst1, Rstat.
        destruct (statistics mh); [discriminate | now elim Hstat].
      + cbn [state with_step]. now rewrite Hs2.
    - unfold evaluate in E2. rewrite Hs1 in E2.
      rewrite sort_empty_multi in E2 by exact Hmulti. discriminate. }
  split; [exact E |].
  unfold run, run_with. cbn [JS.doWhile]. now rewrite E.
Qed.

End CycleTheorems.

Section CycleExamples.

Import Metaheuristic Run Frame Cycle.

(** X8 at the unstarted engine of size 5. *)
Lemma advance_first_cycle_witness :
  well_formed Examples.minimize
  /\ (step Examples.unstarted < 0)%Z
  /\ (1 <= size Examples.unstarted)%Z
  /\ exists mh',
      advance Examples.minimize Examples.unstarted = Some mh'
      /\ step mh' = 0%Z
      /\ events mh' = ["initiated"; "evaluated"; "analyzed"; "advanced"]%string.
Proof.
  assert (H1 : (step Examples.unstarted < 0)%Z) by (cbn; lia).
  assert (H2 : (1 <= size Examples.unstarted)%Z) by (cbn; lia).
  refine (conj minimize_well_formed (conj H1 (conj H2 _))).
  destruct (@advance_first_cycle Examples.minimize Examples.unstarted
              minimize_well_formed H1 H2)
    as (mh' & E & Hstep & _ & _ & _ & _ & Hev & _).
  exists mh'. refine (conj E (conj Hstep Hev)).
Defined.

Lemma started_ready : ready Cases.started.
Proof.
  refine (conj _ (conj _ _)); [cbn; lia | vm_compute; discriminate |].
  discriminate.
Qed.


(** X10 at the started engine. *)
Lemma advance_later_cycle_witness :
  (0 <= step Cases.started)%Z
  /\ well_formed Examples.minimize
  /\ ready Cases.started
  /\ exists mh',
      advance Examples.minimize Cases.started = Some mh'
      /\ step mh' = 1%Z.
Proof.
  assert (H0 : (0 <= step Cases.started)%Z) by (cbn; lia).
  refine (conj H0 (conj minimize_well_formed (conj started_ready _))).
  destruct (@advance_later_cycle Examples.minimize Cases.started H0)
    as (Hany & Hcompletes).
  destruct (Hcompletes minimize_well_formed started_ready) as (mh' & E).
  exists mh'. split; [exact E |].
  now destruct (Hany mh' E) as (-> & _).
Defined.

(** X11 at the unstarted engine of size 5 with a limit of 3 steps. *)
Lemma run_resolves_when_finished_witness :
  exists mh' best,
    run Examples.minimize 10 Examples.unstarted = JS.Resolved (mh', best)
    /\ finished Examples.minimize mh' = true.
Proof.
  destruct (run Examples.minimize 10 Examples.unstarted)
    as [[mh' best] | |] eqn:E.
  - exists mh', best. split; [reflexivity |].
    exact (proj1 (@run_resolves_when_finished Examples.minimize 10
                    Examples.unstarted mh' best E)).
  - exfalso. vm_compute in E. discriminate.
  - exfalso. vm_compute in E. discriminate.
Defined.

Lemma satisfied_well_formed : well_formed Cases.satisfied.
Proof. exact minimize_well_formed. Qed.

(** X12 at the unstarted engine, for the problem that finds every state
    sufficient: one cycle, although the limit is 3 steps. *)
Lemma run_one_cycle_when_limit_reached_witness :
  (forall elements, sufficientElements Cases.satisfied elements = true)
  /\ exists mh' best,
      run Cases.satisfied 1 Examples.unstarted = JS.Resolved (mh', best)
      /\ advances mh' = 1%nat.
Proof.
  assert (H : forall elements,
             sufficientElements Cases.satisfied elements = true)
    by reflexivity.
  split; [exact H |].
  destruct (@run_one_cycle_when_limit_reached Cases.satisfied
              Examples.unstarted (or_intror H)) as (Hcount & Hresolves).
  destruct (Hresolves satisfied_well_formed) with (turns := 1%nat)
    as (mh' & best & E); [| lia |].
  - refine (conj _ (conj _ _)); [cbn; lia | vm_compute; discriminate |].
    cbn. lia.
  - exists mh', best. split; [exact E |].
    now destruct (Hcount _ _ _ E) as (-> & _).
Defined.

(** X13 at the unstarted engine of size 0 that keeps statistics. *)
Lemma run_rejected_without_room_witness :
  (step Cases.roomless < 0)%Z
  /\ size Cases.roomless = 0%Z
  /\ statistics Cases.roomless <> None
  /\ run Examples.minimize 5 Cases.roomless = JS.Rejected.
Proof.
  assert (H1 : (step Cases.roomless < 0)%Z) by (cbn; lia).
  assert (H2 : size Cases.roomless = 0%Z) by reflexivity.
  assert (H3 : statistics Cases.roomless <> None) by discriminate.
  refine (conj H1 (conj H2 (conj H3 _))).
  exact (proj2 (@run_rejected_without_room Examples.minimize Cases.roomless 4
                  H1 (or_intror (conj H2 (or_introl H3))))).
Defined.

End CycleExamples.

(* ================================================================== *)
(** * nub, again and at the edges                                       *)
(* ================================================================== *)

Section NubEdges.

Import Metaheuristic.

Section Filter.

Variables (A : Type) (equality : A -> A -> bool).

(** What the filter has kept, it keeps. *)
Lemma nub_from_settled (l buffer : list A) :
  JS.nub_from equality buffer (JS.nub_from equality buffer l)
  = JS.nub_from equality buffer l.
Proof.
  revert buffer. induction l as [| x l IH]; intros buffer; cbn [JS.nub_from];
    [reflexivity |].
  destruct (existsb _ buffer) eqn:Ex; [apply IH |].
  cbn [JS.nub_from]. rewrite Ex. now rewrite IH.
Qed.

(** The first item is kept. *)
Lemma nub_first (l : list A) :
  nth_error (JS.nub equality l) 0 = nth_error l 0.
Proof. destruct l; reflexivity. Qed.

(** Items that are unrelated to the buffer and to each other are all
    kept. *)
Lemma nub_from_unrelated_kept (l buffer : list A) :
  (forall b x, In b (buffer ++ l) -> In x l -> equality b x = false) ->
  JS.nub_from equality buffer l = l.
Proof.
  revert buffer. induction l as [| x l IH]; intros buffer H; cbn [JS.nub_from];
    [reflexivity |].
  assert (Ex : existsb (fun b => equality b x) buffer = false).
  { apply not_true_is_false. intros Ex. apply existsb_exists in Ex.
    destruct Ex as (b & Hb & Eb).
    rewrite H in Eb; [discriminate | | now left].
    apply in_or_app. now left. }
  rewrite Ex. f_equal. apply IH. intros b y Hb Hy.
  apply H; [| now right].
  rewrite <- app_assoc in Hb. exact Hb.
Qed.

End Filter.

(** What [nub] does to the state, for any argument. *)
Lemma nub_result (precision : option JS.num) (mh : t) :
  exists p,
    state (fst (nub precision mh))
    = JS.nub (fun r1 r2 => nub_equal p (heap mh r1) (heap mh r2)) (state mh)
    /\ p = match precision with
           | Some p => JS.or_else p JS.zero
           | None => JS.zero
           end.
Proof. eexists. split; reflexivity. Qed.

(** X14.  [nub], with any precision or none, changes nothing but the
    state and emits no event; it keeps the first element of the state; and
    a second [nub] with the same precision removes nothing more: it leaves
    the same state and returns the same length. *)
Theorem nub_twice_is_nub_once (precision : option JS.num) (mh : t) :
  let once := nub precision mh in
  let twice := nub precision (fst once) in
  state (fst twice) = state (fst once)
  /\ snd twice = snd once
  /\ nth_error (state (fst once)) 0 = nth_error (state mh) 0
  /\ heap (fst once) = heap mh
  /\ events (fst once) = events mh
  /\ step (fst once) = step mh.
Proof.
  cbn zeta.
  assert (E : state (fst (nub precision (fst (nub precision mh))))
              = state (fst (nub precision mh))).
  { unfold nub. cbn [fst state with_state heap]. apply nub_from_settled. }
  refine (conj E (conj _ (conj _ (conj eq_refl (conj eq_refl eq_refl))))).
  - change (snd (nub precision (fst (nub precision mh))))
      with (length (state (fst (nub precision (fst (nub precision mh)))))).
    now rewrite E.
  - unfold nub. cbn [fst state with_state]. apply nub_first.
Qed.

(** A vector of NaN is within any precision of every vector of its
    dimension. *)
Lemma nub_equal_NaN (p : JS.num) (e1 e2 : Element.t) :
  Forall (fun v => JS.is_nan v = true) (Element.__values__ e1) ->
  length (Element.__values__ e1) = length (Element.__values__ e2) ->
  nub_equal p e1 e2 = true.
Proof.
  intros Hnan Hlen. unfold nub_equal. rewrite Hlen, Nat.eqb_refl. cbn [negb].
  apply forallb_forall. intros i Hi. apply in_seq in Hi.
  assert (Ei : JS.item (Element.__values__ e1) i = JS.NaN).
  { rewrite Forall_forall in Hnan.
    assert (Hin : In (JS.item (Element.__values__ e1) i) (Element.__values__ e1))
      by (apply nth_In; lia).
    specialize (Hnan _ Hin). now destruct (JS.item _ i). }
  rewrite Ei. unfold JS.gtb. now destruct p.
Qed.

(** X15.  The comparison of [nub] never finds a difference with NaN: an
    element whose decision values are all NaN counts as equal to every
    element of its dimension.  When such an element is first in the state,
    [nub], with any precision, keeps it and removes every other element of
    its dimension, whatever the values of that element are. *)
Theorem nub_NaN_vector_absorbs (precision : option JS.num) (mh : t)
  (first : ref) (rest : list ref) :
  state mh = first :: rest ->
  Forall (fun v => JS.is_nan v = true) (Element.__values__ (heap mh first)) ->
  exists kept,
    state (fst (nub precision mh)) = first :: kept
    /\ forall r, In r kept ->
         In r rest
         /\ length (Element.__values__ (heap mh r))
            <> length (Element.__values__ (heap mh first)).
Proof.
  intros Es Hnan. destruct (nub_result precision mh) as (p & -> & _).
  rewrite Es. unfold JS.nub. cbn [JS.nub_from existsb app].
  eexists. split; [reflexivity |].
  intros r Hr. split; [eapply nub_from_incl, Hr |].
  intros Hlen.
  destruct (nub_from_unrelated
              (fun r1 r2 => nub_equal p (heap mh r1) (heap mh r2))
              rest [first]) as (Hbuf & _).
  rewrite Forall_forall in Hbuf. specialize (Hbuf r Hr).
  inversion Hbuf as [| ? ? Hfirst _]; subst.
  now rewrite nub_equal_NaN in Hfirst.
Qed.

(** Below a negative precision no two real vectors with a dimension are
    equal. *)
Lemma nub_equal_negative (p : Q) (e1 e2 : Element.t) :
  (p < 0)%Q ->
  Element.__values__ e1 <> [] ->
  Forall JS.is_real (Element.__values__ e1) ->
  Forall JS.is_real (Element.__values__ e2) ->
  nub_equal (JS.Fin p) e1 e2 = false.
Proof.
  intros Hp Hne H1 H2. unfold nub_equal.
  destruct (Nat.eqb_spec (length (Element.__values__ e1))
                         (length (Element.__values__ e2))) as [Hlen | Hlen];
    cbn [negb]; [| reflexivity].
  destruct (Element.__values__ e1) as [| x v1]; [congruence |].
  destruct (Element.__values__ e2) as [| y v2]; [discriminate |].
  cbn [length seq forallb JS.item nth].
  inversion H1 as [| ? ? Hx _]; subst. inversion H2 as [| ? ? Hy _]; subst.
  destruct x as [a | | |], y as [b | | |]; try contradiction.
  unfold JS.gtb, JS.sub, JS.opp, JS.add, JS.abs.
  assert (Hlt : JS.ltb (JS.Fin p) (JS.Fin (Qabs (a + - b))) = true).
  { apply ltb_real. eapply Qlt_le_trans; [exact Hp | apply Qabs_nonneg]. }
  now rewrite Hlt.
Qed.

(** X16.  With a negative precision [nub] removes nothing from a state
    whose elements have real decision values, and at least one each: no
    difference is below the precision, not even the difference of an element
    and itself, so that exact duplicates stay as well. *)
Theorem nub_negative_precision_keeps_all (p : Q) (mh : t) :
  (p < 0)%Q ->
  (forall r, In r (state mh) ->
     Element.__values__ (heap mh r) <> []
     /\ Forall JS.is_real (Element.__values__ (heap mh r))) ->
  state (fst (nub (Some (JS.Fin p)) mh)) = state mh
  /\ snd (nub (Some (JS.Fin p)) mh) = length (state mh).
Proof.
  intros Hp Hreal.
  assert (E : state (fst (nub (Some (JS.Fin p)) mh)) = state mh).
  { unfold nub. cbn [fst state with_state JS.or_else].
    assert (Hq : Qeq_bool p 0 = false).
    { apply not_true_is_false. intros Hq. apply Qeq_bool_eq in Hq.
      rewrite Hq in Hp. now apply Qlt_irrefl in Hp. }
    rewrite Hq. apply nub_from_unrelated_kept.
    intros b x Hb Hx. cbn [app] in Hb.
    apply nub_equal_negative; [exact Hp | | |]; now apply Hreal. }
  split; [exact E |].
  change (snd (nub (Some (JS.Fin p)) mh))
    with (length (state (fst (nub (Some (JS.Fin p)) mh)))).
  now rewrite E.
Qed.

End NubEdges.

Section NubEdgesExamples.

Import Metaheuristic.

(** X15 at a state whose first element has two values that are NaN: the
    two other elements with two values are removed. *)
Lemma nub_NaN_vector_absorbs_witness :
  state NubCases.undefined_first = [0; 1; 2; 3]
  /\ Forall (fun v => JS.is_nan v = true)
            (Element.__values__ (heap NubCases.undefined_first 0))
  /\ exists kept,
      state (fst (nub None NubCases.undefined_first)) = 0 :: kept
      /\ ~ In 1 kept /\ ~ In 2 kept.
Proof.
  assert (H1 : state NubCases.undefined_first = [0; 1; 2; 3]) by reflexivity.
  assert (H2 : Forall (fun v => JS.is_nan v = true)
                 (Element.__values__ (heap NubCases.undefined_first 0)))
    by (repeat constructor).
  refine (conj H1 (conj H2 _)).
  destruct (@nub_NaN_vector_absorbs None NubCases.undefined_first 0 [1; 2; 3]
              H1 H2) as (kept & E & Hkept).
  exists kept. refine (conj E (conj _ _)); intros Hin;
    destruct (Hkept _ Hin) as (_ & Hlen); now apply Hlen.
Defined.

(** X16 at the state with an exact duplicate: with the precision -1 all
    four elements stay. *)
Lemma nub_negative_precision_keeps_all_witness :
  (-1 < 0)%Q
  /\ (forall r, In r (state Examples.crowded) ->
        Element.__values__ (heap Examples.crowded r) <> []
        /\ Forall JS.is_real (Element.__values__ (heap Examples.crowded r)))
  /\ state (fst (nub (Some (JS.Fin (-1))) Examples.crowded)) = [0; 1; 2; 3].
Proof.
  assert (H1 : (-1 < 0)%Q) by reflexivity.
  assert (H2 : forall r, In r (state Examples.crowded) ->
                 Element.__values__ (heap Examples.crowded r) <> []
                 /\ Forall JS.is_real
                      (Element.__values__ (heap Examples.crowded r))).
  { intros r Hr. cbn in Hr.
    destruct Hr as [<- | [<- | [<- | [<- | []]]]];
      (split; [discriminate | repeat constructor]). }
  refine (conj H1 (conj H2 _)).
  exact (proj1 (@nub_negative_precision_keeps_all (-1) Examples.crowded H1 H2)).
Defined.

End NubEdgesExamples.

(* ================================================================== *)
(** * paretoAnalysis: what is recorded, and recorded again              *)
(* ================================================================== *)

Section ParetoRecords.

Import Metaheuristic Pareto.

Variable P : Problem.

(** ** Every domination is recorded *)

Lemma records_grow (h h' : Heap) (added : list (ref * ref)) (a b : ref) :
  records h h' added -> In b (dominators_of h a) -> In b (dominators_of h' a).
Proof. intros (D & _) Hb. apply D. now left. Qed.

Lemma records_added (h h' : Heap) (added : list (ref * ref)) (a b : ref) :
  records h h' added -> In (a, b) added -> In b (dominators_of h' a).
Proof. intros (D & _) Hb. apply D. now right. Qed.

(** The inner loop records every domination between [elem1] and an element
    of [rest]. *)
Lemma paretoAnalysis_against_complete (elem1 : ref) (rest : list ref)
  (h h' : Heap) :
  consistent P ->
  (forall r, In r (elem1 :: rest) -> annotated h r) ->
  paretoAnalysis_against P elem1 rest h = Some h' ->
  forall x, In x rest ->
    (dominates P h elem1 x -> In elem1 (dominators_of h' x))
    /\ (dominates P h x elem1 -> In x (dominators_of h' elem1)).
Proof.
  intros Hc. revert h. induction rest as [| elem2 rest IH]; intros h Hann E x Hx;
    [contradiction |].
  cbn [paretoAnalysis_against] in E.
  assert (A1 : annotated h elem1) by (apply Hann; now left).
  assert (A2 : annotated h elem2) by (apply Hann; right; now left).
  assert (H1 : exists h1 added1,
             (if JS.gtb (domination P (h elem1) (h elem2)) JS.zero
              then record_domination elem1 elem2 h
              else if JS.ltb (domination P (h elem1) (h elem2)) JS.zero
                   then record_domination elem2 elem1 h
                   else Some h) = Some h1
             /\ records h h1 added1
             /\ (dominates P h elem1 elem2 -> In (elem2, elem1) added1)
             /\ (dominates P h elem2 elem1 -> In (elem1, elem2) added1)).
  { unfold dominates.
    destruct (JS.gtb (domination P (h elem1) (h elem2)) JS.zero) eqn:Egt;
      [| destruct (JS.ltb (domination P (h elem1) (h elem2)) JS.zero) eqn:Elt].
    - destruct (record_domination_records A1 A2) as (h1 & E1 & R).
      exists h1, [(elem2, elem1)]. refine (conj E1 (conj R (conj _ _))).
      + intros _. now left.
      + intros H21. apply (proj2 Hc) in H21.
        exfalso. exact (@above_not_below _ Egt H21).
    - destruct (record_domination_records A2 A1) as (h1 & E1 & R).
      exists h1, [(elem1, elem2)]. refine (conj E1 (conj R (conj _ _))).
      + discriminate.
      + intros _. now left.
    - exists h, []. refine (conj eq_refl (conj (records_refl h) (conj _ _))).
      + discriminate.
      + intros H21. apply (proj2 Hc) in H21. congruence. }
  destruct H1 as (h1 & added1 & E1 & R1 & H12 & H21). rewrite E1 in E.
  assert (Hann1 : forall r, In r (elem1 :: rest) -> annotated h1 r).
  { intros r Hr. destruct R1 as (_ & _ & A & _). apply A, Hann.
    destruct Hr as [-> | Hr]; [now left | right; now right]. }
  destruct (@paretoAnalysis_against_records P elem1 rest h1 Hann1)
    as (h2 & added2 & E2 & R2 & _).
  rewrite E in E2. injection E2 as <-.
  destruct Hx as [<- | Hx].
  - split; intros Hd.
    + eapply records_grow; [exact R2 |]. eapply records_added; [exact R1 |].
      now apply H12.
    + eapply records_grow; [exact R2 |]. eapply records_added; [exact R1 |].
      now apply H21.
  - destruct (IH h1 Hann1 E x Hx) as (I1 & I2).
    split; intros Hd.
    + apply I1. unfold dominates in *.
      destruct R1 as (_ & _ & _ & S).
      now rewrite (proj1 Hc _ _ _ _ (S elem1) (S x)).
    + apply I2. unfold dominates in *.
      destruct R1 as (_ & _ & _ & S).
      now rewrite (proj1 Hc _ _ _ _ (S x) (S elem1)).
Qed.

(** The two loops record every domination between two elements of the
    array. *)
Lemma paretoAnalysis_pairs_complete (elements : list ref) (h h' : Heap) :
  consistent P ->
  (forall r, In r elements -> annotated h r) ->
  paretoAnalysis_pairs P elements h = Some h' ->
  forall a b, In a elements -> In b elements ->
    dominates P h b a -> In b (dominators_of h' a).
Proof.
  intros Hc. revert h. induction elements as [| elem1 rest IH];
    intros h Hann E a b Ha Hb Hd; [contradiction |].
  cbn [paretoAnalysis_pairs] in E.
  destruct (@paretoAnalysis_against_records P elem1 rest h Hann)
    as (h1 & added1 & E1 & R1 & _).
  rewrite E1 in E.
  assert (Hann1 : forall r, In r rest -> annotated h1 r).
  { intros r Hr. destruct R1 as (_ & _ & A & _). apply A, Hann. now right. }
  destruct (@paretoAnalysis_pairs_records P rest h1 Hann1)
    as (h2 & added2 & E2 & R2 & _).
  rewrite E in E2. injection E2 as <-.
  assert (Hself : forall x, ~ dominates P h x x).
  { intros x Hx. unfold dominates in Hx.
    exact (@above_not_below _ Hx (proj1 (proj2 Hc _ _) Hx)). }
  destruct Ha as [<- | Ha], Hb as [<- | Hb].
  - exfalso. exact (Hself _ Hd).
  - destruct (@paretoAnalysis_against_complete elem1 rest h h1 Hc Hann E1 b Hb)
      as (_ & I2).
    eapply records_grow; [exact R2 | now apply I2].
  - destruct (@paretoAnalysis_against_complete elem1 rest h h1 Hc Hann E1 a Ha)
      as (I1 & _).
    eapply records_grow; [exact R2 | now apply I1].
  - apply (IH h1 Hann1 E a b Ha Hb). unfold dominates in *.
    destruct R1 as (_ & _ & _ & S).
    now rewrite (proj1 Hc _ _ _ _ (S b) (S a)).
Qed.

(** ** Pointwise equal stores *)

Lemma modify_ext (h g : Heap) (r : ref) (f : Element.t -> Element.t) :
  (forall x, h x = g x) -> forall x, modify h r f x = modify g r f x.
Proof.
  intros H x. unfold modify, upd. rewrite (H r).
  destruct (Nat.eqb x r); [reflexivity | apply H].
Qed.

Lemma record_domination_ext (winner loser : ref) (h g h' : Heap) :
  (forall x, h x = g x) ->
  record_domination winner loser h = Some h' ->
  exists g', record_domination winner loser g = Some g'
             /\ forall x, h' x = g' x.
Proof.
  intros H. unfold record_domination. rewrite <- (H winner).
  destruct (Element.pareto (h winner)) as [p1 |]; [| discriminate].
  set (f1 := Element.set_pareto _).
  rewrite <- (@modify_ext h g winner f1 H loser).
  destruct (Element.pareto (modify h winner f1 loser)) as [p2 |];
    [| discriminate].
  intros [= <-]. eexists. split; [reflexivity |].
  apply modify_ext, modify_ext, H.
Qed.

Lemma paretoAnalysis_against_ext (elem1 : ref) (rest : list ref)
  (h g h' : Heap) :
  (forall x, h x = g x) ->
  paretoAnalysis_against P elem1 rest h = Some h' ->
  exists g', paretoAnalysis_against P elem1 rest g = Some g'
             /\ forall x, h' x = g' x.
Proof.
  revert h g. induction rest as [| elem2 rest IH]; intros h g H;
    cbn [paretoAnalysis_against].
  - intros [= <-]. now exists g.
  - rewrite <- (H elem1), <- (H elem2).
    destruct (if JS.gtb _ _ then _ else _) as [h1 |] eqn:E1; [| discriminate].
    intros E2.
    assert (H1 : exists g1,
               (if JS.gtb (domination P (h elem1) (h elem2)) JS.zero
                then record_domination elem1 elem2 g
                else if JS.ltb (domination P (h elem1) (h elem2)) JS.zero
                     then record_domination elem2 elem1 g
                     else Some g) = Some g1
               /\ forall x, h1 x = g1 x).
    { destruct (JS.gtb _ _); [| destruct (JS.ltb _ _)].
      - eapply record_domination_ext; eassumption.
      - eapply record_domination_ext; eassumption.
      - injection E1 as <-. now exists g. }
    destruct H1 as (g1 & -> & H1). exact (IH h1 g1 H1 E2).
Qed.

Lemma paretoAnalysis_pairs_ext (elements : list ref) (h g h' : Heap) :
  (forall x, h x = g x) ->
  paretoAnalysis_pairs P elements h = Some h' ->
  exists g', paretoAnalysis_pairs P elements g = Some g'
             /\ forall x, h' x = g' x.
Proof.
  revert h g. induction elements as [| elem1 rest IH]; intros h g H;
    cbn [paretoAnalysis_pairs].
  - intros [= <-]. now exists g.
  - destruct (paretoAnalysis_against P elem1 rest h) as [h1 |] eqn:E1;
      [| discriminate].
    destruct (@paretoAnalysis_against_ext _ _ _ _ _ H E1) as (g1 & -> & H1).
    exact (IH h1 g1 H1).
Qed.

(** X17.  [paretoAnalysis] touches no object but the elements of the
    array, and of them nothing but the annotation; the lists it leaves hold
    elements of the array only.  When [problem.compare] is consistent (it
    does not read the annotation, and its domination is positive one way
    exactly when it is negative the other way), the lists are exact: for
    elements [a] and [b] of the array, [b] is in the dominators of [a], and
    [a] in the dominated of [b], exactly when the domination of [b] against
    [a] is positive. *)
Theorem paretoAnalysis_records_every_domination (elements : list ref)
  (h : Heap) :
  exists h',
    paretoAnalysis P elements h = Some h'
    /\ (forall r, ~ In r elements -> h' r = h r)
    /\ (forall r, same_but_pareto (h r) (h' r))
    /\ (forall a b, In a elements ->
          (In b (dominators_of h' a) -> In b elements)
          /\ (In b (dominated_of h' a) -> In b elements))
    /\ (consistent P ->
        forall a b, In a elements -> In b elements ->
          (In b (dominators_of h' a) <-> dominates P h b a)
          /\ (In a (dominated_of h' b) <-> dominates P h b a)).
Proof.
  destruct (paretoAnalysis_records P elements h)
    as (h' & added & E & D & T & _ & S & M & _ & C).
  exists h'. refine (conj E (conj _ (conj S (conj _ _)))).
  - intros r Hr. eapply paretoAnalysis_frame; eassumption.
  - intros a b Ha. split; intros Hb.
    + apply (D a b Ha) in Hb. now apply M in Hb.
    + apply (T b a Ha) in Hb. now apply M in Hb.
  - intros Hc a b Ha Hb.
    assert (Hiff : In b (dominators_of h' a) <-> dominates P h b a).
    { split.
      - intros Hin. apply (D a b Ha) in Hin. now apply (C Hc).
      - intros Hd. unfold paretoAnalysis in E.
        set (h0 := fold_left _ elements h) in E.
        assert (Hreset : forall r,
                   (In r elements -> Element.pareto (h0 r) = Some no_pareto)
                   /\ same_but_pareto (h r) (h0 r))
          by (intros r; apply paretoAnalysis_reset).
        apply (@paretoAnalysis_pairs_complete elements h0 h' Hc); auto.
        + intros r Hr. unfold annotated. now rewrite (proj1 (Hreset r) Hr).
        + unfold dominates in *.
          now rewrite (proj1 Hc _ _ _ _ (proj2 (Hreset b)) (proj2 (Hreset a))). }
    split; [exact Hiff |].
    rewrite <- Hiff. now rewrite (T a b Hb), (D a b Ha).
Qed.

(** X18.  [paretoAnalysis] starts afresh: the lists of an earlier analysis
    do not add up.  Analysing the same array again leaves every object of
    the store exactly as the first analysis left it. *)
Theorem paretoAnalysis_again_changes_nothing (elements : list ref)
  (h h1 : Heap) :
  paretoAnalysis P elements h = Some h1 ->
  exists h2,
    paretoAnalysis P elements h1 = Some h2
    /\ forall r, h2 r = h1 r.
Proof.
  intros E. pose proof E as E'. unfold paretoAnalysis in E' |- *.
  set (reset := fun (h : Heap) r => modify h r (Element.set_pareto no_pareto))
    in *.
  assert (H0 : forall x, fold_left reset elements h x
                         = fold_left reset elements h1 x).
  { intros x. unfold reset.
    destruct (in_dec Nat.eq_dec x elements) as [Hin | Hout].
    - rewrite !fold_modify_in by (assumption || reflexivity).
      destruct (@paretoAnalysis_same P _ _ _ x E) as (A1 & A2 & A3 & A4 & A5).
      unfold Element.set_pareto. congruence.
    - rewrite !fold_modify_out by assumption.
      symmetry. eapply paretoAnalysis_frame; eassumption. }
  destruct (@paretoAnalysis_pairs_ext _ _ _ _ H0 E') as (h2 & E2 & H2).
  exists h2. split; [exact E2 |]. intros r. symmetry. apply H2.
Qed.

End ParetoRecords.

Section ParetoRecordsExamples.

Import Metaheuristic Pareto.

(** X17 at the four points: the element 3 is dominated by 0 and by 2. *)
Lemma paretoAnalysis_records_every_domination_witness :
  consistent Examples.biobjective
  /\ exists h',
      paretoAnalysis Examples.biobjective [0; 1; 2; 3] Examples.four_points
      = Some h'
      /\ In 2 (dominators_of h' 3)
      /\ ~ In 1 (dominators_of h' 3).
Proof.
  split; [exact biobjective_consistent |].
  destruct (paretoAnalysis_records_every_domination Examples.biobjective
              [0; 1; 2; 3] Examples.four_points)
    as (h' & E & _ & _ & _ & Hexact).
  exists h'. split; [exact E |]. split.
  - apply (Hexact biobjective_consistent 3 2); cbn; try tauto. reflexivity.
  - intros Hin.
    apply (Hexact biobjective_consistent 3 1) in Hin; cbn; try tauto.
    discriminate.
Defined.

(** X18 at the four points. *)
Lemma paretoAnalysis_again_changes_nothing_witness :
  exists h1 h2,
    paretoAnalysis Examples.biobjective [0; 1; 2; 3] Examples.four_points
    = Some h1
    /\ paretoAnalysis Examples.biobjective [0; 1; 2; 3] h1 = Some h2
    /\ dominators_of h2 3 = [0; 2].
Proof.
  destruct (paretoAnalysis Examples.biobjective [0; 1; 2; 3]
              Examples.four_points) as [h1 |] eqn:E.
  - destruct (@paretoAnalysis_again_changes_nothing Examples.biobjective
                [0; 1; 2; 3] Examples.four_points h1 E) as (h2 & E2 & Hsame).
    exists h1, h2. refine (conj eq_refl (conj E2 _)).
    unfold dominators_of. rewrite Hsame.
    injection E as <-. reflexivity.
  - exfalso. vm_compute in E. discriminate.
Defined.

End ParetoRecordsExamples.

(* ================================================================== *)
(** * crowdingDistance: the distances are not negative                  *)
(* ================================================================== *)

Section CrowdingSign.

Import Metaheuristic Crowding Density.

Lemma sort_by_objective_sorted (count : nat) (h : Heap) (es : list ref)
  (i : nat) :
  (i < count)%nat ->
  (forall r, In r es -> evaluated count h r) ->
  StronglySorted (below h i) (JS.sort (by_objective h i) es).
Proof.
  intros Hi Hev.
  apply sort_sorted with (D := evaluated count h).
  - intros x y Dx Dy H. unfold below, by_objective in *.
    destruct (evaluated_item Dx Hi) as (a & Ea).
    destruct (evaluated_item Dy Hi) as (b & Eb).
    rewrite Ea, Eb in *. apply leb_real.
    destruct (Qlt_le_dec b a) as [Hlt | Hle]; [| exact Hle].
    apply gtb_sub_real in Hlt. congruence.
  - intros x y Dx Dy H. unfold below, by_objective in *.
    destruct (evaluated_item Dx Hi) as (a & Ea).
    destruct (evaluated_item Dy Hi) as (b & Eb).
    rewrite Ea, Eb in *. apply leb_real. apply gtb_sub_real in H. lra.
  - intros x y z Dx Dy Dz. unfold below.
    destruct (evaluated_item Dx Hi) as (a & ->).
    destruct (evaluated_item Dy Hi) as (b & ->).
    destruct (evaluated_item Dz Hi) as (c & ->).
    rewrite !leb_real. lra.
  - apply Forall_forall. exact Hev.
Qed.

Lemma below_same (h h' : Heap) (i : nat) (a b : ref) :
  (forall r, same_but_distance (h r) (h' r)) ->
  below h i a b -> below h' i a b.
Proof.
  intros S. unfold below. now rewrite !(@evaluation_at_same h h' S).
Qed.

Section Turn.

Variables (count i : nat).

Hypothesis objective : (i < count)%nat.

Lemma crowd_interior_sign (es : list ref) (h : Heap) (j : nat) (r : ref) :
  (forall r, In r es -> evaluated count h r) ->
  StronglySorted (below h i) es ->
  (0 < j)%nat -> (j + 1 < length es)%nat ->
  non_negative (distance_at h r) ->
  non_negative (distance_at (crowd_interior i es h j) r).
Proof.
  intros Hev Hsorted Hj0 Hj1 Hr. unfold crowd_interior.
  destruct (Nat.eq_dec r (nth j es O)) as [-> | Hne];
    [| now rewrite modify_distance_neq].
  unfold distance_at at 1. rewrite modify_eq.
  cbn [Element.crowdingDistance Element.set_crowdingDistance].
  destruct (@evaluated_item count h (nth (j + 1) es O) i) as (x & Ex);
    [apply Hev, nth_In; lia | exact objective |].
  destruct (@evaluated_item count h (nth (j - 1) es O) i) as (y & Ey);
    [apply Hev, nth_In; lia | exact objective |].
  assert (Hle : below h i (nth (j - 1) es O) (nth (j + 1) es O)).
  { apply (sorted_nth Hsorted) with (i := (j - 1)%nat) (j := (j + 1)%nat);
      [lia | |]; apply nth_error_nth'; lia. }
  unfold below in Hle. rewrite Ex, Ey in *. apply leb_real in Hle.
  destruct (distance_at h (nth j es O)) as [d | | |]; cbn in *;
    try contradiction; [lra | exact I].
Qed.

Lemma interior_loop_sign (es : list ref) (js : list nat) (h : Heap) (r : ref) :
  (forall r, In r es -> evaluated count h r) ->
  StronglySorted (below h i) es ->
  (forall j, In j js -> (0 < j)%nat /\ (j + 1 < length es)%nat) ->
  non_negative (distance_at h r) ->
  non_negative (distance_at (fold_left (crowd_interior i es) js h) r).
Proof.
  revert h. induction js as [| j js IH]; intros h Hev Hsorted Hjs Hr;
    cbn [fold_left]; [exact Hr |].
  destruct (Hjs j (or_introl eq_refl)) as [Hj0 Hj1].
  destruct (@crowd_interior_invariant count i objective es h j Hev Hj0 Hj1)
    as (S1 & _).
  apply IH.
  - intros x Hx. apply (@evaluated_same h _ S1), Hev, Hx.
  - eapply StronglySorted_ind
      with (P := fun l => StronglySorted (below (crowd_interior i es h j) i) l);
      [constructor | | exact Hsorted].
    intros a l _ Hl Ha. constructor; [exact Hl |].
    eapply Forall_impl; [| exact Ha].
    intros b. now apply below_same.
  - intros j' Hj'. apply Hjs. now right.
  - now apply crowd_interior_sign.
Qed.

Lemma crowdingDistance_turn_sign (h h' : Heap) (es es' : list ref) (r : ref) :
  (forall r, In r es -> evaluated count h r) ->
  crowdingDistance_turn i (h, es) = Some (h', es') ->
  non_negative (distance_at h r) -> non_negative (distance_at h' r).
Proof.
  intros Hev. unfold crowdingDistance_turn.
  destruct (_ && _); [discriminate |].
  set (sorted := JS.sort (by_objective h i) es).
  destruct (nth_error sorted 0) as [first |] eqn:Efirst; [| discriminate].
  destruct (nth_error sorted (length sorted - 1)) as [last |] eqn:Elast;
    [| discriminate].
  intros [= <- <-] Hr.
  set (h2 := modify (modify h first (Element.set_crowdingDistance JS.PInf))
                    last (Element.set_crowdingDistance JS.PInf)).
  assert (S2 : forall x, same_but_distance (h x) (h2 x)).
  { intros x. eapply same_but_distance_trans; apply modify_distance_same. }
  apply interior_loop_sign.
  - intros x Hx. apply (@evaluated_same h _ S2), Hev.
    now apply (sort_In (by_objective h i) es).
  - pose proof (@sort_by_objective_sorted count h es i objective Hev) as Hs.
    fold sorted in Hs.
    eapply StronglySorted_ind
      with (P := fun l => StronglySorted (below h2 i) l);
      [constructor | | exact Hs].
    intros a l _ Hl Ha. constructor; [exact Hl |].
    eapply Forall_impl; [| exact Ha].
    intros b. now apply below_same.
  - intros j Hj. apply in_seq in Hj. lia.
  - subst h2.
    destruct (Nat.eq_dec r last) as [-> | N2];
      [now rewrite modify_distance_eq | rewrite modify_distance_neq by assumption].
    destruct (Nat.eq_dec r first) as [-> | N1];
      [now rewrite modify_distance_eq | now rewrite modify_distance_neq].
Qed.

End Turn.

Lemma crowdingDistance_turns_sign (count : nat) (indices : list nat)
  (h h' : Heap) (es es' : list ref) (r : ref) :
  (forall i, In i indices -> (i < count)%nat) ->
  (forall r, In r es -> evaluated count h r) ->
  for_each crowdingDistance_turn indices (h, es) = Some (h', es') ->
  non_negative (distance_at h r) -> non_negative (distance_at h' r).
Proof.
  revert h es. induction indices as [| i indices IH]; intros h es Hi Hev;
    cbn [for_each].
  - now intros [= <- <-].
  - destruct (crowdingDistance_turn i (h, es)) as [[h1 es1] |] eqn:E1;
      [| discriminate].
    intros E2 Hr.
    destruct (@crowdingDistance_turn_frame _ _ _ _ _ E1) as (P1 & S1 & _).
    apply (IH h1 es1).
    + intros k Hk. apply Hi. now right.
    + intros x Hx. apply (@evaluated_same h _ S1), Hev.
      eapply Permutation_in; eassumption.
    + exact E2.
    + eapply crowdingDistance_turn_sign; try eassumption.
      apply Hi. now left.
Qed.

(** X19.  On a non-empty array of evaluated elements [crowdingDistance]
    completes and leaves every element of the array with a distance that is
    not negative: a real number from 0 up, or +infinity.  It touches no
    object but the elements of the array, and of them nothing but the
    distance.  Without an objective every distance is 0; with an objective
    and at most two elements every distance is +infinity. *)
Theorem crowdingDistance_never_negative (P : Problem) (elements : list ref)
  (h : Heap) :
  elements <> [] ->
  (forall r, In r elements -> evaluated (objectives P) h r) ->
  exists h',
    crowdingDistance P elements h = Some h'
    /\ (forall r, In r elements -> non_negative (distance_at h' r))
    /\ (forall r, ~ In r elements -> h' r = h r)
    /\ (forall r, same_but_distance (h r) (h' r))
    /\ (objectives P = 0%nat ->
        forall r, In r elements -> distance_at h' r = JS.zero)
    /\ ((1 <= objectives P)%nat -> (length elements <= 2)%nat ->
        forall r, In r elements -> distance_at h' r = JS.PInf).
Proof.
  intros Hne Hev.
  destruct (@crowdingDistance_described P elements h Hne Hev)
    as (h' & E & S & X & _).
  destruct (@crowdingDistance_frame P _ _ _ E) as (_ & F).
  exists h'. refine (conj E (conj _ (conj F (conj S (conj _ _))))).
  - intros r Hr. pose proof E as E'. unfold crowdingDistance in E'.
    set (h0 := fold_left _ elements h) in E'.
    assert (Hreset : forall x, (In x elements -> distance_at h0 x = JS.zero)
                               /\ same_but_distance (h x) (h0 x))
      by (intros x; apply crowdingDistance_reset).
    destruct (for_each _ _ _) as [[h1 es1] |] eqn:Ef; [| discriminate].
    injection E' as <-. cbn [fst].
    eapply crowdingDistance_turns_sign with (count := objectives P);
      [| | exact Ef |].
    + intros i Hi. apply in_seq in Hi. lia.
    + intros x Hx.
      apply (@evaluated_same h h0 (fun x => proj2 (Hreset x))), Hev, Hx.
    + rewrite (proj1 (Hreset r) Hr). cbn. lra.
  - intros Hzero r Hr. unfold crowdingDistance in E. rewrite Hzero in E.
    cbn [seq for_each fst] in E. injection E as <-.
    now apply crowdingDistance_reset.
  - intros Hone Hlen r Hr. apply (X 0%nat r); [lia |].
    pose proof (ranking_permutation h elements 0) as Hperm.
    assert (Hin : In r (ranking h elements 0))
      by (eapply Permutation_in; [apply Permutation_sym, Hperm | exact Hr]).
    apply Permutation_length in Hperm.
    unfold extreme.
    destruct (ranking h elements 0) as [| a [| b [| c l]]];
      cbn in Hperm, Hin |- *; try lia.
    + destruct Hin as [-> | []]. now left.
    + destruct Hin as [-> | [-> | []]]; [now left | now right].
Qed.

End CrowdingSign.

Section CrowdingSignExamples.

Import Metaheuristic Crowding Density.

(** X19 at the five points on a front. *)
Lemma crowdingDistance_never_negative_witness :
  [0; 1; 2; 3; 4] <> []
  /\ (forall r, In r [0; 1; 2; 3; 4] ->
        evaluated (objectives Examples.biobjective) Examples.five_points r)
  /\ exists h',
      crowdingDistance Examples.biobjective [0; 1; 2; 3; 4]
                       Examples.five_points = Some h'
      /\ non_negative (distance_at h' 2).
Proof.
  assert (H1 : [0; 1; 2; 3; 4] <> []) by discriminate.
  assert (H2 : forall r, In r [0; 1; 2; 3; 4] ->
                 evaluated (objectives Examples.biobjective)
                           Examples.five_points r)
    by (intros r _; apply five_points_evaluated).
  refine (conj H1 (conj H2 _)).
  destruct (@crowdingDistance_never_negative Examples.biobjective
              [0; 1; 2; 3; 4] Examples.five_points H1 H2)
    as (h' & E & Hsign & _).
  exists h'. split; [exact E |]. apply Hsign. cbn. tauto.
Defined.

End CrowdingSignExamples.

(* ================================================================== *)
(** * strengthParetoSort                                                *)
(* ================================================================== *)

Section StrengthParetoSort.

Import Metaheuristic Pareto.

Variable P : Problem.

Lemma dominated_counts_sum (h : Heap) (l : list ref) :
  (forall d, In d l -> annotated h d) ->
  dominated_counts h l
  = Some (list_sum (map (fun d => length (dominated_of h d)) l)).
Proof.
  induction l as [| d l IH]; intros Hann; [reflexivity |].
  cbn [dominated_counts map list_sum].
  assert (Hd : annotated h d) by (apply Hann; now left).
  unfold annotated in Hd. unfold dominated_of at 1.
  destruct (Element.pareto (h d)) as [p |]; [| congruence].
  rewrite IH by (intros; apply Hann; now right). reflexivity.
Qed.

Lemma strength_sum (h : Heap) (r : ref) :
  annotated h r ->
  (forall d, In d (dominators_of h r) -> annotated h d) ->
  strength h r
  = Some (list_sum (map (fun d => length (dominated_of h d))
                        (dominators_of h r))).
Proof.
  unfold annotated at 1, strength, dominators_of. intros Hr Hann.
  destruct (Element.pareto (h r)) as [p |]; [| congruence].
  now apply dominated_counts_sum.
Qed.

(** The loop over the elements completes when each has a strength. *)
Lemma strengths_complete (h : Heap) (l : list ref) (acc : list nat) :
  (forall r, In r l -> strength h r <> None) ->
  for_each (fun elem acc => try n <- strength h elem; Some (acc ++ [n]))
           l acc <> None.
Proof.
  revert acc. induction l as [| r l IH]; intros acc H; cbn [for_each];
    [discriminate |].
  destruct (strength h r) as [n |] eqn:E.
  - apply IH. intros x Hx. apply H. now right.
  - exfalso. apply (H r); [now left | exact E].
Qed.

(** X20.  [strengthParetoSort] completes on every array of elements.  It
    leaves the annotations of [paretoAnalysis]; the strength of an element
    is the sum, over its dominators, of the number of elements each of them
    dominates, and it is 0 exactly for the elements without a dominator.
    The result is the array rearranged in ascending order of strength, so
    that every element without a dominator comes before every element that
    has one. *)
Theorem strengthParetoSort_puts_front_first (elements : list ref) (h : Heap) :
  exists h' sorted,
    strengthParetoSort P elements h = Some (h', sorted)
    /\ paretoAnalysis P elements h = Some h'
    /\ Permutation sorted elements
    /\ (forall r, In r elements ->
          strength h' r
          = Some (list_sum (map (fun d => length (dominated_of h' d))
                                (dominators_of h' r)))
          /\ (strength_at h' r = 0%nat <-> dominators_of h' r = []))
    /\ StronglySorted (fun a b => (strength_at h' a <= strength_at h' b)%nat)
                      sorted
    /\ (forall i j a b,
          nth_error sorted i = Some a -> nth_error sorted j = Some b ->
          dominators_of h' a = [] -> dominators_of h' b <> [] ->
          (i < j)%nat).
Proof.
  destruct (paretoAnalysis_records P elements h)
    as (h' & added & E & D & T & A & _ & M & _).
  assert (Hdom : forall r d, In r elements -> In d (dominators_of h' r) ->
                   In d elements /\ In r (dominated_of h' d)).
  { intros r d Hr Hd. apply (D r d Hr) in Hd.
    destruct (M _ _ Hd) as (_ & Hd'). split; [exact Hd' |].
    now apply (T r d Hd'). }
  assert (Hstrength : forall r, In r elements ->
            strength h' r
            = Some (list_sum (map (fun d => length (dominated_of h' d))
                                  (dominators_of h' r)))).
  { intros r Hr. apply strength_sum; [now apply A |].
    intros d Hd. apply A. now apply (Hdom r d Hr). }
  assert (Hzero : forall r, In r elements ->
            (strength_at h' r = 0%nat <-> dominators_of h' r = [])).
  { intros r Hr. unfold strength_at. rewrite (Hstrength r Hr).
    split; [| now intros ->].
    destruct (dominators_of h' r) as [| d l] eqn:Ed; [reflexivity |].
    intros Hsum. exfalso.
    destruct (Hdom r d Hr) as (_ & Hin); [rewrite Ed; now left |].
    cbn [map list_sum] in Hsum.
    destruct (dominated_of h' d); [contradiction | cbn in Hsum; lia]. }
  set (comparefn := fun elem1 elem2 =>
                      JS.sub (JS.of_nat (strength_at h' elem1))
                             (JS.of_nat (strength_at h' elem2))).
  assert (Hsorted : StronglySorted
                      (fun a b => (strength_at h' a <= strength_at h' b)%nat)
                      (JS.sort comparefn elements)).
  { apply sort_sorted with (D := fun _ => True).
    - intros x y _ _ Hxy. unfold comparefn in Hxy.
      destruct (Nat.le_gt_cases (strength_at h' x) (strength_at h' y))
        as [Hle | Hgt]; [exact Hle |].
      apply count_difference_positive in Hgt. congruence.
    - intros x y _ _ Hxy. unfold comparefn in Hxy.
      apply count_difference_positive in Hxy. lia.
    - intros x y z _ _ _. lia.
    - apply Forall_forall. auto. }
  assert (Hperm : Permutation (JS.sort comparefn elements) elements)
    by apply sort_permutation.
  exists h', (JS.sort comparefn elements).
  refine (conj _ (conj E (conj Hperm (conj _ (conj Hsorted _))))).
  - unfold strengthParetoSort. rewrite E.
    destruct (for_each _ elements []) as [strengths |] eqn:Ef; [reflexivity |].
    exfalso. revert Ef. apply strengths_complete.
    intros r Hr. now rewrite (Hstrength r Hr).
  - intros r Hr. split; [now apply Hstrength | now apply Hzero].
  - intros i j a b Ha Hb Hfront Hdominated.
    assert (Ina : In a elements).
    { eapply Permutation_in; [exact Hperm | eapply nth_error_In, Ha]. }
    assert (Inb : In b elements).
    { eapply Permutation_in; [exact Hperm | eapply nth_error_In, Hb]. }
    apply (Hzero a Ina) in Hfront.
    assert (Hpos : strength_at h' b <> 0%nat).
    { intros Hb0. now apply (Hzero b Inb) in Hb0. }
    destruct (Nat.lt_total i j) as [Hlt | [-> | Hgt]]; [exact Hlt | |].
    + rewrite Ha in Hb. injection Hb as <-. contradiction.
    + pose proof (sorted_nth Hsorted Hgt Hb Ha) as Hle. cbn in Hle. lia.
Qed.

End StrengthParetoSort.

Section StrengthParetoSortExamples.

Import Metaheuristic Pareto.

(** The four points sorted by strength: 0 and 2 have no dominator; 1 is
    dominated by 0, which dominates two elements; 3 is dominated by 0 and
    by 2, which dominate three elements in all. *)
Example strengthParetoSort_four_points :
  option_map (fun hs => (snd hs, map (strength_at (fst hs)) (snd hs)))
             (strengthParetoSort Examples.biobjective [3; 1; 0; 2]
                                 Examples.four_points)
  = Some ([0; 2; 1; 3], [0; 0; 2; 3]%nat).
Proof. vm_compute. reflexivity. Qed.

End StrengthParetoSortExamples.

(* ================================================================== *)
(** * ParticleSwarm: initiate, and the particles after update           *)
(* ================================================================== *)

Section SwarmInitiate.

Import ParticleSwarm Swarm Launch.

Variable P : Problem.

Lemma randoms_result (n : nat) (lo hi : JS.num) (mh : Metaheuristic.t) :
  randoms n lo hi mh
  = (map (fun k => drawn lo hi (Metaheuristic.random mh k)) (seq 0 n),
     Metaheuristic.with_random
       (fun k => Metaheuristic.random mh (n + k)) mh).
Proof.
  revert mh. induction n as [| n IH]; intros mh; cbn [randoms].
  - destruct mh; reflexivity.
  - unfold random_between. rewrite IH.
    cbn [seq map Metaheuristic.random Metaheuristic.with_random].
    rewrite <- seq_shift, map_map. reflexivity.
Qed.

(** The velocity has a number for each dimension of the model, and for a
    generator that draws from [0, 1) none exceeds the cardinality of its
    dimension. *)
Lemma velocity_within_model (g : nat -> Q) :
  length (velocity P g) = length (model P)
  /\ ((forall k, (0 <= g k < 1)%Q) ->
      forall i c, nth_error (model P) i = Some c -> (0 <= c)%Z ->
        JS.leb (JS.abs (JS.item (velocity P g) i)) (JS.of_Z c) = true).
Proof.
  unfold velocity. split.
  - now rewrite length_map, indexed_length, length_map, length_seq.
  - intros Hg i c Hc Hpos.
    assert (Hi : (i < length (model P))%nat)
      by (apply nth_error_Some; congruence).
    rewrite map_indexed_item by (now rewrite length_map, length_seq).
    cbn [fst snd]. rewrite (nth_error_nth _ _ 0%Z Hc).
    unfold JS.item.
    rewrite (nth_indep _ JS.NaN (drawn (JS.Fin (-1)) (JS.Fin 1) (g 0%nat)))
      by (now rewrite length_map, length_seq).
    rewrite (map_nth (fun k => drawn (JS.Fin (-1)) (JS.Fin 1) (g k))).
    rewrite seq_nth by exact Hi. cbn [Nat.add].
    unfold drawn, JS.sub, JS.of_Z. cbn [JS.opp JS.add JS.mul JS.abs].
    apply leb_real. apply Qabs_Qle_condition.
    destruct (Hg i) as (H0 & H1).
    assert (Hc0 : (0 <= inject_Z c)%Q)
      by (change 0%Q with (inject_Z 0); now rewrite <- Zle_Qle).
    split; nra.
Qed.

Lemma initiate_element_result (mh : Metaheuristic.t) (r : ref) :
  let mh' := initiate_element P mh r in
  Metaheuristic.heap mh' r
  = Element.set_localBest r
      (Element.set_velocity (velocity P (Metaheuristic.random mh))
                            (Metaheuristic.heap mh r))
  /\ (forall x, x <> r -> Metaheuristic.heap mh' x = Metaheuristic.heap mh x)
  /\ (forall k, Metaheuristic.random mh' k
                = Metaheuristic.random mh (length (model P) + k)%nat)
  /\ Metaheuristic.state mh' = Metaheuristic.state mh
  /\ Metaheuristic.events mh' = Metaheuristic.events mh
  /\ Metaheuristic.fresh mh' = Metaheuristic.fresh mh
  /\ Metaheuristic.logger mh' = Metaheuristic.logger mh.
Proof.
  unfold initiate_element. rewrite randoms_result.
  cbn [Metaheuristic.heap Metaheuristic.with_heap Metaheuristic.with_random
       Metaheuristic.random Metaheuristic.state Metaheuristic.events
       Metaheuristic.fresh Metaheuristic.logger].
  fold (velocity P (Metaheuristic.random mh)).
  refine (conj _ (conj _ (conj _ (conj eq_refl (conj eq_refl
            (conj eq_refl eq_refl)))))).
  - now rewrite !modify_eq.
  - intros x Hx. now rewrite !modify_neq.
  - reflexivity.
Qed.

(** The loop of [initiate] over an array without repetition. *)
Lemma initiate_elements_result (l : list ref) (mh : Metaheuristic.t) :
  NoDup l ->
  let mh' := fold_left (initiate_element P) l mh in
  (forall r, In r l ->
     exists offset,
       Metaheuristic.heap mh' r
       = Element.set_localBest r
           (Element.set_velocity
              (velocity P (fun k => Metaheuristic.random mh (offset + k)%nat))
              (Metaheuristic.heap mh r)))
  /\ (forall x, ~ In x l -> Metaheuristic.heap mh' x = Metaheuristic.heap mh x)
  /\ (forall k, Metaheuristic.random mh' k
                = Metaheuristic.random mh (length l * length (model P) + k)%nat)
  /\ Metaheuristic.state mh' = Metaheuristic.state mh
  /\ Metaheuristic.events mh' = Metaheuristic.events mh
  /\ Metaheuristic.fresh mh' = Metaheuristic.fresh mh
  /\ Metaheuristic.logger mh' = Metaheuristic.logger mh.
Proof.
  intros Hnodup. revert mh.
  induction Hnodup as [| x l Hx Hnodup IH]; intros mh; cbn [fold_left].
  - refine (conj _ (conj _ (conj _ _))); try tauto. intros _ [].
  - destruct (initiate_element_result mh x)
      as (Hr1 & Hx1 & Hg1 & Hs1 & He1 & Hf1 & Hl1).
    destruct (IH (initiate_element P mh x))
      as (Hr2 & Hx2 & Hg2 & Hs2 & He2 & Hf2 & Hl2).
    refine (conj _ (conj _ (conj _ (conj _ (conj _ (conj _ _)))))); try congruence.
    + intros r [<- | Hr].
      * exists 0%nat. rewrite (Hx2 x Hx), Hr1. reflexivity.
      * destruct (Hr2 r Hr) as (offset & E).
        exists (length (model P) + offset)%nat.
        rewrite E, Hx1 by (intros ->; contradiction).
        f_equal. f_equal. unfold velocity. f_equal. f_equal.
        apply map_ext. intros k. now rewrite Hg1, Nat.add_assoc.
    + intros y Hy. rewrite Hx2 by (intros ?; apply Hy; now right).
      apply Hx1. intros ->. apply Hy. now left.
    + intros k. rewrite Hg2, Hg1. f_equal. cbn [length]. lia.
Qed.

Lemma initiate_completes (size : option Z) (mh : Metaheuristic.t) :
  (0 <= match size with None => Metaheuristic.size mh | Some s => s end)%Z ->
  exists mh', Metaheuristic.initiate P size mh = Some mh'.
Proof.
  intros Hpos. unfold Metaheuristic.initiate, Metaheuristic.new_Array.
  destruct (Z.ltb_spec (match size with
                        | None => Metaheuristic.size mh
                        | Some s => s
                        end) 0); [lia |].
  destruct (Metaheuristic.create P _ _ _). now eexists.
Qed.

(** X21.  [initiate(size)] of a swarm throws for a negative size.
    Otherwise the state is made of that many new elements, as the
    [initiate] of Metaheuristic leaves them, and each is launched: it is its
    own best position, and its velocity has one number for each dimension of
    the model, which for a generator that draws from [0, 1) does not exceed
    the cardinality of the dimension, either way.  The generator has made
    one draw for each dimension of each element.  The objects the store had
    are untouched, the global best is as before, and "initiated" has been
    emitted twice: by the [initiate] of Metaheuristic and once more by the
    swarm. *)
Theorem initiate_launches_particles (size : option Z) (psw : t) :
  let mh := base psw in
  let n := match size with None => Metaheuristic.size mh | Some s => s end in
  ((n < 0)%Z -> initiate P size psw = None)
  /\ ((0 <= n)%Z ->
      exists psw',
        initiate P size psw = Some psw'
        /\ Metaheuristic.state (base psw')
           = seq (Metaheuristic.fresh mh) (Z.to_nat n)
        /\ Metaheuristic.fresh (base psw')
           = (Metaheuristic.fresh mh + Z.to_nat n)%nat
        /\ (forall r, In r (Metaheuristic.state (base psw')) ->
              let e := Metaheuristic.heap (base psw') r in
              Element.__values__ e = initial P r
              /\ Element.__localBest__ e = Some r
              /\ (exists v,
                    Element.__velocity__ e = Some v
                    /\ length v = length (model P)
                    /\ ((forall k, (0 <= Metaheuristic.random mh k < 1)%Q) ->
                        forall i c,
                          nth_error (model P) i = Some c -> (0 <= c)%Z ->
                          JS.leb (JS.abs (JS.item v i)) (JS.of_Z c) = true))
              /\ ((length (initial P r) <= length (model P))%nat ->
                  particle P (Metaheuristic.heap (base psw')) r))
        /\ (forall r, (r < Metaheuristic.fresh mh)%nat ->
              Metaheuristic.heap (base psw') r = Metaheuristic.heap mh r)
        /\ Metaheuristic.events (base psw')
           = Metaheuristic.events mh ++ ["initiated"; "initiated"]%string
        /\ (forall k, Metaheuristic.random (base psw') k
                      = Metaheuristic.random mh
                          (Z.to_nat n * length (model P) + k)%nat)
        /\ __globalBest__ psw' = __globalBest__ psw).
Proof.
  intros mh n. split.
  - intros Hneg. unfold initiate. fold mh.
    destruct (Metaheuristic.initiate P size mh) as [m1 |] eqn:E1;
      [| reflexivity].
    destruct (@initiate_result _ _ _ _ E1) as (Hn & _). cbn zeta in Hn.
    fold n in Hn. lia.
  - intros Hpos. unfold initiate. fold mh.
    destruct (@initiate_completes size mh Hpos) as (m1 & E1).
    rewrite E1.
    destruct (@initiate_result _ _ _ _ E1)
      as (_ & Hs1 & Hf1 & Hv1 & Hold1 & He1 & _ & _).
    cbn zeta in Hs1, Hf1. fold n in Hs1, Hf1.
    assert (Hnodup : NoDup (Metaheuristic.state m1))
      by (rewrite Hs1; apply seq_NoDup).
    destruct (@initiate_elements_result (Metaheuristic.state m1) m1 Hnodup)
      as (Hr2 & Hx2 & Hg2 & Hs2 & He2 & Hf2 & _).
    set (m2 := fold_left (initiate_element P) (Metaheuristic.state m1) m1) in *.
    assert (Hg1 : forall k, Metaheuristic.random m1 k = Metaheuristic.random mh k).
    { intros k. unfold Metaheuristic.initiate, Metaheuristic.new_Array in E1.
      destruct (_ <? 0)%Z; [discriminate |].
      destruct (Metaheuristic.create P _ _ _). injection E1 as <-.
      unfold Metaheuristic.onInitiate. now handlers. }
    eexists. split; [reflexivity |].
    cbn [base with_base __globalBest__].
    unfold Metaheuristic.onInitiate, Frame.emitted in *. handlers.
    refine (conj _ (conj _ (conj _ (conj _ (conj _ (conj _ eq_refl)))))).
    + congruence.
    + congruence.
    + intros r Hr. rewrite Hs2 in Hr. cbn zeta.
      destruct (Hr2 r Hr) as (offset & E).
      destruct (velocity_within_model
                  (fun k => Metaheuristic.random m1 (offset + k)%nat))
        as (Hlen & Hbound).
      rewrite E.
      cbn [Element.__values__ Element.__localBest__ Element.__velocity__
           Element.set_localBest Element.set_velocity].
      refine (conj (Hv1 r Hr) (conj eq_refl (conj _ _))).
      * eexists. refine (conj eq_refl (conj Hlen _)).
        intros Hg. apply Hbound. intros k. rewrite Hg1. apply Hg.
      * intros Hmodel. unfold particle. rewrite E.
        cbn [Element.__values__ Element.__localBest__ Element.__velocity__
             Element.set_localBest Element.set_velocity].
        rewrite (Hv1 r Hr).
        refine (conj _ (conj _ Hmodel)); now eexists.
    + intros r Hr. rewrite Hx2; [now apply Hold1 |].
      rewrite Hs1. intros Hin. apply in_seq in Hin. lia.
    + rewrite He2, He1, <- app_assoc. reflexivity.
    + intros k. rewrite Hg2, Hg1, Hs1, length_seq. reflexivity.
Qed.

End SwarmInitiate.

Section SwarmParticles.

Import ParticleSwarm Swarm Launch Frame.

Variable P : Problem.

Lemma particle_same (h h' : Heap) (r : ref) :
  same_but_ranking (h r) (h' r) -> particle P h r -> particle P h' r.
Proof.
  intros (Ev & _ & Evel & Elb). unfold particle. now rewrite Ev, Evel, Elb.
Qed.

(** The elements [update] creates are particles again. *)
Lemma map_elements_particles (globalBest : ref) (l : list ref) (psw : t) :
  (forall r, In r l ->
     particle P (Metaheuristic.heap (base psw)) r
     /\ (r < Metaheuristic.fresh (base psw))%nat) ->
  forall created psw',
    map_elements (fun element => nextElement P element globalBest) l psw
    = Some (created, psw') ->
    (forall r, In r created ->
       particle P (Metaheuristic.heap (base psw')) r
       /\ (Metaheuristic.fresh (base psw) <= r
           < Metaheuristic.fresh (base psw'))%nat
       /\ Element.evaluation (Metaheuristic.heap (base psw') r) <> None)
    /\ (forall r, (r < Metaheuristic.fresh (base psw))%nat ->
          Metaheuristic.heap (base psw') r = Metaheuristic.heap (base psw) r)
    /\ (Metaheuristic.fresh (base psw) <= Metaheuristic.fresh (base psw'))%nat.
Proof.
  revert psw. induction l as [| x l IH]; intros psw Hl created psw';
    cbn [map_elements].
  - intros [= <- <-]. refine (conj _ (conj _ _)); [intros r [] | auto | lia].
  - destruct (Hl x (or_introl eq_refl))
      as (((v & Hv) & (lb & Hlb) & Hmodel) & Hx).
    destruct (@nextElement_result P psw x globalBest v lb Hv Hlb Hmodel)
      as (psw1 & E1 & F1 & H1 & Eval1 & Eev1 & Evel1 & (best & Ebest1) & _);
      [lia |].
    rewrite E1. cbn [fst snd].
    destruct (map_elements _ l psw1) as [[rs psw2] |] eqn:E2; [| discriminate].
    cbn [fst snd]. intros [= <- <-].
    destruct (IH psw1) with (created := rs) (psw' := psw2)
      as (Hnew & Hold & Hfresh); [| exact E2 |].
    { intros r Hr. destruct (Hl r (or_intror Hr)) as (Hp & Hlt).
      split; [| lia]. unfold particle in *. now rewrite !H1 by lia. }
    refine (conj _ (conj _ _)).
    + intros r [<- | Hr].
      * unfold particle. rewrite !Hold by lia.
        rewrite Evel1, Ebest1, Eev1, Eval1.
        rewrite length_map, indexed_length.
        refine (conj (conj _ (conj _ Hmodel)) (conj _ _));
          [now eexists | now eexists | lia | discriminate].
      * destruct (Hnew r Hr) as (Hp & Hlt & Hev).
        refine (conj Hp (conj _ Hev)). lia.
    + intros r Hr. rewrite Hold by lia. apply H1. lia.
    + lia.
Qed.

(** X22.  Whenever [update()] of a swarm completes on a state of particles
    of the store, the elements of the new state are new objects and
    particles again: each has a velocity, a personal best and a position
    within the dimensions of the model, and each is evaluated.  The objects
    the store had, the particles before among them, are exactly as they
    were: a particle is never moved, another one takes its place.  So
    [update()] can be performed again: on a state that is not empty it
    completes, and so does the next one. *)
Theorem update_keeps_particles (psw : t) :
  let mh := base psw in
  (forall r, In r (Metaheuristic.state mh) ->
     particle P (Metaheuristic.heap mh) r
     /\ (r < Metaheuristic.fresh mh)%nat) ->
  (forall psw',
      update P psw = Some psw' ->
      let mh' := base psw' in
      (forall r, In r (Metaheuristic.state mh') ->
         particle P (Metaheuristic.heap mh') r
         /\ (Metaheuristic.fresh mh <= r < Metaheuristic.fresh mh')%nat
         /\ Element.evaluation (Metaheuristic.heap mh' r) <> None)
      /\ (forall r, (r < Metaheuristic.fresh mh)%nat ->
            Metaheuristic.heap mh' r = Metaheuristic.heap mh r)
      /\ Metaheuristic.state mh' <> []
      /\ __globalBest__ psw' <> None)
  /\ (Metaheuristic.state mh <> [] ->
      ((1 < objectives P)%nat ->
       forall vs, length (evaluation_of P vs) = objectives P
                  /\ Forall JS.is_real (evaluation_of P vs)) ->
      exists psw' psw'',
        update P psw = Some psw' /\ update P psw' = Some psw'').
Proof.
  intros mh Hparticles.
  assert (Hany : forall psw',
             update P psw = Some psw' ->
             (forall r, In r (Metaheuristic.state (base psw')) ->
                particle P (Metaheuristic.heap (base psw')) r
                /\ (Metaheuristic.fresh mh <= r
                    < Metaheuristic.fresh (base psw'))%nat
                /\ Element.evaluation (Metaheuristic.heap (base psw') r)
                   <> None)
             /\ (forall r, (r < Metaheuristic.fresh mh)%nat ->
                   Metaheuristic.heap (base psw') r = Metaheuristic.heap mh r)
             /\ Metaheuristic.state (base psw') <> []
             /\ __globalBest__ psw' <> None).
  { intros psw'. unfold update. fold mh.
    set (globalBest := match __globalBest__ psw with
                       | Some g => Some g
                       | None => nth_error (Metaheuristic.state mh) 0
                       end).
    destruct (match globalBest with
              | Some g => map_elements _ (Metaheuristic.state mh) _
              | None => Some ([], with_globalBest globalBest psw)
              end) as [[created psw1] |] eqn:E1; [| discriminate].
    destruct (Metaheuristic.sort P created (Metaheuristic.heap (base psw1)))
      as [[h2 sorted] |] eqn:E2; [| discriminate].
    cbn [__globalBest__ with_base].
    destruct (__globalBest__ psw1) as [previous |] eqn:Eg; [| discriminate].
    destruct sorted as [| best rest] eqn:Es; [discriminate |].
    cbn [nth_error]. rewrite <- Es in *.
    destruct (@sort_frame P _ _ _ _ E2) as (Hperm & Hsame & Hframe).
    assert (H1 : (forall r, In r created ->
                    particle P (Metaheuristic.heap (base psw1)) r
                    /\ (Metaheuristic.fresh mh <= r
                        < Metaheuristic.fresh (base psw1))%nat
                    /\ Element.evaluation (Metaheuristic.heap (base psw1) r)
                       <> None)
                 /\ (forall r, (r < Metaheuristic.fresh mh)%nat ->
                       Metaheuristic.heap (base psw1) r
                       = Metaheuristic.heap mh r)).
    { destruct globalBest as [g |].
      - destruct (@map_elements_particles g (Metaheuristic.state mh)
                    (with_globalBest (Some g) psw) Hparticles created psw1 E1)
          as (A & B & _).
        split; [exact A | exact B].
      - injection E1 as <- <-. split; [intros r [] | reflexivity]. }
    destruct H1 as (Hnew & Hold).
    intros [= <-].
    assert (Hfinal : Metaheuristic.heap
                       (base (with_base
                                (Metaheuristic.onUpdate
                                   (Metaheuristic.with_state sorted
                                      (Metaheuristic.with_heap h2 (base psw1))))
                                psw1)) = h2
                     /\ Metaheuristic.fresh
                          (Metaheuristic.onUpdate
                             (Metaheuristic.with_state sorted
                                (Metaheuristic.with_heap h2 (base psw1))))
                        = Metaheuristic.fresh (base psw1)
                     /\ Metaheuristic.state
                          (Metaheuristic.onUpdate
                             (Metaheuristic.with_state sorted
                                (Metaheuristic.with_heap h2 (base psw1))))
                        = sorted).
    { unfold Metaheuristic.onUpdate. cbn [base with_base]. now handlers. }
    destruct Hfinal as (Hh & Hf & Hs).
    destruct (JS.ltb _ JS.zero);
      cbn [base with_base with_globalBest __globalBest__] in *;
      rewrite Hh, Hf, Hs;
      (refine (conj _ (conj _ (conj _ _)));
       [ intros r Hr;
         assert (Hc : In r created)
           by (eapply Permutation_in; [exact Hperm | exact Hr]);
         destruct (Hnew r Hc) as (Hp & Hlt & Hev);
         refine (conj (@particle_same _ _ _ (Hsame r) Hp) (conj Hlt _));
         destruct (Hsame r) as (_ & -> & _); exact Hev
       | intros r Hr; rewrite Hframe; [now apply Hold |];
         intros Hc; destruct (Hnew r Hc) as (_ & Hlt & _); lia
       | rewrite Es; discriminate
       | congruence || discriminate ]). }
  split; [exact Hany |].
  intros Hne Hevaluation.
  destruct (@update_completes P psw Hne Hparticles Hevaluation)
    as (psw' & _ & _ & E & _).
  destruct (Hany psw' E) as (Hnew & _ & Hne' & _).
  destruct (@update_completes P psw' Hne') as (psw'' & _ & _ & E' & _);
    [| exact Hevaluation |].
  - intros r Hr. destruct (Hnew r Hr) as (Hp & Hlt & _). split; [exact Hp | lia].
  - now exists psw', psw''.
Qed.

Lemma sequence_none (A B : Type) (f : A -> option B) (x : A) (xs : list A) :
  In x xs -> f x = None -> sequence (map f xs) = None.
Proof.
  intros Hin Hf. induction xs as [| y ys IH]; [contradiction |].
  cbn [map sequence]. destruct Hin as [-> | Hin].
  - now rewrite Hf.
  - destruct (f y); [| reflexivity]. now rewrite IH.
Qed.

(** X23.  For a particle whose personal best is an object of the store,
    [nextElement] builds the new element as the next object of the store and
    touches no other object, the particle it moves least of all.  The new
    element has the evaluation of its position; its personal best is itself
    when it is better than the personal best of the particle, and that
    personal best otherwise.  The state, the events and the global best are
    as before.  When the position of the particle has more dimensions than
    the model, [nextElement] throws. *)
Theorem nextElement_keeps_personal_best (psw : t) (element globalBest : ref)
  (v : list JS.num) (lb : ref) :
  let mh := base psw in
  let h := Metaheuristic.heap mh in
  let result := Metaheuristic.fresh mh in
  Element.__velocity__ (h element) = Some v ->
  Element.__localBest__ (h element) = Some lb ->
  ((length (Element.values (h element)) <= length (model P))%nat ->
   (element < result)%nat -> (lb < result)%nat ->
   exists psw',
     nextElement P element globalBest psw = Some (result, psw')
     /\ (forall r, r <> result -> Metaheuristic.heap (base psw') r = h r)
     /\ (exists position velocity,
           Element.__values__ (Metaheuristic.heap (base psw') result) = position
           /\ Element.__velocity__ (Metaheuristic.heap (base psw') result)
              = Some velocity
           /\ Element.evaluation (Metaheuristic.heap (base psw') result)
              = Some (evaluation_of P position)
           /\ Element.__localBest__ (Metaheuristic.heap (base psw') result)
              = Some (if isBetterThan P (candidate P position velocity) (h lb)
                      then result else lb))
     /\ Metaheuristic.fresh (base psw') = S result
     /\ Metaheuristic.state (base psw') = Metaheuristic.state mh
     /\ Metaheuristic.events (base psw') = Metaheuristic.events mh
     /\ __globalBest__ psw' = __globalBest__ psw)
  /\ ((length (model P) < length (Element.values (h element)))%nat ->
      nextElement P element globalBest psw = None).
Proof.
  intros mh h result Hv Hlb. split.
  - intros Hmodel Helement Hbest.
    assert (Halloc : element <> result) by lia.
    unfold nextElement.
    rewrite (@nextVelocity_result psw element globalBest v lb Hv Hlb).
    cbn [base with_base Metaheuristic.heap Metaheuristic.with_random
         Metaheuristic.fresh].
    fold mh. fold h. fold result.
    set (velocity' :=
           map (fun iv =>
                  velocity_component (inertia psw)
                    (JS.mul (JS.Fin (Metaheuristic.random mh 0))
                            (localAcceleration psw))
                    (JS.mul (JS.Fin (Metaheuristic.random mh 1))
                            (globalAcceleration psw))
                    v (Element.__values__ (h lb))
                    (Element.__values__ (h globalBest)) (fst iv) (snd iv))
               (indexed (Element.values (h element)))).
    rewrite (@sequence_map _ _ _
               (fun iv => clamp (JS.add (snd iv) (JS.item velocity' (fst iv)))
                            JS.zero
                            (JS.sub (JS.of_Z (nth (fst iv) (model P) 0%Z))
                                    (JS.Fin 1)))).
    2:{ intros [i x] Hix. cbn [fst snd]. apply indexed_In in Hix.
        rewrite (nth_error_nth' (model P) 0%Z) by lia. reflexivity. }
    set (position' :=
           map (fun iv =>
                  clamp (JS.add (snd iv) (JS.item velocity' (fst iv))) JS.zero
                        (JS.sub (JS.of_Z (nth (fst iv) (model P) 0%Z))
                                (JS.Fin 1)))
               (indexed (Element.values (h element)))).
    rewrite !modify_neq by exact Halloc.
    rewrite upd_neq by exact Halloc.
    fold h. rewrite Hlb.
    eexists. split; [reflexivity |].
    cbn [base with_base Metaheuristic.heap Metaheuristic.with_heap
         Metaheuristic.with_fresh Metaheuristic.with_random
         Metaheuristic.fresh Metaheuristic.state Metaheuristic.events
         __globalBest__].
    refine (conj _ (conj _ (conj eq_refl (conj eq_refl (conj eq_refl eq_refl))))).
    + intros r Hr. now rewrite !modify_neq, upd_neq.
    + exists position', velocity'.
      rewrite !modify_eq, upd_eq.
      rewrite !modify_neq by lia. rewrite upd_neq by lia.
      refine (conj eq_refl (conj eq_refl (conj eq_refl _))).
      reflexivity.
  - intros Hmodel. unfold nextElement.
    rewrite (@nextVelocity_result psw element globalBest v lb Hv Hlb).
    cbn [base with_base Metaheuristic.heap Metaheuristic.with_random].
    fold mh. fold h.
    set (f := fun iv : nat * JS.num => _).
    rewrite (@sequence_none _ _ f
               (nth (length (model P)) (indexed (Element.values (h element)))
                    (O, JS.NaN))); [reflexivity | |].
    + apply nth_In. rewrite indexed_length. exact Hmodel.
    + rewrite indexed_nth by exact Hmodel. unfold f. cbn [fst].
      now rewrite (proj2 (nth_error_None (model P) (length (model P))))
        by lia.
Qed.

End SwarmParticles.

Section SwarmParticlesExamples.

Import ParticleSwarm Swarm Launch.

(** X21 at the example swarm: three particles are launched. *)
Lemma initiate_launches_particles_witness :
  (0 <= 3)%Z
  /\ exists psw',
      initiate Examples.minimize (Some 3%Z) Examples.swarm = Some psw'
      /\ Metaheuristic.state (base psw') = [100; 101; 102]
      /\ Element.__localBest__ (Metaheuristic.heap (base psw') 101) = Some 101.
Proof.
  assert (H : (0 <= 3)%Z) by lia.
  split; [exact H |].
  destruct (proj2 (@initiate_launches_particles Examples.minimize (Some 3%Z)
                     Examples.swarm) H)
    as (psw' & E & Hs & _ & Hlaunched & _).
  exists psw'. refine (conj E (conj Hs _)).
  apply (Hlaunched 101). rewrite Hs. right. left. reflexivity.
Defined.

(** X22 at the example swarm. *)
Lemma update_keeps_particles_witness :
  (forall r, In r (Metaheuristic.state (base Examples.swarm)) ->
     particle Examples.minimize
              (Metaheuristic.heap (base Examples.swarm)) r
     /\ (r < Metaheuristic.fresh (base Examples.swarm))%nat)
  /\ Metaheuristic.state (base Examples.swarm) <> []
  /\ exists psw' psw'',
      update Examples.minimize Examples.swarm = Some psw'
      /\ update Examples.minimize psw' = Some psw''.
Proof.
  assert (Hne : Metaheuristic.state (base Examples.swarm) <> [])
    by discriminate.
  refine (conj example_swarm_particles (conj Hne _)).
  destruct (@update_keeps_particles Examples.minimize Examples.swarm
              example_swarm_particles) as (_ & Hagain).
  apply (Hagain Hne). cbn. lia.
Defined.

(** X23 at the first particle of the example swarm. *)
Lemma nextElement_keeps_personal_best_witness :
  let h := Metaheuristic.heap (base Examples.swarm) in
  Element.__velocity__ (h 0) = Some [Examples.q 1; Examples.q (-2)]
  /\ Element.__localBest__ (h 0) = Some 2
  /\ exists psw',
      nextElement Examples.minimize 0 2 Examples.swarm = Some (100, psw')
      /\ Metaheuristic.heap (base psw') 0 = h 0.
Proof.
  intros h.
  assert (H1 : Element.__velocity__ (h 0)
               = Some [Examples.q 1; Examples.q (-2)]) by reflexivity.
  assert (H2 : Element.__localBest__ (h 0) = Some 2) by reflexivity.
  refine (conj H1 (conj H2 _)).
  destruct (proj1 (@nextElement_keeps_personal_best Examples.minimize
                     Examples.swarm 0 2 _ 2 H1 H2))
    as (psw' & E & Hframe & _); [cbn; lia | cbn; lia | cbn; lia |].
  exists psw'. split; [exact E |]. apply Hframe. discriminate.
Defined.

End SwarmParticlesExamples.

(* ================================================================== *)
(** * evaluate, and the elements update keeps                           *)
(* ================================================================== *)

Section Evaluate.

Import Metaheuristic Run Frame Order Elite.

Variable P : Problem.




End Evaluate.

Section EvaluateExamples.

Import Metaheuristic Run Frame Order Elite.



End EvaluateExamples.
